(** * redis_lock: a shallow embedding of the Go package [redislock]

    The development follows the sources file by file:
    - errors and [IsRetryableErr]            (lock.go)
    - [LockOptions], [RedLockOptions], repair (option.go)
    - the [LockClient] interface and [Client] (redis.go)
    - the two Lua scripts
    - [RedisLock] and its methods             (lock.go)
    - [RedLock] and its methods               (redlock.go)

    The store the client talks to is not part of the package; it is
    modelled as a map of records with an expiry, one per node.  Logging is
    left out.

    Go values are modelled as follows: [int], [int64] and [time.Duration]
    are [Z] (durations in nanoseconds, with the int64 wrap-around written
    out where the source multiplies), strings are [string], a nil error is
    [None], a nil function value is [None], a panic is [Panicked]. *)

From Stdlib Require Import ZArith Lia Ascii.
From stdpp Require Import base gmap strings list pretty.

Local Open Scope Z_scope.

(* ===================================================================== *)
(** ** Errors *)
(* ===================================================================== *)

(** The comparable error values the package tests against with
    [errors.Is]: its own [ErrLockAcquiredByOthers], redigo's [redis.ErrNil]
    and the two errors of package [context]. *)
Inductive sentinel : Type :=
| LockAcquiredByOthers
| RedisNil
| Canceled
| DeadlineExceeded.

#[global] Instance sentinel_eq_dec : EqDecision sentinel.
Proof. solve_decision. Defined.

(** A Go [error] value: a sentinel, a fresh [errors.New], an opaque error
    coming from redigo or the network, or [fmt.Errorf] with one [%w] (the message is the format string). *)
Inductive error : Type :=
| Sentinel (s : sentinel)
| ErrorsNew (msg : string)
| External (msg : string)
| Errorf (msg : string) (wrapped : error).

Definition ErrLockAcquiredByOthers : error := Sentinel LockAcquiredByOthers.
Definition ErrNil : error := Sentinel RedisNil.

(** [errors.Is]: walk the [Unwrap] chain and compare with [==]. *)
Fixpoint errors_Is (err : error) (target : sentinel) : bool :=
  match err with
  | Sentinel s => bool_decide (s = target)
  | ErrorsNew _ => false
  | External _ => false
  | Errorf _ wrapped => errors_Is wrapped target
  end.

Definition IsRetryableErr (err : error) : bool :=
  errors_Is err LockAcquiredByOthers.

(** Errors a store adapter hands back: the nil reply of a conditional
    set, a context error of the connection pool, any other redigo or
    network error, possibly wrapped.  None of them is this package's
    contention sentinel, which only [tryLock] and [blockingLock] create. *)
Inductive store_error : Type :=
| StoreNil
| StoreCanceled
| StoreDeadlineExceeded
| StoreOther (msg : string)
| StoreWrapped (msg : string) (inner : store_error).

Fixpoint as_error (e : store_error) : error :=
  match e with
  | StoreNil => ErrNil
  | StoreCanceled => Sentinel Canceled
  | StoreDeadlineExceeded => Sentinel DeadlineExceeded
  | StoreOther msg => External msg
  | StoreWrapped msg inner => Errorf msg (as_error inner)
  end.

(** A call either returns or panics. *)
Inductive outcome (A : Type) : Type :=
| Returned (a : A)
| Panicked.
Arguments Returned {A} a.
Arguments Panicked {A}.

(* ===================================================================== *)
(** ** Durations and int64 arithmetic *)
(* ===================================================================== *)

Definition wrap64 (z : Z) : Z := (z + 2 ^ 63) mod 2 ^ 64 - 2 ^ 63.

Definition Millisecond : Z := 1000000.
Definition Second : Z := 1000000000.

(** *** float64, as far as [time.Duration.Seconds] needs it

    A finite float64 is [fnum * 2 ^ fexp].  The values met here (an
    int64 count of seconds, a count of nanoseconds under a second, their
    quotient by 1e9 and the sum) lie in the normal range of binary64, so
    the exponent is left unbounded; the significand has 53 bits and every
    operation rounds its exact result to nearest, ties to even. *)
Record float64 : Type := mkFloat64 { fnum : Z; fexp : Z }.

(** [n / d] rounded to the nearest integer, ties to even ([0 ≤ n], [0 < d]). *)
Definition round_half_even (n d : Z) : Z :=
  let q := n / d in
  let r := n mod d in
  if 2 * r <? d then q
  else if d <? 2 * r then q + 1
  else if Z.even q then q else q + 1.

(** The [e] with [2 ^ e ≤ n / d < 2 ^ (e + 1)] ([0 < n], [0 < d]). *)
Definition binade (n d : Z) : Z :=
  if d <=? n then Z.log2 (n / d) else - Z.log2_up ((d + n - 1) / n).

(** The float64 nearest to the rational [n / d] ([0 < d]). *)
Definition float64_round (n d : Z) : float64 :=
  if n =? 0 then mkFloat64 0 0
  else
    let a := Z.abs n in
    let e := binade a d in
    let m := if e <=? 52 then round_half_even (a * 2 ^ (52 - e)) d
             else round_half_even a (d * 2 ^ (e - 52)) in
    mkFloat64 (Z.sgn n * m) (e - 52).

(** [float64(z)] of an integer. *)
Definition float64_of_int (z : Z) : float64 := float64_round z 1.

(** The value of a float64 as a fraction with a positive denominator. *)
Definition fraction (x : float64) : Z * Z :=
  if 0 <=? fexp x then (fnum x * 2 ^ fexp x, 1) else (fnum x, 2 ^ (- fexp x)).

Definition float64_add (x y : float64) : float64 :=
  let '(nx, dx) := fraction x in
  let '(ny, dy) := fraction y in
  float64_round (nx * dy + ny * dx) (dx * dy).

(** [x / y] for [y] other than zero. *)
Definition float64_div (x y : float64) : float64 :=
  let '(nx, dx) := fraction x in
  let '(ny, dy) := fraction y in
  float64_round (Z.sgn ny * nx * dy) (Z.abs ny * dx).

(** [int64(x)]: the fraction is dropped (every value met here is within
    int64). *)
Definition int64_of_float64 (x : float64) : Z :=
  let '(n, d) := fraction x in Z.quot n d.

(** [int64(d.Seconds())], with [time.Duration.Seconds] as the time
    package has it:
      sec := d / Second; nsec := d % Second;
      return float64(sec) + float64(nsec)/1e9 *)
Definition Duration_Seconds (d : Z) : Z :=
  let sec := Z.quot d Second in
  let nsec := Z.rem d Second in
  int64_of_float64
    (float64_add (float64_of_int sec)
                 (float64_div (float64_of_int nsec) (float64_of_int 1000000000))).

(* ===================================================================== *)
(** ** option.go *)
(* ===================================================================== *)

Definition DefaultLockExpireSeconds : Z := 10.
Definition WatchDogWorkStepSeconds : Z := 3.

Record LockOptions : Type := mkLockOptions {
  isBlock : bool;
  blockWaitingSeconds : Z;
  expireSeconds : Z;
  watchDogMode : bool
}.

(** The zero value of the struct. *)
Definition zeroLockOptions : LockOptions := mkLockOptions false 0 0 false.

(** The closures returned by [WithBlock], [WithBlockWaitingSeconds] and
    [WithExpireSeconds], as data. *)
Inductive LockOption : Type :=
| WithBlock
| WithBlockWaitingSeconds (waitingSeconds : Z)
| WithExpireSeconds (expireSeconds : Z).

Definition applyLockOption (lo : LockOptions) (opt : LockOption) : LockOptions :=
  match opt with
  | WithBlock =>
      mkLockOptions true (blockWaitingSeconds lo) (expireSeconds lo) (watchDogMode lo)
  | WithBlockWaitingSeconds s =>
      mkLockOptions (isBlock lo) s (expireSeconds lo) (watchDogMode lo)
  | WithExpireSeconds s =>
      mkLockOptions (isBlock lo) (blockWaitingSeconds lo) s (watchDogMode lo)
  end.

Definition repairLock (lo : LockOptions) : LockOptions :=
  let lo1 :=
    if isBlock lo && (blockWaitingSeconds lo <=? 0)
    then mkLockOptions (isBlock lo) 5 (expireSeconds lo) (watchDogMode lo)
    else lo in
  if 0 <? expireSeconds lo1 then lo1
  else mkLockOptions (isBlock lo1) (blockWaitingSeconds lo1) DefaultLockExpireSeconds true.

Record RedLockOptions : Type := mkRedLockOptions {
  singleNodesTimeout : Z;
  expireDuration : Z
}.

Definition zeroRedLockOptions : RedLockOptions := mkRedLockOptions 0 0.

Inductive RedLockOption : Type :=
| WithSingleNodesTimeout (singleNodesTimeout : Z)
| WithRedLockExpireDuration (duration : Z).

Definition applyRedLockOption (o : RedLockOptions) (opt : RedLockOption) : RedLockOptions :=
  match opt with
  | WithSingleNodesTimeout t => mkRedLockOptions t (expireDuration o)
  | WithRedLockExpireDuration d => mkRedLockOptions (singleNodesTimeout o) d
  end.

Definition DefaultSingleLockTimeout : Z := 50 * Millisecond.

Definition repairRedLock (o : RedLockOptions) : RedLockOptions :=
  if singleNodesTimeout o <=? 0
  then mkRedLockOptions DefaultSingleLockTimeout (expireDuration o)
  else o.

Record SingleNodeConf : Type := mkSingleNodeConf {
  Network : string;
  Address : string;
  Password : string
}.

(* ===================================================================== *)
(** ** Package context, the clock and the goroutines *)
(* ===================================================================== *)

(** A context is the chain of its ancestors.  Every derived context has
    the identity of its cancel function. *)
Inductive context : Type :=
| Background
| WithCancel (id : nat) (parent : context)
| WithTimeout (id : nat) (deadline : Z) (parent : context).

(** The goroutine a successful [Lock] starts: [runWatchDog] for the lock
    with this key and token, on this context. *)
Record goroutine : Type := mkGoroutine {
  dog_key : string;
  dog_token : string;
  dog_ctx : context
}.

(** The part of the process the lock code acts on besides the lock
    structs: the monotonic clock (ns), the cancel functions called so far
    with the time of their first call, the next fresh cancel identity,
    the goroutines started, and the state [S] behind the store client. *)
Record World (S : Type) : Type := mkWorld {
  now : Z;
  cancelled : list (nat * Z);
  next_id : nat;
  goroutines : list goroutine;
  client_state : S
}.
Arguments mkWorld {S}.
Arguments now {S}.
Arguments cancelled {S}.
Arguments next_id {S}.
Arguments goroutines {S}.
Arguments client_state {S}.

Section Runtime.
Context {S : Type}.

Definition set_now (t : Z) (w : World S) : World S :=
  mkWorld t (cancelled w) (next_id w) (goroutines w) (client_state w).

Definition set_client_state (s : S) (w : World S) : World S :=
  mkWorld (now w) (cancelled w) (next_id w) (goroutines w) s.

(** Time passes. *)
Definition elapse (d : N) (w : World S) : World S :=
  set_now (now w + Z.of_N d) w.

Fixpoint cancel_time (cs : list (nat * Z)) (id : nat) : option Z :=
  match cs with
  | [] => None
  | (i, t) :: rest =>
      match cancel_time rest id with
      | Some t' => Some t'
      | None => if bool_decide (i = id) then Some t else None
      end
  end.

(** Calling a cancel function; only the first call has an effect. *)
Definition cancel (id : nat) (w : World S) : World S :=
  match cancel_time (cancelled w) id with
  | Some _ => w
  | None =>
      mkWorld (now w) ((id, now w) :: cancelled w) (next_id w)
              (goroutines w) (client_state w)
  end.

Definition fresh_id (w : World S) : nat * World S :=
  (next_id w,
   mkWorld (now w) (cancelled w) (Datatypes.S (next_id w)) (goroutines w)
           (client_state w)).

Definition spawn (g : goroutine) (w : World S) : World S :=
  mkWorld (now w) (cancelled w) (next_id w) (g :: goroutines w)
          (client_state w).

Definition earliest (a b : option (Z * sentinel)) : option (Z * sentinel) :=
  match a, b with
  | Some (ta, _), Some (tb, _) => if ta <=? tb then a else b
  | Some _, None => a
  | None, _ => b
  end.

Definition own_cancel (cs : list (nat * Z)) (id : nat) : option (Z * sentinel) :=
  match cancel_time cs id with
  | Some t => Some (t, Canceled)
  | None => None
  end.

(** When and why a context becomes done: the first of the cancellation
    of an ancestor, its own cancel call, and its own deadline. *)
Fixpoint ctx_cause (cs : list (nat * Z)) (ctx : context) : option (Z * sentinel) :=
  match ctx with
  | Background => None
  | WithCancel id parent => earliest (ctx_cause cs parent) (own_cancel cs id)
  | WithTimeout id deadline parent =>
      earliest (ctx_cause cs parent)
               (earliest (own_cancel cs id) (Some (deadline, DeadlineExceeded)))
  end.

(** [ctx.Err()]: nil until the context is done. *)
Definition ctx_Err (w : World S) (ctx : context) : option error :=
  match ctx_cause (cancelled w) ctx with
  | Some (t, e) => if t <=? now w then Some (Sentinel e) else None
  | None => None
  end.

(** [ctx.Done()] is closed. *)
Definition ctx_Done (w : World S) (ctx : context) : bool :=
  match ctx_Err w ctx with Some _ => true | None => false end.

End Runtime.

(* ===================================================================== *)
(** ** redis.go: the store client *)
(* ===================================================================== *)

(** What [conn.Do] hands back ([interface{}]). *)
Inductive reply : Type :=
| ReplyInt (n : Z)
| ReplyNil
| ReplyString (s : string).

(** An element of [keyAndArgs []interface{}]. *)
Inductive arg : Type :=
| ArgString (s : string)
| ArgInt (n : Z).

(** The two script sources. *)
Inductive script : Type :=
| LuaCheckAndDeleteDistributionLock
| LuaCheckAndExpireDistributionLock.

(** The interface [LockClient].  A method reads the clock ([Z], ns), acts
    on the state [S] behind the client and takes some time ([N], ns). *)
Record LockClient (S : Type) : Type := mkLockClient {
  SetNX : context → string → string → Z → Z → S → (Z * option error) * N * S;
  Eval : context → script → Z → list arg → Z → S → (reply * option error) * N * S
}.
Arguments mkLockClient {S}.
Arguments SetNX {S}.
Arguments Eval {S}.

(** *** The store *)

Record entry : Type := mkEntry {
  entry_value : string;
  entry_expire_at : Z
}.

Inductive set_reply : Type :=
| SetOK
| SetNilReply
| SetError (msg : string).

Inductive script_reply : Type :=
| ScriptInt (n : Z)
| ScriptError (msg : string).

Section Server.
Implicit Types (db : gmap string entry) (k v : string) (t : Z).

(** Modelled from the spec: the store itself is not part of the
    repository.  A record is a value with an expiry; a record whose
    expiry has passed is absent. *)
Definition live t db k : option entry :=
  match db !! k with
  | Some e => if t <? entry_expire_at e then Some e else None
  | None => None
  end.

(** Modelled from the spec: GET of the store. *)
Definition redis_get t db k : option string :=
  entry_value <$> live t db k.

(** Modelled from the spec: DEL of the store, the number of keys removed. *)
Definition redis_del t db k : Z * gmap string entry :=
  match live t db k with
  | Some _ => (1, delete k db)
  | None => (0, db)
  end.

(** Modelled from the spec: EXPIRE of the store; 1 when the key exists.
    A duration that is not positive removes the key. *)
Definition redis_expire t db k (secs : Z) : Z * gmap string entry :=
  match live t db k with
  | Some e =>
      (1, if secs <=? 0 then delete k db
          else <[k := mkEntry (entry_value e) (t + secs * Second)]> db)
  | None => (0, db)
  end.

(** Modelled from the spec: the atomic set-if-absent with a lifetime,
    [SET k v EX secs NX]. *)
Definition redis_set_ex_nx t db k v (secs : Z) : set_reply * gmap string entry :=
  if secs <=? 0 then (SetError "ERR invalid expire time in 'set' command", db)
  else match live t db k with
       | Some _ => (SetNilReply, db)
       | None => (SetOK, <[k := mkEntry v (t + secs * Second)]> db)
       end.

Definition arg_string (a : arg) : string :=
  match a with
  | ArgString s => s
  | ArgInt n => pretty n
  end.

(** EVAL splits [keyAndArgs] into KEYS and ARGV. *)
Definition split_keys (keyCount : Z) (keyAndArgs : list arg)
  : option (list string * list arg) :=
  if (keyCount <? 0) || (Z.of_nat (length keyAndArgs) <? keyCount) then None
  else Some (arg_string <$> take (Z.to_nat keyCount) keyAndArgs,
             drop (Z.to_nat keyCount) keyAndArgs).

(** The script [LuaCheckAndDeleteDistributionLock]. *)
Definition lua_check_and_delete (KEYS : list string) (ARGV : list arg) t db
  : script_reply * gmap string entry :=
  match KEYS !! 0%nat with
  | None => (ScriptError "ERR Lua redis() command arguments must be strings or integers", db)
  | Some lockerKey =>
      let targetToken := ARGV !! 0%nat in
      let getToken := redis_get t db lockerKey in
      match getToken, targetToken with
      | Some got, Some target =>
          if bool_decide (got = arg_string target)
          then let '(n, db') := redis_del t db lockerKey in (ScriptInt n, db')
          else (ScriptInt 0, db)
      | _, _ => (ScriptInt 0, db)
      end
  end.

(** The script [LuaCheckAndExpireDistributionLock].  The duration reaches
    EXPIRE as the integer the caller passed; anything else is refused
    by the store. *)
Definition lua_check_and_expire (KEYS : list string) (ARGV : list arg) t db
  : script_reply * gmap string entry :=
  match KEYS !! 0%nat with
  | None => (ScriptError "ERR Lua redis() command arguments must be strings or integers", db)
  | Some lockerKey =>
      let targetToken := ARGV !! 0%nat in
      let duration := ARGV !! 1%nat in
      let getToken := redis_get t db lockerKey in
      match getToken, targetToken with
      | Some got, Some target =>
          if bool_decide (got = arg_string target)
          then match duration with
               | Some (ArgInt secs) =>
                   let '(n, db') := redis_expire t db lockerKey secs in (ScriptInt n, db')
               | _ => (ScriptError "ERR value is not an integer or out of range", db)
               end
          else (ScriptInt 0, db)
      | _, _ => (ScriptInt 0, db)
      end
  end.

Definition run_script (src : script) (keyCount : Z) (keyAndArgs : list arg) t db
  : script_reply * gmap string entry :=
  match split_keys keyCount keyAndArgs with
  | None => (ScriptError "ERR Number of keys is out of range", db)
  | Some (KEYS, ARGV) =>
      match src with
      | LuaCheckAndDeleteDistributionLock => lua_check_and_delete KEYS ARGV t db
      | LuaCheckAndExpireDistributionLock => lua_check_and_expire KEYS ARGV t db
      end
  end.
End Server.

(** *** The network between a client and its node *)

(** How one round trip goes: well, or it fails with a store error before
    a connection is obtained, before the command reaches the node, or
    after the node has executed it. *)
Inductive net_fault : Type :=
| NetOk
| ConnFailed (e : store_error)
| SendFailed (e : store_error)
| ReplyLost (e : store_error).

Record net_event : Type := mkNetEvent {
  latency : N;
  fault : net_fault
}.

(** The state behind the clients of [NewClient]: the nodes by address and
    the course of the coming round trips. *)
Record Redis : Type := mkRedis {
  nodes : gmap string (gmap string entry);
  net : list net_event
}.

Definition node_db (st : Redis) (addr : string) : gmap string entry :=
  default ∅ (nodes st !! addr).

Definition set_node_db (addr : string) (db : gmap string entry) (st : Redis) : Redis :=
  mkRedis (<[addr := db]> (nodes st)) (net st).

Definition next_event (st : Redis) : net_event * Redis :=
  match net st with
  | [] => (mkNetEvent 0 NetOk, st)
  | ev :: rest => (ev, mkRedis (nodes st) rest)
  end.

(** [Client]: what remains of the connection parameters is the node the
    pool dials.  The pool sizes of [ClientOptions] do not reach the lock. *)
Record Client : Type := mkClient {
  network : string;
  address : string;
  password : string
}.

(** Where the calls of the client panic instead of returning.
    [Client.SetNX] panics on an empty key or an empty value before it
    takes a connection; [getRedisConn], which the pool calls to dial for
    [Client.SetNX] and for [Client.Eval], panics on an empty address. *)
Definition SetNX_panics (key value : string) : bool :=
  String.eqb key EmptyString || String.eqb value EmptyString.

Definition getRedisConn_panics (c : Client) : bool :=
  String.eqb (address c) EmptyString.

(** [Client.SetNX] where it returns: for a key and a value that are not
    empty ([SetNX_panics]) and a client whose address is not empty
    ([getRedisConn_panics]).  A lock key carries the prefix and a token
    the underscore; the address is the caller's. *)
Definition Client_SetNX (c : Client) (ctx : context) (key value : string)
    (expireSeconds : Z) (t : Z) (st : Redis) : (Z * option error) * N * Redis :=
  let '(ev, st1) := next_event st in
  let db := node_db st1 (address c) in
  match fault ev with
  | ConnFailed e => ((-1, Some (as_error e)), latency ev, st1)
  | SendFailed e => ((-1, Some (as_error e)), latency ev, st1)
  | ReplyLost e =>
      let '(_, db') := redis_set_ex_nx t db key value expireSeconds in
      ((-1, Some (as_error e)), latency ev, set_node_db (address c) db' st1)
  | NetOk =>
      match redis_set_ex_nx t db key value expireSeconds with
      | (SetOK, db') => ((1, None), latency ev, set_node_db (address c) db' st1)
      | (SetNilReply, db') => ((0, Some ErrNil), latency ev, set_node_db (address c) db' st1)
      | (SetError msg, db') => ((-1, Some (External msg)), latency ev, set_node_db (address c) db' st1)
      end
  end.

(** [Client.Eval] where it returns: for a client whose address is not
    empty ([getRedisConn_panics]). *)
Definition Client_Eval (c : Client) (ctx : context) (src : script) (keyCount : Z)
    (keyAndArgs : list arg) (t : Z) (st : Redis) : (reply * option error) * N * Redis :=
  let '(ev, st1) := next_event st in
  let db := node_db st1 (address c) in
  match fault ev with
  | ConnFailed e => ((ReplyInt (-1), Some (as_error e)), latency ev, st1)
  | SendFailed e => ((ReplyNil, Some (as_error e)), latency ev, st1)
  | ReplyLost e =>
      let '(_, db') := run_script src keyCount keyAndArgs t db in
      ((ReplyNil, Some (as_error e)), latency ev, set_node_db (address c) db' st1)
  | NetOk =>
      match run_script src keyCount keyAndArgs t db with
      | (ScriptInt n, db') => ((ReplyInt n, None), latency ev, set_node_db (address c) db' st1)
      | (ScriptError msg, db') => ((ReplyNil, Some (External msg)), latency ev, set_node_db (address c) db' st1)
      end
  end.

(** [NewClient], seen through the interface. *)
Definition NewClient (network address password : string) : LockClient Redis :=
  let c := mkClient network address password in
  mkLockClient (Client_SetNX c) (Client_Eval c).

(* ===================================================================== *)
(** ** lock.go: the single-node lock *)
(* ===================================================================== *)

Definition RedisLockKeyPrefix : string := "REDIS_LOCK_PREFIX_".

(** *** utils: the token of the caller *)

(** [strings.Split] for a separator that is not empty: the first piece
    and the pieces after it.  [skip] counts the characters of a separator
    just found that are still to be passed. *)
Fixpoint Split_go (sep : string) (skip : nat) (s : string) : string * list string :=
  match s with
  | EmptyString => (EmptyString, [])
  | String c s' =>
      match skip with
      | Datatypes.S k => Split_go sep k s'
      | O =>
          if String.prefix sep s
          then (EmptyString,
                let '(h, t) := Split_go sep (String.length sep - 1) s' in h :: t)
          else let '(h, t) := Split_go sep 0 s' in (String c h, t)
      end
  end.

Definition strings_Split (s sep : string) : list string :=
  let '(h, t) := Split_go sep 0 s in h :: t.

(** White space of [strings.TrimSpace] in ASCII text. *)
Definition is_space (c : ascii) : bool :=
  ((9 <=? N_of_ascii c) && (N_of_ascii c <=? 13) || (N_of_ascii c =? 32))%N.

Fixpoint TrimLeft (s : string) : string :=
  match s with
  | EmptyString => EmptyString
  | String c s' => if is_space c then TrimLeft s' else s
  end.

Fixpoint TrimRight (s : string) : string :=
  match s with
  | EmptyString => EmptyString
  | String c s' =>
      match TrimRight s' with
      | EmptyString => if is_space c then EmptyString else String c EmptyString
      | r => String c r
      end
  end.

Definition strings_TrimSpace (s : string) : string := TrimRight (TrimLeft s).

(** [buf[:n]] of a buffer of [n] bytes the text was written to. *)
Fixpoint first_bytes (n : nat) (s : string) : string :=
  match n, s with
  | Datatypes.S k, String c s' => String c (first_bytes k s')
  | _, _ => EmptyString
  end.

(** [GetCurrentGoroutineID], as a function of the text [runtime.Stack]
    has for the calling goroutine: the text between the first "goroutine"
    and the first "[running]" of the first 128 bytes, trimmed.  The index
    [1] panics when the first piece holds no "goroutine". *)
Definition GetCurrentGoroutineID (stack : string) : outcome string :=
  let stackInfo := first_bytes 128 stack in
  match strings_Split (hd EmptyString (strings_Split stackInfo "[running]")) "goroutine" with
  | _ :: id :: _ => Returned (strings_TrimSpace id)
  | _ => Panicked
  end.

(** Modelled from the spec: the Go runtime is not part of the repository.
    The stack text of the running goroutine [goid] starts with the header
    line and goes on with the frames. *)
Definition stack_text (goid : nat) (frames : string) : string :=
  ("goroutine " +:+ pretty goid +:+ " [running]:") +:+ frames.

(** The process and the goroutine a constructor runs in: the process id
    and what [runtime.Stack] has for the goroutine, which is its id, its
    status ("running", or "running, locked to thread" for a goroutine
    wired to its thread) and its frames. *)
Record caller : Type := mkCallerAt {
  pid : nat;
  goid : nat;
  status : string;
  frames : string
}.

(** A goroutine in the status "running". *)
Definition mkCaller (pid goid : nat) : caller :=
  mkCallerAt pid goid "running" EmptyString.

(** Modelled from the spec: the Go runtime is not part of the repository.
    The stack text of the caller: the header line with the id and the
    status, and the frames. *)
Definition caller_stack (g : caller) : string :=
  ("goroutine " +:+ pretty (goid g) +:+ " [" +:+ status g +:+ "]:") +:+ frames g.

(** [GetProcessAndGoroutineIDStr]: [Sprintf("%s_%s", ...)] of the process
    id and of what [GetCurrentGoroutineID] reads off the stack text.  The
    text starts with "goroutine", so that the call returns (lemma
    [GetCurrentGoroutineID_returns]); where it panicked there would be no
    token. *)
Definition GetProcessAndGoroutineIDStr (g : caller) : string :=
  pretty (pid g) +:+ "_" +:+
  match GetCurrentGoroutineID (caller_stack g) with
  | Returned id => id
  | Panicked => EmptyString
  end.

Record RedisLock (S : Type) : Type := mkRedisLock {
  lockOptions : LockOptions;
  key : string;
  token : string;
  client : LockClient S;
  runningDog : Z;
  stopDog : option nat
}.
Arguments mkRedisLock {S}.
Arguments lockOptions {S}.
Arguments key {S}.
Arguments token {S}.
Arguments client {S}.
Arguments runningDog {S}.
Arguments stopDog {S}.

(** What the environment does until a ticker delivers its next tick to a
    loop: the delay beyond the tick time, the cancel functions other
    goroutines call, what other clients do to the store, and the case
    [select] picks when several are ready. *)
Record tick (S : Type) : Type := mkTick {
  tick_delay : N;
  tick_cancels : list nat;
  tick_env : S → S;
  tick_pick : bool
}.
Arguments mkTick {S}.
Arguments tick_delay {S}.
Arguments tick_cancels {S}.
Arguments tick_env {S}.
Arguments tick_pick {S}.

(** [atomic.CompareAndSwapInt32]: the new content and whether it swapped. *)
Definition CompareAndSwapInt32 (v old new : Z) : Z * bool :=
  if v =? old then (new, true) else (v, false).

Section RedisLock.
Context {S : Type}.
Implicit Types (r : RedisLock S) (w : World S) (ctx : context).

Definition NewRedisLock (g : caller) (key : string) (client : LockClient S)
    (opts : list LockOption) : RedisLock S :=
  mkRedisLock (repairLock (foldl applyLockOption zeroLockOptions opts))
              key (GetProcessAndGoroutineIDStr g) client 0 None.

Definition getLockKey r : string := RedisLockKeyPrefix +:+ key r.

(** A method call of the client: the store state changes and the clock
    moves on by the time the call took. *)
Definition call_SetNX r ctx (k v : string) (secs : Z) w
  : (Z * option error) * World S :=
  let '(res, lat, s') := SetNX (client r) ctx k v secs (now w) (client_state w) in
  (res, elapse lat (set_client_state s' w)).

Definition call_Eval r ctx (src : script) (keyCount : Z) (keyAndArgs : list arg) w
  : (reply * option error) * World S :=
  let '(res, lat, s') :=
    Eval (client r) ctx src keyCount keyAndArgs (now w) (client_state w) in
  (res, elapse lat (set_client_state s' w)).

Definition tryLock r ctx w : option error * World S :=
  let '((_, err), w1) :=
    call_SetNX r ctx (getLockKey r) (token r) (expireSeconds (lockOptions r)) w in
  match err with
  | Some e =>
      if errors_Is e RedisNil
      then (Some (Errorf "redis.ErrNil 代表执行 redis SETNX 失败，未获取到锁，可重试: reply: %d, err: %w"
                         ErrLockAcquiredByOthers), w1)
      else (Some e, w1)
  | None => (None, w1)
  end.

(** [ret, _ := reply.(int64)]. *)
Definition reply_int64 (rep : reply) : Z :=
  match rep with
  | ReplyInt n => n
  | _ => 0
  end.

Definition DelayExpire r ctx (expireSeconds : Z) w : option error * World S :=
  let keyAndArgs := [ArgString (getLockKey r); ArgString (token r); ArgInt expireSeconds] in
  let '((rep, err), w1) :=
    call_Eval r ctx LuaCheckAndExpireDistributionLock 1 keyAndArgs w in
  match err with
  | Some e => (Some e, w1)
  | None =>
      if negb (reply_int64 rep =? 1)
      then (Some (ErrorsNew "can not expire lock without ownership of lock"), w1)
      else (None, w1)
  end.

(** The world when a loop receives tick number [n] of a ticker of the
    given period started at [start]: not before the tick time. *)
Definition arrive (start period : Z) (n : Z) (tk : tick S) w : World S :=
  let w1 := set_now (Z.max (now w) (start + period * n) + Z.of_N (tick_delay tk)) w in
  let w2 := foldr cancel w1 (tick_cancels tk) in
  set_client_state (tick_env tk (client_state w2)) w2.

(** The loop of [blockingLock]; [None] while the ticks seen so far have
    not ended it. *)
Fixpoint blockingLock_loop r ctx (start timeout : Z) (n : Z) (ticks : list (tick S)) w
  : option (option error * World S) :=
  match ticks with
  | [] => None
  | tk :: rest =>
      let w1 := arrive start (50 * Millisecond) n tk w in
      let timed_out := start + timeout <=? now w1 in
      let ctx_error := Errorf "lock failed, ctx timeout, err: %w" in
      let wait_error := Errorf "block waiting time out, err: %w" ErrLockAcquiredByOthers in
      match ctx_Err w1 ctx, timed_out with
      | Some e, true =>
          if tick_pick tk then Some (Some (ctx_error e), w1)
          else Some (Some wait_error, w1)
      | Some e, false => Some (Some (ctx_error e), w1)
      | None, true => Some (Some wait_error, w1)
      | None, false =>
          let '(err, w2) := tryLock r ctx w1 in
          match err with
          | None => Some (None, w2)
          | Some e =>
              if negb (IsRetryableErr e) then Some (Some e, w2)
              else blockingLock_loop r ctx start timeout (n + 1) rest w2
          end
      end
  end.

Definition blockingLock r ctx (ticks : list (tick S)) w
  : option (option error * World S) :=
  blockingLock_loop r ctx (now w)
    (wrap64 (blockWaitingSeconds (lockOptions r) * Second)) 1 ticks w.

(** [watchDog]; [None] while the compare-and-swap loop spins, which it
    does until the goroutine of an earlier acquisition resets the flag. *)
Definition watchDog r ctx w : option (RedisLock S * World S) :=
  if negb (watchDogMode (lockOptions r)) then Some (r, w)
  else
    match CompareAndSwapInt32 (runningDog r) 0 1 with
    | (_, false) => None
    | (v, true) =>
        let '(id, w1) := fresh_id w in
        let ctx' := WithCancel id ctx in
        Some (mkRedisLock (lockOptions r) (key r) (token r) (client r) v (Some id),
              spawn (mkGoroutine (key r) (token r) ctx') w1)
    end.

(** The loop of [runWatchDog]: [true] when it returned, [false] when it
    is still waiting for the next tick. *)
Fixpoint runWatchDog_loop r ctx (start : Z) (n : Z) (ticks : list (tick S)) w
  : bool * World S :=
  match ticks with
  | [] => (false, w)
  | tk :: rest =>
      let w1 := arrive start (WatchDogWorkStepSeconds * Second) n tk w in
      if ctx_Done w1 ctx then (true, w1)
      else
        let '(_, w2) := DelayExpire r ctx (WatchDogWorkStepSeconds + 3) w1 in
        runWatchDog_loop r ctx start (n + 1) rest w2
  end.

Definition runWatchDog r ctx (ticks : list (tick S)) w : bool * World S :=
  runWatchDog_loop r ctx (now w) 1 ticks w.

(** The goroutine started by [watchDog]: when [runWatchDog] returns, the
    deferred function stores 0 in [runningDog]. *)
Definition watchDog_goroutine r ctx (ticks : list (tick S)) w
  : RedisLock S * bool * World S :=
  let '(exited, w1) := runWatchDog r ctx ticks w in
  if exited
  then (mkRedisLock (lockOptions r) (key r) (token r) (client r) 0 (stopDog r),
        true, w1)
  else (r, false, w1).

(** The deferred function of [Lock]. *)
Definition Lock_deferred r ctx (err : option error) w
  : option (option error * RedisLock S * World S) :=
  match err with
  | Some _ => Some (err, r, w)
  | None =>
      match watchDog r ctx w with
      | Some (r', w') => Some (None, r', w')
      | None => None
      end
  end.

Definition Lock r ctx (ticks : list (tick S)) w
  : option (option error * RedisLock S * World S) :=
  let '(err, w1) := tryLock r ctx w in
  match err with
  | None => Lock_deferred r ctx None w1
  | Some e =>
      if negb (isBlock (lockOptions r)) then Lock_deferred r ctx (Some e) w1
      else if negb (IsRetryableErr e) then Lock_deferred r ctx (Some e) w1
      else
        match blockingLock r ctx ticks w1 with
        | None => None
        | Some (err', w2) => Lock_deferred r ctx err' w2
        end
  end.

(** [Unlock]: the script call, the result, and then the deferred call of
    [stopDog], which is a nil function until [watchDog] has set it. *)
Definition Unlock r ctx w : outcome (option error) * World S :=
  let keyAndArgs := [ArgString (getLockKey r); ArgString (token r)] in
  let '((rep, err), w1) :=
    call_Eval r ctx LuaCheckAndDeleteDistributionLock 1 keyAndArgs w in
  let result :=
    match err with
    | Some e => Some e
    | None =>
        if negb (reply_int64 rep =? 1)
        then Some (ErrorsNew "can not unlock without ownership of lock")
        else None
    end in
  match stopDog r with
  | None => (Panicked, w1)
  | Some id => (Returned result, cancel id w1)
  end.

End RedisLock.

(* ===================================================================== *)
(** ** redlock.go: the quorum lock *)
(* ===================================================================== *)

Record RedLock : Type := mkRedLock {
  redLockOptions : RedLockOptions;
  locks : list (RedisLock Redis)
}.

Definition NewRedLock (g : caller) (key : string) (confs : list SingleNodeConf)
    (opts : list RedLockOption) : RedLock + error :=
  if Z.of_nat (length confs) <? 3
  then inr (ErrorsNew "can not use redLock less than 3 nodes")
  else
    let o := repairRedLock (foldl applyRedLockOption zeroRedLockOptions opts) in
    if (0 <? expireDuration o)
       && (expireDuration o <?
             wrap64 (wrap64 (Z.of_nat (length confs) * singleNodesTimeout o) * 10))
    then inr (ErrorsNew "expire thresholds of single node is too long")
    else
      inl (mkRedLock o
             (map (λ conf,
                     NewRedisLock g key
                       (NewClient (Network conf) (Address conf) (Password conf))
                       [WithExpireSeconds (Duration_Seconds (expireDuration o))])
                  confs)).

Definition is_nil (err : option error) : bool :=
  match err with None => true | Some _ => false end.

(** [RedLock.Unlock]: the loop over the members.  A member that panics
    ends the loop. *)
Fixpoint RedLock_Unlock_loop (ls : list (RedisLock Redis)) (ctx : context)
    (err : option error) (w : World Redis) : outcome (option error) * World Redis :=
  match ls with
  | [] => (Returned err, w)
  | lock :: rest =>
      match Unlock lock ctx w with
      | (Panicked, w1) => (Panicked, w1)
      | (Returned _err, w1) =>
          RedLock_Unlock_loop rest ctx (if is_nil _err then err else _err) w1
      end
  end.

Definition RedLock_Unlock (r : RedLock) (ctx : context) (w : World Redis)
  : outcome (option error) * World Redis :=
  RedLock_Unlock_loop (locks r) ctx None w.

(** The loop of [RedLock.Lock]: the count of successes, the members as
    their [Lock] calls left them, the cancel functions deferred (the last
    deferred first), and the world. *)
Fixpoint RedLock_Lock_loop (timeout : Z) (ctx : context) (ls : list (RedisLock Redis))
    (obs : list (list (tick Redis))) (successCnt : Z) (w : World Redis)
  : option (Z * list (RedisLock Redis) * list nat * World Redis) :=
  match ls with
  | [] => Some (successCnt, [], [], w)
  | lock :: rest =>
      let startTime := now w in
      let '(id, w1) := fresh_id w in
      let _ctx := WithTimeout id (now w1 + timeout) ctx in
      match Lock lock _ctx (hd [] obs) w1 with
      | None => None
      | Some (err, lock', w2) =>
          let cost := now w2 - startTime in
          let successCnt' :=
            if is_nil err && (cost <=? timeout) then successCnt + 1 else successCnt in
          match RedLock_Lock_loop timeout ctx rest (tl obs) successCnt' w2 with
          | None => None
          | Some (cnt, rest', deferred, w3) =>
              Some (cnt, lock' :: rest', deferred ++ [id], w3)
          end
      end
  end.

(** [RedLock.Lock]; the deferred cancel functions run when it returns and
    when it panics. *)
Definition RedLock_Lock (r : RedLock) (ctx : context) (obs : list (list (tick Redis)))
    (w : World Redis) : option (outcome (option error) * RedLock * World Redis) :=
  match RedLock_Lock_loop (singleNodesTimeout (redLockOptions r)) ctx (locks r) obs 0 w with
  | None => None
  | Some (successCnt, locks', deferred, w1) =>
      let r' := mkRedLock (redLockOptions r) locks' in
      if successCnt <? Z.of_nat (length (locks r')) / 2 + 1
      then
        match RedLock_Unlock r' ctx w1 with
        | (Panicked, w2) => Some (Panicked, r', foldl (λ w id, cancel id w) w2 deferred)
        | (Returned _, w2) =>
            Some (Returned (Some (ErrorsNew "lock failed, 未取得多数席位")), r',
                  foldl (λ w id, cancel id w) w2 deferred)
        end
      else Some (Returned None, r', foldl (λ w id, cancel id w) w1 deferred)
  end.

(* ===================================================================== *)
(** ** Statements and inputs used below *)
(* ===================================================================== *)

(** The options [NewRedLock] works with: the given ones, repaired. *)
Definition redLockOptionsOf (opts : list RedLockOption) : RedLockOptions :=
  repairRedLock (foldl applyRedLockOption zeroRedLockOptions opts).

(** The construction claim as the specification words it: an error
    whenever there are fewer than three nodes or the tenfold cumulated
    node timeout exceeds the lease duration. *)
Definition NewRedLock_rejects_every_violation : Prop :=
  ∀ (g : caller) (key : string) (confs : list SingleNodeConf) (opts : list RedLockOption),
    let o := redLockOptionsOf opts in
    (Z.of_nat (length confs) < 3
     ∨ expireDuration o < Z.of_nat (length confs) * singleNodesTimeout o * 10) →
    ∃ e, NewRedLock g key confs opts = inr e.

Definition three_nodes : list SingleNodeConf :=
  [mkSingleNodeConf "tcp" "10.0.0.1:6379" "";
   mkSingleNodeConf "tcp" "10.0.0.2:6379" "";
   mkSingleNodeConf "tcp" "10.0.0.3:6379" ""].

(** A single node, an empty store, and two locks on one key as
    redis_test.go builds them: one with an explicit lifetime, one
    without. *)
Definition node1 : LockClient Redis := NewClient "tcp" "10.0.0.1:6379" "".

Definition world0 : World Redis := mkWorld 0 [] 0 [] (mkRedis ∅ []).

Definition explicit_ttl_lock : RedisLock Redis :=
  NewRedisLock (mkCaller 1 1) "test_key" node1 [WithExpireSeconds 1].

Definition watchdog_lock : RedisLock Redis :=
  NewRedisLock (mkCaller 1 2) "test_key" node1 [].

(** The world after [explicit_ttl_lock] took the key. *)
Definition world_held : World Redis :=
  snd (tryLock explicit_ttl_lock Background world0).

(** The options of Test_redLock. *)
Definition test_redLock_options : list RedLockOption :=
  [WithRedLockExpireDuration (10 * Second); WithSingleNodesTimeout (100 * Millisecond)].

(** Three nodes on which another client holds the key for a minute. *)
Definition foreign_db : gmap string entry :=
  {[ RedisLockKeyPrefix +:+ "test_key" := mkEntry "7_7" (60 * Second) ]}.

Definition world_contended : World Redis :=
  mkWorld 0 [] 0 []
    (mkRedis (<["10.0.0.1:6379" := foreign_db]>
                (<["10.0.0.2:6379" := foreign_db]>
                   (<["10.0.0.3:6379" := foreign_db]> ∅))) []).

(** The result a call reports, without the state it leaves. *)
Definition reported {A B C : Type} (x : option (A * B * C)) : option A :=
  match x with
  | Some (a, _, _) => Some a
  | None => None
  end.

(** Whether a node still has a live record at a key. *)
Definition node_has (w : World Redis) (addr k : string) : bool :=
  match live (now w) (node_db (client_state w) addr) k with
  | Some _ => true
  | None => false
  end.

(** The release as the specification words it: [Unlock] is called on
    every member whatever the others did, and the last error met is
    reported. *)
Fixpoint unlock_every_member (ls : list (RedisLock Redis)) (ctx : context)
    (w : World Redis) : list (outcome (option error)) * World Redis :=
  match ls with
  | [] => ([], w)
  | lock :: rest =>
      let '(o, w1) := Unlock lock ctx w in
      let '(os, w2) := unlock_every_member rest ctx w1 in
      (o :: os, w2)
  end.

Definition later_error (acc : option error) (o : outcome (option error)) : option error :=
  match o with
  | Returned (Some e) => Some e
  | _ => acc
  end.

(** The acquisition as the specification words it: what each member's
    [Lock] reported and how long it took, and the test that counts a
    member. *)
Fixpoint member_attempts (timeout : Z) (ctx : context) (ls : list (RedisLock Redis))
    (obs : list (list (tick Redis))) (w : World Redis) : option (list (option error * Z)) :=
  match ls with
  | [] => Some []
  | lock :: rest =>
      let '(id, w1) := fresh_id w in
      match Lock lock (WithTimeout id (now w1 + timeout) ctx) (hd [] obs) w1 with
      | None => None
      | Some (err, _, w2) =>
          match member_attempts timeout ctx rest (tl obs) w2 with
          | None => None
          | Some l => Some ((err, now w2 - now w) :: l)
          end
      end
  end.

Definition counted (timeout : Z) (a : option error * Z) : bool :=
  is_nil (fst a) && (snd a <=? timeout).

Definition quorum (n : nat) : Z := Z.of_nat n / 2 + 1.

Definition test_key_at : string := RedisLockKeyPrefix +:+ "test_key".

(** The cancel identities on the chain of a context, and whether the
    chain is free of deadlines. *)
Fixpoint ctx_ids (ctx : context) : list nat :=
  match ctx with
  | Background => []
  | WithCancel id parent => id :: ctx_ids parent
  | WithTimeout id _ parent => id :: ctx_ids parent
  end.

Fixpoint no_deadline (ctx : context) : bool :=
  match ctx with
  | Background => true
  | WithCancel _ parent => no_deadline parent
  | WithTimeout _ _ parent => false
  end.

(** The cancel function [id] has been called. *)
Definition cancel_called {S : Type} (w : World S) (id : nat) : bool :=
  match cancel_time (cancelled w) id with
  | Some t => t <=? now w
  | None => false
  end.

(** No cancel call lies in the future. *)
Definition cancels_in_past {S : Type} (w : World S) : Prop :=
  ∀ id t, cancel_time (cancelled w) id = Some t → t ≤ now w.

(** The watchdog claim as the specification words it: a watchdog that
    has stopped was stopped by [Unlock], that is, by a call of the
    [stopDog] of its lock. *)
Definition watchdog_stops_only_by_Unlock : Prop :=
  ∀ (r : RedisLock Redis) (ctx : context) (ticks dog_ticks : list (tick Redis))
    (w : World Redis) r' w' (id : nat),
    Lock r ctx ticks w = Some (None, r', w') →
    stopDog r' = Some id →
    fst (runWatchDog r' (WithCancel id ctx) dog_ticks w') = true →
    cancel_called (snd (runWatchDog r' (WithCancel id ctx) dog_ticks w')) id = true.

(** A caller's context that can be cancelled, and a world whose fresh
    identities lie beyond it. *)
Definition caller_ctx : context := WithCancel 7 Background.

Definition world1 : World Redis := mkWorld 0 [] 8 [] (mkRedis ∅ []).

(** A tick before which the caller cancels [caller_ctx]. *)
Definition caller_cancels : tick Redis := mkTick 0 [7%nat] id false.

(** A tick before which nothing happens. *)
Definition quiet_tick : tick Redis := mkTick 0 [] id false.

(** A cause has come by the time [t]. *)
Definition fired_at (t : Z) (c : option (Z * sentinel)) : bool :=
  match c with
  | Some (t', _) => t' <=? t
  | None => false
  end.

(** The wait budget of [blockingLock] as a duration. *)
Definition waitBudget {S : Type} (r : RedisLock S) : Z :=
  wrap64 (blockWaitingSeconds (lockOptions r) * Second).

(** The ways the poll loop of [blockingLock], started at [start] with the
    budget [timeout], ends: with what error and in which world. *)
Inductive poll_end {S : Type} (r : RedisLock S) (ctx : context) (start timeout : Z)
  : option error → World S → Prop :=
| poll_acquired (w1 w2 : World S) :
    tryLock r ctx w1 = (None, w2) →
    poll_end r ctx start timeout None w2
| poll_cancelled (e : error) (w1 : World S) :
    ctx_Err w1 ctx = Some e →
    poll_end r ctx start timeout
      (Some (Errorf "lock failed, ctx timeout, err: %w" e)) w1
| poll_timed_out (w1 : World S) :
    start + timeout ≤ now w1 →
    poll_end r ctx start timeout
      (Some (Errorf "block waiting time out, err: %w" ErrLockAcquiredByOthers)) w1
| poll_aborted (e : error) (w1 w2 : World S) :
    tryLock r ctx w1 = (Some e, w2) →
    IsRetryableErr e = false →
    poll_end r ctx start timeout (Some e) w2.

(** A lock in blocking mode as in the README, with a budget of two
    seconds. *)
Definition blocking_lock : RedisLock Redis :=
  NewRedisLock (mkCaller 1 3) "test_key" node1 [WithBlock; WithBlockWaitingSeconds 2].

(** *** Instances contending on one node *)

Section Contenders.
Context {I : Type}.
Variables (net_name node pass : string).
Variables (lock_key lock_token : I → string).

(** The lock struct of instance [i], with any options and any state of
    its watchdog fields. *)
Definition contender (i : I) (o : LockOptions) (rd : Z) (sd : option nat) : RedisLock Redis :=
  mkRedisLock o (lock_key i) (lock_token i) (NewClient net_name node pass) rd sd.

(** The unexpired record at the prefixed key of instance [i]. *)
Definition record_at (w : World Redis) (i : I) : option entry :=
  live (now w) (node_db (client_state w) node) (RedisLockKeyPrefix +:+ lock_key i).

(** Instance [i] holds its key: the unexpired record there carries its
    token. *)
Definition holds (w : World Redis) (i : I) : Prop :=
  entry_value <$> record_at w i = Some (lock_token i).

(** What an instance does to the store. *)
Inductive store_op : Type :=
| TryLock_by (j : I)
| DelayExpire_by (j : I) (secs : Z)
| Unlock_by (j : I).

Definition actor (a : store_op) : I :=
  match a with
  | TryLock_by j => j
  | DelayExpire_by j _ => j
  | Unlock_by j => j
  end.

Definition perform (a : store_op) (o : LockOptions) (rd : Z) (sd : option nat)
    (ctx : context) (w : World Redis) : World Redis :=
  match a with
  | TryLock_by j => snd (tryLock (contender j o rd sd) ctx w)
  | DelayExpire_by j secs => snd (DelayExpire (contender j o rd sd) ctx secs w)
  | Unlock_by j => snd (Unlock (contender j o rd sd) ctx w)
  end.
(** A run: instances act on the store, and time passes in between. *)
Inductive step : Type :=
| Acts (a : store_op) (o : LockOptions) (rd : Z) (sd : option nat) (ctx : context)
| Waits (d : N).

Definition step_world (s : step) (w : World Redis) : World Redis :=
  match s with
  | Acts a o rd sd ctx => perform a o rd sd ctx w
  | Waits d => elapse d w
  end.

Definition run (steps : list step) (w : World Redis) : World Redis :=
  foldl (λ w s, step_world s w) w steps.

Definition by_others (i : I) (s : step) : Prop :=
  match s with
  | Acts a _ _ _ _ => actor a ≠ i
  | Waits _ => True
  end.
End Contenders.

(** Two instances on one key, each with its own token. *)
Definition two_keys (b : bool) : string := "test_key".
Definition two_tokens (b : bool) : string := if b then "1_1" else "1_2".

(** The contended world with fresh identities beyond [caller_ctx]. *)
Definition world_contended1 : World Redis :=
  mkWorld 0 [] 8 [] (client_state world_contended).

(** The contended world in which the second round trip fails to connect. *)
Definition world_flaky : World Redis :=
  mkWorld 0 [] 0 []
    (mkRedis (nodes (client_state world_contended))
       [mkNetEvent 0 NetOk;
        mkNetEvent 0 (ConnFailed (StoreOther "dial tcp: connection refused"))]).

(** A tick before which the foreign holder releases the key on the first
    node. *)
Definition holder_releases : tick Redis :=
  mkTick 0 []
    (λ st, snd (Eval node1 Background LuaCheckAndDeleteDistributionLock 1
                  [ArgString test_key_at; ArgString "7_7"] 0 st))
    false.

(** Three nodes of which only the first is taken by another client. *)
Definition world_one_contended : World Redis :=
  mkWorld 0 [] 0 [] (mkRedis (<["10.0.0.1:6379" := foreign_db]> ∅) []).

(* ===================================================================== *)
(** ** Further code of the package *)
(* ===================================================================== *)

(** *** option.go: the options of the connection pool *)

Definition DefaultIdleTimeoutSeconds : Z := 10.
Definition DefaultMaxActive : Z := 100.
Definition DefaultMaxIdle : Z := 20.

Record ClientOptions : Type := mkClientOptions {
  maxIdle : Z;
  idleTimeoutSeconds : Z;
  maxActive : Z;
  wait : bool;
  opt_network : string;
  opt_address : string;
  opt_password : string
}.

Inductive ClientOption : Type :=
| WithMaxIdle (maxIdle : Z)
| WithIdleTimeoutSeconds (idleTimeoutSeconds : Z)
| WithMaxActive (maxActive : Z)
| WithWaitMode.

Definition applyClientOption (c : ClientOptions) (opt : ClientOption) : ClientOptions :=
  match opt with
  | WithMaxIdle n =>
      mkClientOptions n (idleTimeoutSeconds c) (maxActive c) (wait c)
                      (opt_network c) (opt_address c) (opt_password c)
  | WithIdleTimeoutSeconds n =>
      mkClientOptions (maxIdle c) n (maxActive c) (wait c)
                      (opt_network c) (opt_address c) (opt_password c)
  | WithMaxActive n =>
      mkClientOptions (maxIdle c) (idleTimeoutSeconds c) n (wait c)
                      (opt_network c) (opt_address c) (opt_password c)
  | WithWaitMode =>
      mkClientOptions (maxIdle c) (idleTimeoutSeconds c) (maxActive c) true
                      (opt_network c) (opt_address c) (opt_password c)
  end.

Definition repairClient (c : ClientOptions) : ClientOptions :=
  let c1 :=
    if maxIdle c <? 0
    then mkClientOptions DefaultMaxIdle (idleTimeoutSeconds c) (maxActive c) (wait c)
                         (opt_network c) (opt_address c) (opt_password c)
    else c in
  let c2 :=
    if idleTimeoutSeconds c1 <? 0
    then mkClientOptions (maxIdle c1) DefaultIdleTimeoutSeconds (maxActive c1) (wait c1)
                         (opt_network c1) (opt_address c1) (opt_password c1)
    else c1 in
  if maxActive c2 <? 0
  then mkClientOptions (maxIdle c2) (idleTimeoutSeconds c2) DefaultMaxActive (wait c2)
                       (opt_network c2) (opt_address c2) (opt_password c2)
  else c2.

(** The numbers [getRedisPool] puts into the [redis.Pool]. *)
Record Pool : Type := mkPool {
  MaxIdle : Z;
  IdleTimeout : Z;
  MaxActive : Z;
  Wait : bool
}.

Definition getRedisPool (c : ClientOptions) : Pool :=
  mkPool (maxIdle c) (wrap64 (idleTimeoutSeconds c * Second)) (maxActive c) (wait c).

(** The pool [NewClient] builds from its options. *)
Definition NewClient_pool (network address password : string)
    (opts : list ClientOption) : Pool :=
  getRedisPool
    (repairClient
       (foldl applyClientOption
              (mkClientOptions 0 0 0 false network address password) opts)).

(** Which field a lock option sets. *)
Definition sets_expire (opt : LockOption) : bool :=
  match opt with WithExpireSeconds _ => true | _ => false end.

Definition sets_waiting (opt : LockOption) : bool :=
  match opt with WithBlockWaitingSeconds _ => true | _ => false end.

(** The coming round trip of the client goes well. *)
Definition net_ok (w : World Redis) : Prop :=
  fault (fst (next_event (client_state w))) = NetOk.

(** The records of the node at [addr]. *)
Definition db_of (w : World Redis) (addr : string) : gmap string entry :=
  node_db (client_state w) addr.

Definition ownership_error_expire : error :=
  ErrorsNew "can not expire lock without ownership of lock".

Definition ownership_error_unlock : error :=
  ErrorsNew "can not unlock without ownership of lock".

(** The lock struct [watchdog_lock] after a first successful [Lock] in
    [world0], and the world that [Lock] leaves. *)
Definition started_lock : RedisLock Redis :=
  mkRedisLock (lockOptions watchdog_lock) (key watchdog_lock) (token watchdog_lock)
              node1 1 (Some 0%nat).

Definition world_watched : World Redis :=
  match Lock watchdog_lock Background [] world0 with
  | Some (_, _, w) => w
  | None => world0
  end.

(** A later state of the process: the clock has not gone back, the
    cancel calls made are still recorded with their time, and no cancel
    call lies in the future if none did. *)
Definition later {S : Type} (w w' : World S) : Prop :=
  now w ≤ now w'
  ∧ (∀ id t, cancel_time (cancelled w) id = Some t → cancel_time (cancelled w') id = Some t)
  ∧ (cancels_in_past w → cancels_in_past w').

(** The lock struct after its watchdog goroutine has returned. *)
Definition flag_reset {S : Type} (r : RedisLock S) : RedisLock S :=
  mkRedisLock (lockOptions r) (key r) (token r) (client r) 0 (stopDog r).

(** The two errors of the acquisition that wrap the contention sentinel. *)
Definition wait_timeout_error : error :=
  Errorf "block waiting time out, err: %w" ErrLockAcquiredByOthers.

(** A string without underscore. *)
Fixpoint no_underscore (s : string) : bool :=
  match s with
  | EmptyString => true
  | String c s' => negb (Ascii.eqb c "_"%char) && no_underscore s'
  end.

(** Every coming round trip goes well and takes less than [d]. *)
Definition net_within (d : Z) (st : Redis) : Prop :=
  Forall (λ ev, fault ev = NetOk ∧ Z.of_N (latency ev) < d) (net st).

(** A tick that comes less than [d] late, before which the environment
    keeps the network as good and leaves the record at the key [k] of the
    node [addr] alone. *)
Definition calm_tick (d : Z) (addr k : string) (tk : tick Redis) : Prop :=
  Z.of_N (tick_delay tk) < d
  ∧ ∀ st, net_within d st →
          net_within d (tick_env tk st)
          ∧ node_db (tick_env tk st) addr !! k = node_db st addr !! k.

(** The node of [conf] holds a record for the lock key [k] that lives at
    least until the time [E]. *)
Definition taken_through (w : World Redis) (E : Z) (k : string)
    (conf : SingleNodeConf) : bool :=
  match db_of w (Address conf) !! (RedisLockKeyPrefix +:+ k) with
  | Some e => E <=? entry_expire_at e
  | None => false
  end.

(** The member [NewRedLock] builds for a node. *)
Definition member_of (g : caller) (k : string) (s : Z) (conf : SingleNodeConf)
  : RedisLock Redis :=
  NewRedisLock g k (NewClient (Network conf) (Address conf) (Password conf))
               [WithExpireSeconds s].

(** The first node with the key held by another client for 100 ms more. *)
Definition world_short_lease : World Redis :=
  mkWorld 0 [] 0 []
    (mkRedis {[ "10.0.0.1:6379" := {[ test_key_at := mkEntry "7_7" (100 * Millisecond) ]} ]}
             []).

(** The node of [conf] holds no live record for the lock key [k]. *)
Definition free_at (w : World Redis) (k : string) (conf : SingleNodeConf) : bool :=
  match live (now w) (db_of w (Address conf)) (RedisLockKeyPrefix +:+ k) with
  | Some _ => false
  | None => true
  end.

(** A member of the quorum lock for the node of [conf] whose watchdog
    has been started. *)
Definition member_started (g : caller) (k : string) (conf : SingleNodeConf)
    (l : RedisLock Redis) : Prop :=
  client l = NewClient (Network conf) (Address conf) (Password conf)
  ∧ key l = k
  ∧ token l = GetProcessAndGoroutineIDStr g
  ∧ is_Some (stopDog l).

(** The quorum lock of Test_redLock over [three_nodes]. *)
Definition test_redLock : RedLock :=
  mkRedLock (redLockOptionsOf test_redLock_options)
    (map (member_of (mkCaller 1 1) "test_key"
            (Duration_Seconds (expireDuration (redLockOptionsOf test_redLock_options))))
         three_nodes).

(** Two pool options set the same field. *)
Definition same_field (o1 o2 : ClientOption) : bool :=
  match o1, o2 with
  | WithMaxIdle _, WithMaxIdle _ => true
  | WithIdleTimeoutSeconds _, WithIdleTimeoutSeconds _ => true
  | WithMaxActive _, WithMaxActive _ => true
  | WithWaitMode, WithWaitMode => true
  | _, _ => false
  end.

Fixpoint all_chars (P : ascii → bool) (s : string) : bool :=
  match s with
  | EmptyString => true
  | String c s' => P c && all_chars P s'
  end.

Definition is_digit (c : ascii) : bool :=
  ((48 <=? N_of_ascii c) && (N_of_ascii c <=? 57))%N.

(** The quorum lock over [three_nodes] built without options. *)
Definition plain_redLock : RedLock :=
  mkRedLock (redLockOptionsOf [])
    (map (member_of (mkCaller 1 1) "test_key"
            (Duration_Seconds (expireDuration (redLockOptionsOf []))))
         three_nodes).
(* ===================================================================== *)
(** * Properties *)
(* ===================================================================== *)

(** ** Errors *)

Lemma store_error_not_contention (e : store_error) :
  errors_Is (as_error e) LockAcquiredByOthers = false.
Proof. induction e; simpl; auto. Qed.

Lemma IsRetryableErr_wrap (msg : string) :
  IsRetryableErr (Errorf msg ErrLockAcquiredByOthers) = true.
Proof. reflexivity. Qed.

(** Two locks built by one goroutine carry the same token. *)
Lemma NewRedisLock_token_per_goroutine {S : Type} (g : caller) (k1 k2 : string)
    (c1 c2 : LockClient S) (o1 o2 : list LockOption) :
  token (NewRedisLock g k1 c1 o1) = token (NewRedisLock g k2 c2 o2).
Proof. reflexivity. Qed.

(** ** What [tryLock] makes of the outcome of [SetNX] *)

Section TryLock.
Context {S : Type}.
Implicit Types (r : RedisLock S) (w : World S) (ctx : context).

Lemma tryLock_unfold r ctx w n err lat s' :
  SetNX (client r) ctx (getLockKey r) (token r) (expireSeconds (lockOptions r))
        (now w) (client_state w) = ((n, err), lat, s') →
  tryLock r ctx w =
    (match err with
     | Some e =>
         if errors_Is e RedisNil
         then Some (Errorf "redis.ErrNil 代表执行 redis SETNX 失败，未获取到锁，可重试: reply: %d, err: %w"
                           ErrLockAcquiredByOthers)
         else Some e
     | None => None
     end, elapse lat (set_client_state s' w)).
Proof.
  intros H. unfold tryLock, call_SetNX. rewrite H.
  destruct err as [e|]; [destruct (errors_Is e RedisNil)|]; reflexivity.
Qed.

End TryLock.

(** C6. [tryLock] turns the store's nil outcome of the conditional set
    (an error that is [redis.ErrNil]) into an error wrapping
    [ErrLockAcquiredByOthers], on which [IsRetryableErr] is true; any other
    store or transport error comes back unchanged, and [IsRetryableErr] is
    false on it. *)
Theorem tryLock_translates_store_errors {S : Type} (r : RedisLock S)
    (ctx : context) (w : World S) (se : store_error) (n : Z) (lat : N) (s' : S) :
  SetNX (client r) ctx (getLockKey r) (token r) (expireSeconds (lockOptions r))
        (now w) (client_state w) = ((n, Some (as_error se)), lat, s') →
  if errors_Is (as_error se) RedisNil
  then ∃ msg, fst (tryLock r ctx w) = Some (Errorf msg ErrLockAcquiredByOthers)
              ∧ IsRetryableErr (Errorf msg ErrLockAcquiredByOthers) = true
  else fst (tryLock r ctx w) = Some (as_error se)
       ∧ IsRetryableErr (as_error se) = false.
Proof.
  intros H. rewrite (tryLock_unfold _ _ _ _ _ _ _ H). simpl.
  destruct (errors_Is (as_error se) RedisNil).
  - eexists. split; reflexivity.
  - split; [reflexivity | apply store_error_not_contention].
Qed.

Lemma tryLock_translates_store_errors_witness :
  ∃ msg, fst (tryLock watchdog_lock Background world_held)
         = Some (Errorf msg ErrLockAcquiredByOthers)
         ∧ IsRetryableErr (Errorf msg ErrLockAcquiredByOthers) = true.
Proof.
  eapply (tryLock_translates_store_errors watchdog_lock Background world_held StoreNil).
  vm_compute. reflexivity.
Defined.

(** ** Construction of the quorum lock *)

Lemma wrap64_small (z : Z) : - 2 ^ 63 ≤ z < 2 ^ 63 → wrap64 z = z.
Proof. intros H. unfold wrap64. rewrite Z.mod_small; lia. Qed.

Lemma repairRedLock_timeout_pos (o : RedLockOptions) :
  0 < singleNodesTimeout (repairRedLock o).
Proof.
  unfold repairRedLock. destruct (Z.leb_spec (singleNodesTimeout o) 0); simpl; [done | lia].
Qed.

Lemma timing_product_exact (n t : Z) :
  0 ≤ n → 0 < t → n * t * 10 < 2 ^ 63 → wrap64 (wrap64 (n * t) * 10) = n * t * 10.
Proof.
  intros Hn Ht Hb.
  assert (0 ≤ n * t) by nia.
  rewrite (wrap64_small (n * t)) by lia.
  apply wrap64_small. lia.
Qed.

Lemma NewRedLock_accepted (g : caller) (key : string)
    (confs : list SingleNodeConf) (opts : list RedLockOption) :
  let o := redLockOptionsOf opts in
  (Z.of_nat (length confs) <? 3) = false →
  (0 <? expireDuration o)
  && (expireDuration o <?
        wrap64 (wrap64 (Z.of_nat (length confs) * singleNodesTimeout o) * 10)) = false →
  NewRedLock g key confs opts =
    inl (mkRedLock o
           (map (λ conf,
                   NewRedisLock g key
                     (NewClient (Network conf) (Address conf) (Password conf))
                     [WithExpireSeconds (Duration_Seconds (expireDuration o))])
                confs)).
Proof.
  intros o H1 H2. unfold NewRedLock. fold (redLockOptionsOf opts). fold o.
  rewrite H1, H2. reflexivity.
Qed.

(** C4 fails where no lease duration is given: three nodes with a node
    timeout of 50 ms break the timing bound against the zero duration,
    and the lock is built all the same. *)
Lemma NewRedLock_accepts_unset_lease : ¬ NewRedLock_rejects_every_violation.
Proof.
  intros Hclaim.
  destruct (Hclaim (mkCaller 1 1) "test_key" three_nodes
              [WithSingleNodesTimeout (50 * Millisecond)]) as [e He].
  - right. vm_compute. reflexivity.
  - rewrite NewRedLock_accepted in He by (vm_compute; reflexivity). discriminate He.
Qed.

(** C4, amended: fewer than three nodes is an error; a positive lease
    duration smaller than N x timeout x 10 (the timeout after its repair)
    is an error; every other configuration yields N member locks and no
    error.  The product is taken where it fits an int64. *)
Theorem NewRedLock_configuration (g : caller) (key : string)
    (confs : list SingleNodeConf) (opts : list RedLockOption) :
  let o := redLockOptionsOf opts in
  let n := Z.of_nat (length confs) in
  n * singleNodesTimeout o * 10 < 2 ^ 63 →
  if (n <? 3) || ((0 <? expireDuration o) && (expireDuration o <? n * singleNodesTimeout o * 10))
  then ∃ e, NewRedLock g key confs opts = inr e
  else ∃ rl, NewRedLock g key confs opts = inl rl
             ∧ length (locks rl) = length confs
             ∧ redLockOptions rl = o.
Proof.
  intros o n Hfit. unfold NewRedLock. fold (redLockOptionsOf opts). fold o. fold n.
  destruct (n <? 3) eqn:Hn; simpl; [eauto|].
  rewrite timing_product_exact; [| lia | apply repairRedLock_timeout_pos | exact Hfit].
  destruct ((0 <? expireDuration o) && (expireDuration o <? n * singleNodesTimeout o * 10));
    [eauto|].
  eexists. split; [reflexivity|]. simpl. by rewrite length_map.
Qed.

Lemma NewRedLock_configuration_witness :
  ∃ rl, NewRedLock (mkCaller 1 1) "test_key" three_nodes
          [WithRedLockExpireDuration (10 * Second);
           WithSingleNodesTimeout (100 * Millisecond)] = inl rl
        ∧ length (locks rl) = length three_nodes
        ∧ redLockOptions rl =
            redLockOptionsOf [WithRedLockExpireDuration (10 * Second);
                              WithSingleNodesTimeout (100 * Millisecond)].
Proof.
  apply (NewRedLock_configuration (mkCaller 1 1) "test_key" three_nodes
           [WithRedLockExpireDuration (10 * Second);
            WithSingleNodesTimeout (100 * Millisecond)]).
  vm_compute. reflexivity.
Defined.

(** ** The cancellation handle [stopDog] *)

Lemma foldl_applyLockOption_watchDogMode (opts : list LockOption) (lo : LockOptions) :
  watchDogMode (foldl applyLockOption lo opts) = watchDogMode lo.
Proof.
  revert lo. induction opts as [|o opts IH]; intros lo; simpl; [done|].
  rewrite IH. by destruct o.
Qed.

Lemma repairLock_watchDogMode (lo : LockOptions) :
  watchDogMode lo = false →
  watchDogMode (repairLock lo) = negb (0 <? expireSeconds lo).
Proof.
  intros H. unfold repairLock.
  destruct (isBlock lo && (blockWaitingSeconds lo <=? 0)); simpl;
    destruct (0 <? expireSeconds lo); simpl; auto.
Qed.

Section StopDog.
Context {S : Type}.
Implicit Types (r : RedisLock S) (w : World S) (ctx : context).

Lemma NewRedisLock_watchDogMode (g : caller) (k : string) (cl : LockClient S)
    (opts : list LockOption) :
  watchDogMode (lockOptions (NewRedisLock g k cl opts))
  = negb (0 <? expireSeconds (foldl applyLockOption zeroLockOptions opts)).
Proof.
  unfold NewRedisLock. simpl. apply repairLock_watchDogMode.
  by rewrite foldl_applyLockOption_watchDogMode.
Qed.

Lemma Lock_deferred_result r ctx err w err' r' w' :
  Lock_deferred r ctx err w = Some (err', r', w') → err' = err.
Proof.
  unfold Lock_deferred. destruct err; [congruence|].
  destruct (watchDog r ctx w) as [[? ?]|]; congruence.
Qed.

Lemma Lock_deferred_keeps r ctx err w err' r' w' :
  Lock_deferred r ctx err w = Some (err', r', w') →
  watchDogMode (lockOptions r) = false ∨ err ≠ None →
  r' = r ∧ w' = w.
Proof.
  unfold Lock_deferred, watchDog. intros H Hc.
  destruct err as [e|]; [by inversion H|].
  destruct Hc as [Hm|Hn]; [|done].
  rewrite Hm in H. simpl in H. by inversion H.
Qed.

(** [Lock] leaves the lock struct as it was unless it starts the watchdog. *)
Lemma Lock_keeps_lock r ctx (ticks : list (tick S)) w err r' w' :
  Lock r ctx ticks w = Some (err, r', w') →
  watchDogMode (lockOptions r) = false ∨ err ≠ None →
  r' = r.
Proof.
  unfold Lock. intros H Hc.
  destruct (tryLock r ctx w) as [[e|] w1].
  - destruct (negb (isBlock (lockOptions r))).
    { pose proof (Lock_deferred_result _ _ _ _ _ _ _ H) as ->.
      by destruct (Lock_deferred_keeps _ _ _ _ _ _ _ H); [right|]. }
    destruct (negb (IsRetryableErr e)).
    { pose proof (Lock_deferred_result _ _ _ _ _ _ _ H) as ->.
      by destruct (Lock_deferred_keeps _ _ _ _ _ _ _ H); [right|]. }
    destruct (blockingLock r ctx ticks w1) as [[err' w2]|]; [|done].
    pose proof (Lock_deferred_result _ _ _ _ _ _ _ H) as ->.
    by destruct (Lock_deferred_keeps _ _ _ _ _ _ _ H).
  - pose proof (Lock_deferred_result _ _ _ _ _ _ _ H) as ->.
    by destruct (Lock_deferred_keeps _ _ _ _ _ _ _ H).
Qed.

Lemma Unlock_nil_stopDog r ctx w :
  stopDog r = None → fst (Unlock r ctx w) = Panicked.
Proof.
  intros H. unfold Unlock.
  destruct (call_Eval r ctx LuaCheckAndDeleteDistributionLock 1
              [ArgString (getLockKey r); ArgString (token r)] w) as [[rep err] w1].
  by rewrite H.
Qed.

(** With the handle set, [Unlock] returns, and returns nil exactly when
    the script call came back without error and with the integer 1. *)
Lemma Unlock_with_stopDog r ctx w (id : nat) :
  stopDog r = Some id →
  ∃ res, fst (Unlock r ctx w) = Returned res
         ∧ (res = None ↔
            fst (call_Eval r ctx LuaCheckAndDeleteDistributionLock 1
                   [ArgString (getLockKey r); ArgString (token r)] w)
            = (ReplyInt 1, None)).
Proof.
  intros H. unfold Unlock.
  destruct (call_Eval r ctx LuaCheckAndDeleteDistributionLock 1
              [ArgString (getLockKey r); ArgString (token r)] w) as [[rep err] w1].
  rewrite H. simpl. eexists. split; [reflexivity|].
  destruct err as [e|]; [split; intros; congruence|].
  destruct rep as [n| |s]; simpl; try (split; intros; congruence).
  destruct (Z.eqb_spec n 1) as [->|Hn]; simpl; split; intros; congruence.
Qed.
End StopDog.

Lemma RedLock_Unlock_loop_panics (ls : list (RedisLock Redis)) (ctx : context)
    (err : option error) (w : World Redis) :
  (∃ l, l ∈ ls ∧ stopDog l = None) →
  fst (RedLock_Unlock_loop ls ctx err w) = Panicked.
Proof.
  revert err w. induction ls as [|a ls IH]; intros err w [l [Hin Hl]].
  - by apply elem_of_nil in Hin.
  - simpl. destruct (stopDog a) as [id|] eqn:Ha.
    + destruct (Unlock_with_stopDog a ctx w id Ha) as [res [Hres _]].
      destruct (Unlock a ctx w) as [o w1]. simpl in Hres. subst o.
      apply IH. exists l. split; [|done].
      apply elem_of_cons in Hin as [->|Hin]; [congruence|done].
    + pose proof (Unlock_nil_stopDog a ctx w Ha) as Hp.
      destruct (Unlock a ctx w) as [o w1]. simpl in Hp. by subst o.
Qed.

Lemma RedLock_Lock_rollback_panics (r : RedLock) (ctx : context)
    (obs : list (list (tick Redis))) (w : World Redis) out r' w' :
  RedLock_Lock r ctx obs w = Some (out, r', w') →
  out ≠ Returned None →
  (∃ l, l ∈ locks r' ∧ stopDog l = None) →
  out = Panicked.
Proof.
  unfold RedLock_Lock. intros H Hout Hex.
  destruct (RedLock_Lock_loop _ ctx (locks r) obs 0 w) as [[[[cnt ls'] ids] w1]|]; [|done].
  destruct (cnt <? _); [|by inversion H; subst].
  pose proof (RedLock_Unlock_loop_panics ls' ctx None w1) as Hp.
  unfold RedLock_Unlock in H. simpl in H.
  destruct (RedLock_Unlock_loop ls' ctx None w1) as [o w2].
  inversion H; subst; clear H.
  - destruct o; inversion H1; subst; [|done].
    simpl in Hex, Hp. by specialize (Hp Hex).
Qed.

(** C5. A lock whose watchdog was never started has a nil [stopDog]: a
    new lock has, and [Lock] keeps it nil when watchdog mode is off (an
    explicit lifetime was given) or when it fails.  On such a lock [Unlock]
    panics in its deferred function instead of returning; so does
    [RedLock.Unlock], and the rollback of [RedLock.Lock], as soon as one
    member is such a lock. *)
Theorem Unlock_panics_without_watchdog :
  (∀ (S : Type) (g : caller) (k : string) (cl : LockClient S) (opts : list LockOption),
      stopDog (NewRedisLock g k cl opts) = None
      ∧ (0 < expireSeconds (foldl applyLockOption zeroLockOptions opts) →
         watchDogMode (lockOptions (NewRedisLock g k cl opts)) = false))
  ∧ (∀ (S : Type) (r : RedisLock S) ctx (ticks : list (tick S)) w err r' w',
        Lock r ctx ticks w = Some (err, r', w') →
        watchDogMode (lockOptions r) = false ∨ err ≠ None →
        stopDog r' = stopDog r)
  ∧ (∀ (S : Type) (r : RedisLock S) ctx w,
        stopDog r = None → fst (Unlock r ctx w) = Panicked)
  ∧ (∀ (rl : RedLock) ctx w,
        (∃ l, l ∈ locks rl ∧ stopDog l = None) →
        fst (RedLock_Unlock rl ctx w) = Panicked)
  ∧ (∀ (rl : RedLock) ctx obs w out rl' w',
        RedLock_Lock rl ctx obs w = Some (out, rl', w') →
        out ≠ Returned None →
        (∃ l, l ∈ locks rl' ∧ stopDog l = None) →
        out = Panicked).
Proof.
  split; [|split; [|split; [|split]]].
  - intros S g k cl opts. split; [reflexivity|]. intros Hpos.
    rewrite NewRedisLock_watchDogMode.
    apply Z.ltb_lt in Hpos. by rewrite Hpos.
  - intros S r ctx ticks w err r' w' H Hc.
    by rewrite (Lock_keeps_lock _ _ _ _ _ _ _ H Hc).
  - intros S r ctx w. apply Unlock_nil_stopDog.
  - intros rl ctx w. apply RedLock_Unlock_loop_panics.
  - intros rl ctx obs w out rl' w'. apply RedLock_Lock_rollback_panics.
Qed.

Lemma Unlock_panics_without_watchdog_witness :
  fst (Unlock explicit_ttl_lock Background world_held) = Panicked.
Proof.
  apply (proj1 (proj2 (proj2 Unlock_panics_without_watchdog))). reflexivity.
Defined.

(** ** [Unlock] on a lock with an explicit lifetime *)

(** C8 at the input of Test_blockingLock's first lock (an explicit
    lifetime of one second): [Lock] succeeds, the delete script answers 1,
    the record is gone afterwards, and [Unlock] panics instead of
    returning nil. *)
Example Unlock_explicit_ttl_panics :
  match Lock explicit_ttl_lock Background [] world0 with
  | Some (err, r, w) =>
      Some (err,
            fst (call_Eval r Background LuaCheckAndDeleteDistributionLock 1
                   [ArgString (getLockKey r); ArgString (token r)] w),
            fst (Unlock r Background w),
            node_has w "10.0.0.1:6379" test_key_at,
            node_has (snd (Unlock r Background w)) "10.0.0.1:6379" test_key_at)
  | None => None
  end = Some (None, (ReplyInt 1, None), Panicked, true, false).
Proof. vm_compute. reflexivity. Qed.

(** On a lock that runs a watchdog the handle is set: the first [Unlock]
    returns nil, the second the ownership error. *)
Example Unlock_twice_watchdog_lock :
  match Lock watchdog_lock Background [] world0 with
  | Some (err, r, w) =>
      Some (err, fst (Unlock r Background w),
            fst (Unlock r Background (snd (Unlock r Background w))))
  | None => None
  end
  = Some (None, Returned None,
          Returned (Some (ErrorsNew "can not unlock without ownership of lock"))).
Proof. vm_compute. reflexivity. Qed.

(** ** The quorum lock *)

Lemma RedLock_Unlock_loop_all_members (ls : list (RedisLock Redis)) (ctx : context)
    (err : option error) (w : World Redis) :
  (∀ l, l ∈ ls → stopDog l ≠ None) →
  RedLock_Unlock_loop ls ctx err w
  = (Returned (foldl later_error err (fst (unlock_every_member ls ctx w))),
     snd (unlock_every_member ls ctx w)).
Proof.
  revert err w. induction ls as [|a ls IH]; intros err w Hall; [reflexivity|].
  simpl. destruct (stopDog a) as [id|] eqn:Ha.
  - destruct (Unlock_with_stopDog a ctx w id Ha) as [res [Hres _]].
    destruct (Unlock a ctx w) as [o w1]. simpl in Hres. subst o.
    rewrite IH by (intros l Hl; apply Hall; by apply elem_of_cons; right).
    destruct (unlock_every_member ls ctx w1) as [os w2]. simpl.
    by destruct res.
  - exfalso. by apply (Hall a); [apply elem_of_cons; left|].
Qed.

Lemma RedLock_Lock_loop_counts (timeout : Z) (ctx : context)
    (ls : list (RedisLock Redis)) (obs : list (list (tick Redis))) (cnt0 : Z)
    (w : World Redis) cnt ls' ids w' :
  RedLock_Lock_loop timeout ctx ls obs cnt0 w = Some (cnt, ls', ids, w') →
  ∃ l, member_attempts timeout ctx ls obs w = Some l
       ∧ length l = length ls
       ∧ length ls' = length ls
       ∧ cnt = cnt0 + Z.of_nat (length (List.filter (counted timeout) l)).
Proof.
  revert obs cnt0 w cnt ls' ids w'.
  induction ls as [|a ls IH]; intros obs cnt0 w cnt ls' ids w' H; simpl in *.
  - inversion H; subst. exists []. repeat split; simpl; lia.
  - destruct (Lock a _ (hd [] obs) _) as [[[err a'] w2]|]; [|done].
    destruct (RedLock_Lock_loop timeout ctx ls (tl obs) _ w2)
      as [[[[c rest'] deferred] w3]|] eqn:Hloop; [|done].
    inversion H; subst; clear H.
    destruct (IH _ _ _ _ _ _ _ Hloop) as [l [Hl [Hlen [Hlen' Hc]]]].
    rewrite Hl. eexists. split; [reflexivity|].
    split; [simpl; lia|]. split; [simpl; lia|].
    simpl. unfold counted at 1. simpl.
    destruct (is_nil err && (now w2 - now w <=? timeout)); simpl; lia.
Qed.

(** What [RedLock.Lock] reports follows the count of members that
    returned nil within the node timeout: nil from the quorum on, and
    below it the quorum error, or a panic of the rollback. *)
Lemma RedLock_Lock_reports (r : RedLock) (ctx : context)
    (obs : list (list (tick Redis))) (w : World Redis) out r' w' :
  RedLock_Lock r ctx obs w = Some (out, r', w') →
  ∃ l, member_attempts (singleNodesTimeout (redLockOptions r)) ctx (locks r) obs w = Some l
       ∧ length l = length (locks r)
       ∧ let cnt := Z.of_nat (length (List.filter
                       (counted (singleNodesTimeout (redLockOptions r))) l)) in
         if cnt <? quorum (length (locks r))
         then out = Panicked
              ∨ (out = Returned (Some (ErrorsNew "lock failed, 未取得多数席位"))
                 ∧ ∀ m, m ∈ locks r' → stopDog m ≠ None)
         else out = Returned None.
Proof.
  unfold RedLock_Lock. intros H.
  destruct (RedLock_Lock_loop _ ctx (locks r) obs 0 w)
    as [[[[cnt ls'] ids] w1]|] eqn:Hloop; [|done].
  destruct (RedLock_Lock_loop_counts _ _ _ _ _ _ _ _ _ _ Hloop) as [l [Hl [Hlen [Hlen' Hc]]]].
  exists l. split; [done|]. split; [done|]. simpl in *.
  rewrite Z.add_0_l in Hc. rewrite <- Hc. unfold quorum. rewrite <- Hlen'.
  destruct (cnt <? Z.of_nat (length ls') / 2 + 1).
  - destruct (RedLock_Unlock _ ctx w1) as [o w2] eqn:Hu.
    destruct o as [res|]; inversion H; subst; [right | by left].
    split; [done|]. simpl. intros m Hm Hnil.
    pose proof (RedLock_Unlock_loop_panics ls' ctx None w1) as Hp.
    unfold RedLock_Unlock in Hu. simpl in Hu. rewrite Hu in Hp. simpl in Hp.
    discriminate Hp. by exists m.
  - by inversion H.
Qed.

(** *** Rounding through float64

    Bounds on the rational are kept by rounding whenever the bound is
    itself a float64. *)

Lemma round_half_even_lower (n d K : Z) :
  0 < d → K * d ≤ n → K ≤ round_half_even n d.
Proof.
  intros Hd HK. unfold round_half_even.
  assert (Hq : K ≤ n / d) by (apply Z.div_le_lower_bound; lia).
  repeat case_match; lia.
Qed.

Lemma round_half_even_upper (n d K : Z) :
  0 < d → n ≤ K * d → round_half_even n d ≤ K.
Proof.
  intros Hd HK. unfold round_half_even.
  pose proof (Z.div_mod n d ltac:(lia)) as Hdm.
  pose proof (Z.mod_pos_bound n d Hd) as Hr.
  assert (Hq : n / d ≤ K) by (apply Z.div_le_upper_bound; lia).
  destruct (Z.ltb_spec (2 * (n mod d)) d); [lia|].
  assert (n / d < K) by nia.
  repeat case_match; lia.
Qed.

Lemma binade_spec (n d : Z) :
  0 < n → 0 < d →
  (0 ≤ binade n d ∧ d * 2 ^ binade n d ≤ n < 2 * (d * 2 ^ binade n d))
  ∨ (binade n d < 0 ∧ d ≤ n * 2 ^ (- binade n d) < 2 * d).
Proof.
  intros Hn Hd. unfold binade. destruct (Z.leb_spec d n) as [Hle|Hlt].
  - left.
    assert (Hq : 0 < n / d) by (apply Z.div_str_pos; lia).
    pose proof (Z.log2_spec (n / d) Hq) as [Hlo Hhi].
    pose proof (Z.log2_nonneg (n / d)) as H0.
    rewrite Z.pow_succ_r in Hhi by done.
    pose proof (Z.div_mod n d ltac:(lia)) as Hdm.
    pose proof (Z.mod_pos_bound n d Hd) as Hr.
    split; [done|]. nia.
  - right.
    pose proof (Z.div_mod (d + n - 1) n ltac:(lia)) as Hdm.
    pose proof (Z.mod_pos_bound (d + n - 1) n Hn) as Hr.
    set (c := (d + n - 1) / n) in *.
    assert (Hc : 1 < c) by nia.
    pose proof (Z.log2_up_spec c Hc) as [Hlo Hhi].
    assert (Hk : 0 < Z.log2_up c) by (apply Z.log2_up_pos; lia).
    rewrite Z.opp_involutive.
    assert (Hp : 2 ^ Z.log2_up c = 2 * 2 ^ Z.pred (Z.log2_up c)).
    { rewrite <- Z.pow_succ_r by lia. f_equal. lia. }
    assert (H0 : 0 < 2 ^ Z.pred (Z.log2_up c)) by (apply Z.pow_pos_nonneg; lia).
    split; [lia|]. rewrite Hp in *. nia.
Qed.

(** The fraction of a rounded number: the sign is kept, the denominator is positive. *)
Lemma fraction_pos (x : float64) : 0 < snd (fraction x).
Proof.
  unfold fraction. destruct (0 <=? fexp x) eqn:E; simpl; [lia|].
  apply Z.pow_pos_nonneg; lia.
Qed.

Lemma float64_round_sign (n d : Z) :
  0 < d →
  (0 ≤ n → 0 ≤ fst (fraction (float64_round n d)))
  ∧ (n ≤ 0 → fst (fraction (float64_round n d)) ≤ 0).
Proof.
  intros Hd. unfold float64_round. destruct (Z.eqb_spec n 0) as [->|Hn]; [done|].
  set (e := binade (Z.abs n) d).
  set (m := if e <=? 52 then _ else _).
  assert (Hm : 0 ≤ m).
  { unfold m. destruct (e <=? 52) eqn:E.
    - apply round_half_even_lower; [done|].
      assert (0 < 2 ^ (52 - e)) by (apply Z.pow_pos_nonneg; lia). nia.
    - apply round_half_even_lower; [|lia].
      assert (0 < 2 ^ (e - 52)) by (apply Z.pow_pos_nonneg; lia). nia. }
  unfold fraction. cbn [fnum fexp].
  destruct (Z.leb_spec 0 (e - 52)); cbn [fst].
  - assert (0 < 2 ^ (e - 52)) by (apply Z.pow_pos_nonneg; lia). split; intros; nia.
  - split; intros; nia.
Qed.

(** A number that is at least 1 is rounded to one. *)
Lemma float64_round_ge_1 (n d : Z) :
  0 < d → d ≤ n →
  snd (fraction (float64_round n d)) ≤ fst (fraction (float64_round n d)).
Proof.
  intros Hd Hn. unfold float64_round. destruct (Z.eqb_spec n 0) as [->|_]; [lia|].
  rewrite Z.abs_eq, Z.sgn_pos by lia.
  destruct (binade_spec n d ltac:(lia) Hd) as [[He [Hlo Hhi]]|[He [Hlo Hhi]]].
  2:{ assert (1 < 2 ^ (- binade n d)) by (apply Z.pow_gt_1; lia). nia. }
  set (e := binade n d) in *.
  unfold fraction. cbn [fnum fexp].
  destruct (Z.leb_spec e 52) as [H52|H52].
  - assert (Hp : 0 < 2 ^ (52 - e)) by (apply Z.pow_pos_nonneg; lia).
    assert (Hm : 2 ^ (52 - e) ≤ round_half_even (n * 2 ^ (52 - e)) d)
      by (apply round_half_even_lower; [done|nia]).
    destruct (Z.leb_spec 0 (e - 52)); cbn [fst snd].
    + assert (E : 52 - e = 0) by lia. assert (E' : e - 52 = 0) by lia.
      rewrite E in *. rewrite E'. change (2 ^ 0) with 1 in *. lia.
    + replace (- (e - 52)) with (52 - e) by lia. lia.
  - assert (Hp : 0 < 2 ^ (e - 52)) by (apply Z.pow_pos_nonneg; lia).
    assert (Hsplit : 2 ^ e = 2 ^ (e - 52) * 2 ^ 52).
    { rewrite <- Z.pow_add_r by lia. f_equal; lia. }
    assert (Hm : 1 ≤ round_half_even n (d * 2 ^ (e - 52))).
    { apply round_half_even_lower; [nia|]. rewrite Hsplit in Hlo.
      assert (0 < 2 ^ 52) by done. nia. }
    destruct (Z.leb_spec 0 (e - 52)); [|lia]. cbn [fst snd]. nia.
Qed.

(** A number that is at most the integer [K], which a float64 holds, is
    rounded to one. *)
Lemma float64_round_le_int (n d K : Z) :
  0 < d → 0 ≤ n → 1 ≤ K < 2 ^ 53 → n ≤ K * d →
  fst (fraction (float64_round n d)) ≤ K * snd (fraction (float64_round n d)).
Proof.
  intros Hd Hn HK HnK. unfold float64_round. destruct (Z.eqb_spec n 0) as [->|Hn0];
    [simpl; lia|].
  rewrite Z.abs_eq, Z.sgn_pos by lia.
  destruct (binade_spec n d ltac:(lia) Hd) as [[He [Hlo Hhi]]|[He [Hlo Hhi]]];
    set (e := binade n d) in *.
  - assert (H53 : e < 53).
    { destruct (Z.lt_ge_cases e 53); [done|].
      assert (2 ^ 53 ≤ 2 ^ e) by (apply Z.pow_le_mono_r; lia). nia. }
    replace (e <=? 52) with true by (symmetry; apply Z.leb_le; lia).
    assert (Hp : 0 < 2 ^ (52 - e)) by (apply Z.pow_pos_nonneg; lia).
    assert (Hm : round_half_even (n * 2 ^ (52 - e)) d ≤ K * 2 ^ (52 - e))
      by (apply round_half_even_upper; [done|nia]).
    unfold fraction. cbn [fnum fexp].
    destruct (Z.leb_spec 0 (e - 52)); cbn [fst snd].
    + assert (E : 52 - e = 0) by lia. assert (E' : e - 52 = 0) by lia.
      rewrite E in *. rewrite E'. change (2 ^ 0) with 1 in *. lia.
    + replace (- (e - 52)) with (52 - e) by lia. lia.
  - replace (e <=? 52) with true by (symmetry; apply Z.leb_le; lia).
    assert (Hsplit : 2 ^ (52 - e) = 2 ^ 52 * 2 ^ (- e)).
    { rewrite <- Z.pow_add_r by lia. f_equal; lia. }
    assert (Hp : 0 < 2 ^ (- e)) by (apply Z.pow_pos_nonneg; lia).
    assert (Hm : round_half_even (n * 2 ^ (52 - e)) d ≤ 2 ^ 53).
    { apply round_half_even_upper; [done|]. rewrite Hsplit.
      change (2 ^ 53) with (2 * 2 ^ 52). assert (0 < 2 ^ 52) by done. nia. }
    unfold fraction. cbn [fnum fexp].
    destruct (Z.leb_spec 0 (e - 52)); [lia|]. cbn [fst snd].
    replace (- (e - 52)) with (52 - e) by lia. rewrite Hsplit.
    assert (2 ≤ 2 ^ (- e)).
    { change 2 with (2 ^ 1) at 1. apply Z.pow_le_mono_r; lia. }
    change (2 ^ 53) with (2 * 2 ^ 52) in Hm. rewrite Hsplit in Hm.
    set (P := 2 ^ 52) in *. set (Q := 2 ^ (- e)) in *.
    assert (0 < P) by done.
    assert (2 * P ≤ P * Q) by nia.
    assert (P * Q ≤ K * (P * Q)) by nia.
    lia.
Qed.

(** A number that is at most [1 - 2 ^ -53], the float64 next below 1, is
    rounded to one. *)
Lemma float64_round_lt_1 (n d : Z) :
  0 < d → 0 ≤ n → n * 2 ^ 53 ≤ (2 ^ 53 - 1) * d →
  fst (fraction (float64_round n d)) * 2 ^ 53
  ≤ (2 ^ 53 - 1) * snd (fraction (float64_round n d)).
Proof.
  intros Hd Hn HnB. unfold float64_round. destruct (Z.eqb_spec n 0) as [->|Hn0];
    [simpl; lia|].
  rewrite Z.abs_eq, Z.sgn_pos by lia.
  assert (H53 : 0 < 2 ^ 53) by done.
  destruct (binade_spec n d ltac:(lia) Hd) as [[He [Hlo Hhi]]|[He [Hlo Hhi]]];
    set (e := binade n d) in *.
  { assert (0 < 2 ^ e) by (apply Z.pow_pos_nonneg; lia). nia. }
  replace (e <=? 52) with true by (symmetry; apply Z.leb_le; lia).
  assert (Hsplit : 2 ^ (52 - e) = 2 ^ 52 * 2 ^ (- e)).
  { rewrite <- Z.pow_add_r by lia. f_equal; lia. }
  assert (Hp : 0 < 2 ^ (- e)) by (apply Z.pow_pos_nonneg; lia).
  unfold fraction. cbn [fnum fexp].
  destruct (Z.leb_spec 0 (e - 52)); [lia|]. cbn [fst snd].
  replace (- (e - 52)) with (52 - e) by lia.
  change (2 ^ 53) with (2 * 2 ^ 52) in *. assert (H52 : 0 < 2 ^ 52) by done.
  destruct (Z.eq_dec e (-1)) as [E1|E1].
  - rewrite E1 in *. change (- -1) with 1 in *. change (52 - -1) with 53 in *.
    change (2 ^ 53) with (2 * 2 ^ 52) in *.
    assert (Hm : round_half_even (n * (2 * 2 ^ 52)) d ≤ 2 * 2 ^ 52 - 1)
      by (apply round_half_even_upper; [done|lia]).
    nia.
  - assert (Hm : round_half_even (n * 2 ^ (52 - e)) d ≤ 2 * 2 ^ 52).
    { apply round_half_even_upper; [done|]. rewrite Hsplit. nia. }
    rewrite Hsplit in *.
    assert (4 ≤ 2 ^ (- e)).
    { change 4 with (2 ^ 2). apply Z.pow_le_mono_r; lia. }
    set (m := round_half_even _ d) in *.
    set (P := 2 ^ 52) in *. set (Q := 2 ^ (- e)) in *.
    assert (m * (2 * P) ≤ 2 * P * (2 * P)) by nia.
    assert (4 * P ≤ (2 * P - 1) * Q) by nia.
    assert (P * (4 * P) ≤ P * ((2 * P - 1) * Q)) by nia.
    lia.
Qed.

(** A lease of a second or more is a positive number of seconds. *)
Lemma Duration_Seconds_pos (d : Z) : Second ≤ d → 0 < Duration_Seconds d.
Proof.
  intros H. unfold Duration_Seconds. cbv zeta.
  assert (Hs : 1 ≤ d ÷ Second).
  { apply Z.quot_le_lower_bound; unfold Second in *; lia. }
  assert (Hr : 0 ≤ Z.rem d Second) by (apply Z.rem_nonneg; unfold Second in *; lia).
  set (sec := d ÷ Second) in *. set (nsec := Z.rem d Second) in *.
  clearbody sec nsec.
  unfold float64_add, float64_div, float64_of_int, int64_of_float64.
  pose proof (float64_round_ge_1 sec 1 ltac:(lia) ltac:(lia)) as H1.
  pose proof (fraction_pos (float64_round sec 1)) as Hd1.
  destruct (fraction (float64_round sec 1)) as [n1 d1]. cbn [fst snd] in *.
  pose proof (proj1 (float64_round_sign nsec 1 ltac:(lia)) Hr) as H2.
  pose proof (fraction_pos (float64_round nsec 1)) as Hd2.
  destruct (fraction (float64_round nsec 1)) as [n2 d2]. cbn [fst snd] in *.
  assert (Hg : fraction (float64_round 1000000000 1) = (8388608000000000, 8388608))
    by (vm_compute; reflexivity).
  rewrite Hg. change (Z.sgn 8388608000000000) with 1. change (Z.abs 8388608000000000) with 8388608000000000.
  pose proof (proj1 (float64_round_sign (1 * n2 * 8388608) (8388608000000000 * d2) ltac:(lia))
                ltac:(lia)) as H3.
  pose proof (fraction_pos (float64_round (1 * n2 * 8388608) (8388608000000000 * d2))) as Hd3.
  destruct (fraction (float64_round (1 * n2 * 8388608) (8388608000000000 * d2))) as [n3 d3].
  cbn [fst snd] in *.
  pose proof (float64_round_ge_1 (n1 * d3 + n3 * d1) (d1 * d3) ltac:(nia) ltac:(nia)) as H4.
  pose proof (fraction_pos (float64_round (n1 * d3 + n3 * d1) (d1 * d3))) as Hd4.
  destruct (fraction (float64_round (n1 * d3 + n3 * d1) (d1 * d3))) as [n4 d4].
  cbn [fst snd] in *.
  assert (1 ≤ n4 ÷ d4) by (apply Z.quot_le_lower_bound; lia). lia.
Qed.

(** A lease under a second is no positive number of seconds. *)
Lemma Duration_Seconds_nonpos (d : Z) : d < Second → Duration_Seconds d ≤ 0.
Proof.
  intros H. unfold Duration_Seconds. cbv zeta.
  unfold float64_add, float64_div, float64_of_int, int64_of_float64.
  assert (Hg : fraction (float64_round 1000000000 1) = (8388608000000000, 8388608))
    by (vm_compute; reflexivity).
  rewrite Hg. change (Z.sgn 8388608000000000) with 1. change (Z.abs 8388608000000000) with 8388608000000000.
  destruct (Z.le_gt_cases 0 d) as [H0|H0].
  - rewrite Z.quot_small, Z.rem_small by (unfold Second in *; lia).
    change (fraction (float64_round 0 1)) with (0, 1).
    pose proof (float64_round_le_int d 1 999999999 ltac:(lia) H0 ltac:(done)
                  ltac:(unfold Second in *; lia)) as H2.
    pose proof (proj1 (float64_round_sign d 1 ltac:(lia)) H0) as H2'.
    pose proof (fraction_pos (float64_round d 1)) as Hd2.
    destruct (fraction (float64_round d 1)) as [n2 d2]. cbn [fst snd] in *.
    assert (H53 : 2 ^ 53 = 9007199254740992) by reflexivity.
    pose proof (float64_round_lt_1 (1 * n2 * 8388608) (8388608000000000 * d2) ltac:(lia)
                  ltac:(lia) ltac:(rewrite H53; nia)) as H3.
    pose proof (proj1 (float64_round_sign (1 * n2 * 8388608) (8388608000000000 * d2)
                         ltac:(lia)) ltac:(lia)) as H3'.
    pose proof (fraction_pos (float64_round (1 * n2 * 8388608) (8388608000000000 * d2))) as Hd3.
    destruct (fraction (float64_round (1 * n2 * 8388608) (8388608000000000 * d2))) as [n3 d3].
    cbn [fst snd] in *.
    pose proof (float64_round_lt_1 (0 * d3 + n3 * 1) (1 * d3) ltac:(lia) ltac:(lia)
                  ltac:(rewrite H53 in *; lia)) as H4.
    pose proof (proj1 (float64_round_sign (0 * d3 + n3 * 1) (1 * d3) ltac:(lia))
                  ltac:(lia)) as H4'.
    pose proof (fraction_pos (float64_round (0 * d3 + n3 * 1) (1 * d3))) as Hd4.
    destruct (fraction (float64_round (0 * d3 + n3 * 1) (1 * d3))) as [n4 d4].
    cbn [fst snd] in *. rewrite H53 in *.
    rewrite Z.quot_small; lia.
  - assert (Hs : d ÷ Second ≤ 0).
    { rewrite <- (Z.opp_involutive d), Z.quot_opp_l by (unfold Second; lia).
      assert (0 ≤ - d ÷ Second) by (apply Z.quot_pos; unfold Second; lia). lia. }
    assert (Hr : Z.rem d Second ≤ 0) by (apply Z.rem_nonpos; unfold Second; lia).
    set (sec := d ÷ Second) in *. set (nsec := Z.rem d Second) in *.
    clearbody sec nsec.
    pose proof (proj2 (float64_round_sign sec 1 ltac:(lia)) Hs) as H1.
    pose proof (fraction_pos (float64_round sec 1)) as Hd1.
    destruct (fraction (float64_round sec 1)) as [n1 d1]. cbn [fst snd] in *.
    pose proof (proj2 (float64_round_sign nsec 1 ltac:(lia)) Hr) as H2.
    pose proof (fraction_pos (float64_round nsec 1)) as Hd2.
    destruct (fraction (float64_round nsec 1)) as [n2 d2]. cbn [fst snd] in *.
    pose proof (proj2 (float64_round_sign (1 * n2 * 8388608) (8388608000000000 * d2)
                         ltac:(lia)) ltac:(lia)) as H3.
    pose proof (fraction_pos (float64_round (1 * n2 * 8388608) (8388608000000000 * d2))) as Hd3.
    destruct (fraction (float64_round (1 * n2 * 8388608) (8388608000000000 * d2))) as [n3 d3].
    cbn [fst snd] in *.
    pose proof (proj2 (float64_round_sign (n1 * d3 + n3 * d1) (d1 * d3) ltac:(nia))
                  ltac:(nia)) as H4.
    pose proof (fraction_pos (float64_round (n1 * d3 + n3 * d1) (d1 * d3))) as Hd4.
    destruct (fraction (float64_round (n1 * d3 + n3 * d1) (d1 * d3))) as [n4 d4].
    cbn [fst snd] in *.
    rewrite <- (Z.opp_involutive n4), Z.quot_opp_l by lia.
    assert (0 ≤ - n4 ÷ d4) by (apply Z.quot_pos; lia). lia.
Qed.

(** The seconds are rounded, not cut: a second short of a nanosecond can
    count as a whole one. *)
Lemma Duration_Seconds_rounds :
  Duration_Seconds 16777216999999999 = 16777217
  ∧ Duration_Seconds (10 * Second) = 10
  ∧ Duration_Seconds (1500 * Millisecond) = 1.
Proof. vm_compute. done. Qed.

Lemma RedLock_Lock_loop_keeps_members (timeout : Z) (ctx : context)
    (ls : list (RedisLock Redis)) (obs : list (list (tick Redis))) (cnt0 : Z)
    (w : World Redis) cnt ls' ids w' :
  (∀ l, l ∈ ls → watchDogMode (lockOptions l) = false) →
  RedLock_Lock_loop timeout ctx ls obs cnt0 w = Some (cnt, ls', ids, w') →
  ls' = ls.
Proof.
  revert obs cnt0 w cnt ls' ids w'.
  induction ls as [|a ls IH]; intros obs cnt0 w cnt ls' ids w' Hall H; simpl in H.
  - by inversion H.
  - destruct (Lock a _ (hd [] obs) _) as [[[err a'] w2]|] eqn:HL; [|done].
    destruct (RedLock_Lock_loop timeout ctx ls (tl obs) _ w2)
      as [[[[c rest'] deferred] w3]|] eqn:Hloop; [|done].
    inversion H; subst; clear H.
    rewrite (Lock_keeps_lock _ _ _ _ _ _ _ HL);
      [|left; apply Hall; by apply elem_of_cons; left].
    f_equal. eapply IH; [|done]. intros l Hl. apply Hall. by apply elem_of_cons; right.
Qed.

(** A quorum lock built with a lease of a second or more has members
    without watchdog; they stay so through [RedLock.Lock], and
    [RedLock.Unlock] panics on it whenever it is called. *)
Lemma RedLock_with_lease_cannot_unlock (g : caller) (k : string)
    (confs : list SingleNodeConf) (opts : list RedLockOption) (rl : RedLock) :
  NewRedLock g k confs opts = inl rl →
  Second ≤ expireDuration (redLockOptionsOf opts) →
  (∀ l, l ∈ locks rl → watchDogMode (lockOptions l) = false ∧ stopDog l = None)
  ∧ (∀ ctx w, fst (RedLock_Unlock rl ctx w) = Panicked)
  ∧ (∀ ctx obs w out rl' w',
        RedLock_Lock rl ctx obs w = Some (out, rl', w') →
        locks rl' = locks rl ∧ (out = Returned None ∨ out = Panicked)).
Proof.
  intros Hnew Hlease. unfold NewRedLock in Hnew. fold (redLockOptionsOf opts) in Hnew.
  destruct (Z.of_nat (length confs) <? 3) eqn:Hn; [done|].
  destruct (_ && _); [done|]. inversion Hnew; subst rl; clear Hnew. simpl.
  assert (Hmem : ∀ l, l ∈ map (λ conf, NewRedisLock g k
                        (NewClient (Network conf) (Address conf) (Password conf))
                        [WithExpireSeconds (Duration_Seconds (expireDuration (redLockOptionsOf opts)))])
                      confs →
                 watchDogMode (lockOptions l) = false ∧ stopDog l = None).
  { intros l Hl. apply list_elem_of_In, in_map_iff in Hl as [conf [<- _]].
    split; [|reflexivity]. rewrite NewRedisLock_watchDogMode. simpl.
    pose proof (Duration_Seconds_pos _ Hlease) as Hp. apply Z.ltb_lt in Hp.
    by rewrite Hp. }
  assert (Hex : ∃ l, l ∈ map (λ conf, NewRedisLock g k
                        (NewClient (Network conf) (Address conf) (Password conf))
                        [WithExpireSeconds (Duration_Seconds (expireDuration (redLockOptionsOf opts)))])
                      confs ∧ stopDog l = None).
  { destruct confs as [|c0 confs]; [simpl in Hn; done|].
    eexists. split; [apply elem_of_cons; left; reflexivity | reflexivity]. }
  split; [exact Hmem|]. split.
  - intros ctx w. by apply RedLock_Unlock_loop_panics.
  - intros ctx obs w out rl' w' H.
    assert (Hl : locks rl' = map (λ conf, NewRedisLock g k
                        (NewClient (Network conf) (Address conf) (Password conf))
                        [WithExpireSeconds (Duration_Seconds (expireDuration (redLockOptionsOf opts)))])
                      confs).
    { unfold RedLock_Lock in H. simpl in H.
      destruct (RedLock_Lock_loop _ ctx _ obs 0 w) as [[[[cnt ls'] ids] w1]|] eqn:Hloop;
        [|done].
      apply RedLock_Lock_loop_keeps_members in Hloop; [|intros l Hl; by apply Hmem].
      subst ls'.
      destruct (cnt <? _); [|by inversion H].
      destruct (RedLock_Unlock _ ctx w1) as [[res|] w2]; by inversion H. }
    split; [done|].
    destruct out as [[e|]|]; [|by left|by right].
    assert (Hp : Returned (Some e) = @Panicked (option error)); [|discriminate Hp].
    apply (RedLock_Lock_rollback_panics _ _ _ _ _ _ _ H); [done|].
    rewrite Hl. exact Hex.
Qed.

(** C2 at three contended nodes, with the quorum lock of Test_redLock
    (a lease of ten seconds, so no member runs a watchdog): no member
    acquires, and the rollback panics at the first member instead of
    unlocking all of them and returning the quorum error. *)
Example RedLock_Lock_rollback_panics_on_contention :
  match NewRedLock (mkCaller 1 1) "test_key" three_nodes test_redLock_options with
  | inl rl =>
      (member_attempts (singleNodesTimeout (redLockOptions rl)) Background
          (locks rl) [] world_contended,
       reported (RedLock_Lock rl Background [] world_contended))
  | inr _ => (None, None)
  end
  = (Some [(Some (Errorf "redis.ErrNil 代表执行 redis SETNX 失败，未获取到锁，可重试: reply: %d, err: %w"
                         ErrLockAcquiredByOthers), 0);
           (Some (Errorf "redis.ErrNil 代表执行 redis SETNX 失败，未获取到锁，可重试: reply: %d, err: %w"
                         ErrLockAcquiredByOthers), 0);
           (Some (Errorf "redis.ErrNil 代表执行 redis SETNX 失败，未获取到锁，可重试: reply: %d, err: %w"
                         ErrLockAcquiredByOthers), 0)],
     Some Panicked).
Proof. vm_compute. reflexivity. Qed.

(** Two free nodes out of three make the quorum. *)
Example RedLock_Lock_two_of_three :
  match NewRedLock (mkCaller 1 1) "test_key" three_nodes test_redLock_options with
  | inl rl => reported (RedLock_Lock rl Background [] world_one_contended)
  | inr _ => None
  end = Some (Returned None).
Proof. vm_compute. reflexivity. Qed.

(** Without a lease the members run watchdogs, and [Unlock] after a
    successful [Lock] goes through all of them and returns nil. *)
Example RedLock_Unlock_without_lease :
  match NewRedLock (mkCaller 1 1) "test_key" three_nodes [] with
  | inl rl =>
      match RedLock_Lock rl Background [] world0 with
      | Some (out, rl', w) =>
          let w2 := snd (RedLock_Unlock rl' Background w) in
          Some (out, fst (RedLock_Unlock rl' Background w),
                node_has w2 "10.0.0.1:6379" test_key_at,
                node_has w2 "10.0.0.2:6379" test_key_at,
                node_has w2 "10.0.0.3:6379" test_key_at)
      | None => None
      end
  | inr _ => None
  end = Some (Returned None, Returned None, false, false, false).
Proof. vm_compute. reflexivity. Qed.

(** C10 at the quorum lock of Test_redLock: after a successful [Lock],
    [Unlock] panics at the first member; the second and the third node
    still hold the key afterwards. *)
Example RedLock_Unlock_test_redLock_panics :
  match NewRedLock (mkCaller 1 1) "test_key" three_nodes test_redLock_options with
  | inl rl =>
      match RedLock_Lock rl Background [] world0 with
      | Some (out, rl', w) =>
          let w2 := snd (RedLock_Unlock rl' Background w) in
          Some (out, fst (RedLock_Unlock rl' Background w),
                node_has w2 "10.0.0.1:6379" test_key_at,
                node_has w2 "10.0.0.2:6379" test_key_at,
                node_has w2 "10.0.0.3:6379" test_key_at)
      | None => None
      end
  | inr _ => None
  end = Some (Returned None, Panicked, false, true, true).
Proof. vm_compute. reflexivity. Qed.

(** ** Contexts and the clock *)

Section Contexts.
Context {S : Type}.
Implicit Types (w : World S) (ctx : context).

Lemma fired_at_earliest (t : Z) (a b : option (Z * sentinel)) :
  fired_at t (earliest a b) = fired_at t a || fired_at t b.
Proof.
  destruct a as [[ta ea]|], b as [[tb eb]|]; simpl; auto using orb_false_r.
  destruct (Z.leb_spec ta tb), (Z.leb_spec ta t), (Z.leb_spec tb t); simpl; auto; lia.
Qed.

Lemma ctx_Done_fired w ctx :
  ctx_Done w ctx = fired_at (now w) (ctx_cause (cancelled w) ctx).
Proof.
  unfold ctx_Done, ctx_Err.
  destruct (ctx_cause (cancelled w) ctx) as [[t e]|]; simpl; [|done].
  by destruct (t <=? now w).
Qed.

Lemma fired_at_own_cancel w (id : nat) :
  fired_at (now w) (own_cancel (cancelled w) id) = cancel_called w id.
Proof.
  unfold own_cancel, cancel_called. by destruct (cancel_time (cancelled w) id).
Qed.

(** A context derived with [WithCancel] is done when its parent is done
    or its own cancel function has been called. *)
Lemma ctx_Done_WithCancel w (id : nat) ctx :
  ctx_Done w (WithCancel id ctx) = ctx_Done w ctx || cancel_called w id.
Proof.
  rewrite !ctx_Done_fired. simpl. by rewrite fired_at_earliest, fired_at_own_cancel.
Qed.

Lemma ctx_cause_unsignalled (cs : list (nat * Z)) ctx :
  no_deadline ctx = true →
  (∀ id, id ∈ ctx_ids ctx → cancel_time cs id = None) →
  ctx_cause cs ctx = None.
Proof.
  induction ctx as [|id p IH|id d p IH]; simpl; intros Hnd Hids; [done| |done].
  rewrite IH; [|done|intros i Hi; apply Hids; by apply elem_of_cons; right].
  unfold own_cancel. rewrite Hids; [done|]. by apply elem_of_cons; left.
Qed.

Lemma cancel_time_cancel w (id id' : nat) :
  id ≠ id' →
  cancel_time (cancelled (cancel id' w)) id = cancel_time (cancelled w) id.
Proof.
  intros Hne. unfold cancel.
  destruct (cancel_time (cancelled w) id'); [done|]. simpl.
  destruct (cancel_time (cancelled w) id); [done|].
  by rewrite bool_decide_eq_false_2 by congruence.
Qed.

Lemma cancel_time_cancel_same w (id : nat) :
  cancel_time (cancelled (cancel id w)) id
  = Some (default (now w) (cancel_time (cancelled w) id)).
Proof.
  unfold cancel. destruct (cancel_time (cancelled w) id) as [t|] eqn:E; simpl.
  - by rewrite E.
  - rewrite E. by rewrite bool_decide_eq_true_2.
Qed.

Lemma now_cancel w (id : nat) : now (cancel id w) = now w.
Proof. unfold cancel. by destruct (cancel_time (cancelled w) id). Qed.

Lemma client_state_cancel w (id : nat) : client_state (cancel id w) = client_state w.
Proof. unfold cancel. by destruct (cancel_time (cancelled w) id). Qed.

Lemma now_foldr_cancel w (ids : list nat) : now (foldr cancel w ids) = now w.
Proof. induction ids as [|i ids IH]; simpl; [done|]. by rewrite now_cancel. Qed.

Lemma cancel_time_foldr_cancel w (ids : list nat) (id : nat) :
  id ∉ ids →
  cancel_time (cancelled (foldr cancel w ids)) id = cancel_time (cancelled w) id.
Proof.
  induction ids as [|i ids IH]; simpl; intros Hn; [done|].
  apply not_elem_of_cons in Hn as [Hne Hn].
  rewrite cancel_time_cancel by done. by apply IH.
Qed.

Lemma now_arrive (start period n : Z) (tk : tick S) w :
  now (arrive start period n tk w)
  = Z.max (now w) (start + period * n) + Z.of_N (tick_delay tk).
Proof. unfold arrive. simpl. by rewrite now_foldr_cancel. Qed.

Lemma cancelled_arrive (start period n : Z) (tk : tick S) w (id : nat) :
  id ∉ tick_cancels tk →
  cancel_time (cancelled (arrive start period n tk w)) id = cancel_time (cancelled w) id.
Proof.
  intros Hn. unfold arrive. simpl. by rewrite cancel_time_foldr_cancel.
Qed.
End Contexts.

(** ** Calls of the client leave the contexts alone and take time *)

Section Calls.
Context {S : Type}.
Implicit Types (r : RedisLock S) (w : World S) (ctx : context).

Lemma call_Eval_runtime r ctx src kc kaa w :
  cancelled (snd (call_Eval r ctx src kc kaa w)) = cancelled w
  ∧ now w ≤ now (snd (call_Eval r ctx src kc kaa w)).
Proof.
  unfold call_Eval.
  destruct (Eval (client r) ctx src kc kaa (now w) (client_state w)) as [[res lat] s'].
  simpl. split; [done | lia].
Qed.

Lemma call_SetNX_runtime r ctx k v secs w :
  cancelled (snd (call_SetNX r ctx k v secs w)) = cancelled w
  ∧ now w ≤ now (snd (call_SetNX r ctx k v secs w)).
Proof.
  unfold call_SetNX.
  destruct (SetNX (client r) ctx k v secs (now w) (client_state w)) as [[res lat] s'].
  simpl. split; [done | lia].
Qed.

Lemma DelayExpire_runtime r ctx secs w :
  cancelled (snd (DelayExpire r ctx secs w)) = cancelled w
  ∧ now w ≤ now (snd (DelayExpire r ctx secs w)).
Proof.
  unfold DelayExpire.
  pose proof (call_Eval_runtime r ctx LuaCheckAndExpireDistributionLock 1
                [ArgString (getLockKey r); ArgString (token r); ArgInt secs] w) as H.
  destruct (call_Eval r ctx LuaCheckAndExpireDistributionLock 1 _ w) as [[rep err] w1].
  destruct err; [done|]. by destruct (negb (reply_int64 rep =? 1)).
Qed.

Lemma Unlock_runtime r ctx w : now w ≤ now (snd (Unlock r ctx w)).
Proof.
  unfold Unlock.
  pose proof (call_Eval_runtime r ctx LuaCheckAndDeleteDistributionLock 1
                [ArgString (getLockKey r); ArgString (token r)] w) as [_ H].
  destruct (call_Eval r ctx LuaCheckAndDeleteDistributionLock 1 _ w) as [[rep err] w1].
  destruct (stopDog r); simpl in *; [|done]. by rewrite now_cancel.
Qed.

Lemma tryLock_runtime r ctx w :
  cancelled (snd (tryLock r ctx w)) = cancelled w
  ∧ now w ≤ now (snd (tryLock r ctx w)).
Proof.
  unfold tryLock.
  pose proof (call_SetNX_runtime r ctx (getLockKey r) (token r)
                (expireSeconds (lockOptions r)) w) as H.
  destruct (call_SetNX r ctx _ _ _ w) as [[n err] w1].
  destruct err as [e|]; [|done]. by destruct (errors_Is e RedisNil).
Qed.
End Calls.

(** ** The watchdog *)

Section WatchDog.
Context {S : Type}.
Implicit Types (r : RedisLock S) (w : World S) (ctx : context).

Lemma runWatchDog_loop_exit r ctx (start n : Z) (ticks : list (tick S)) w :
  fst (runWatchDog_loop r ctx start n ticks w) = true →
  ctx_Done (snd (runWatchDog_loop r ctx start n ticks w)) ctx = true.
Proof.
  revert n w. induction ticks as [|tk rest IH]; intros n w; simpl; [done|].
  destruct (ctx_Done (arrive start (WatchDogWorkStepSeconds * Second) n tk w) ctx) eqn:Hd;
    [done|].
  destruct (DelayExpire r ctx (WatchDogWorkStepSeconds + 3) _) as [err w2].
  apply IH.
Qed.

Lemma runWatchDog_loop_continues r ctx (start n : Z) (tk : tick S)
    (rest : list (tick S)) w :
  ctx_Done (arrive start (WatchDogWorkStepSeconds * Second) n tk w) ctx = false →
  runWatchDog_loop r ctx start n (tk :: rest) w
  = runWatchDog_loop r ctx start (n + 1) rest
      (snd (DelayExpire r ctx (WatchDogWorkStepSeconds + 3)
              (arrive start (WatchDogWorkStepSeconds * Second) n tk w))).
Proof.
  intros Hd. simpl. rewrite Hd.
  by destruct (DelayExpire r ctx (WatchDogWorkStepSeconds + 3) _).
Qed.

Lemma runWatchDog_loop_unsignalled r ctx (start n : Z) (ticks : list (tick S)) w :
  no_deadline ctx = true →
  (∀ id, id ∈ ctx_ids ctx →
         cancel_time (cancelled w) id = None
         ∧ ∀ tk, tk ∈ ticks → id ∉ tick_cancels tk) →
  fst (runWatchDog_loop r ctx start n ticks w) = false.
Proof.
  intros Hnd. revert n w. induction ticks as [|tk rest IH]; intros n w Hids; [done|].
  assert (Hq : ctx_Done (arrive start (WatchDogWorkStepSeconds * Second) n tk w) ctx = false).
  { rewrite ctx_Done_fired, ctx_cause_unsignalled; [done..|].
    intros id Hid. destruct (Hids id Hid) as [Hc Ht].
    rewrite cancelled_arrive; [done|]. apply Ht. by apply elem_of_cons; left. }
  rewrite runWatchDog_loop_continues by done.
  apply IH. intros id Hid. destruct (Hids id Hid) as [Hc Ht]. split.
  - destruct (DelayExpire_runtime r ctx (WatchDogWorkStepSeconds + 3)
                (arrive start (WatchDogWorkStepSeconds * Second) n tk w)) as [-> _].
    rewrite cancelled_arrive; [done|]. apply Ht. by apply elem_of_cons; left.
  - intros tk' Htk'. apply Ht. by apply elem_of_cons; right.
Qed.
End WatchDog.

(** C9. The loop of [runWatchDog] returns only at a tick at which its
    context is done; at a tick at which it is not, the loop goes on to the
    next tick whatever [DelayExpire] returned; and on a context that is
    never signalled the loop is still running after any number of ticks,
    with any client. *)
Theorem runWatchDog_survives_failed_renewals :
  (∀ (S : Type) (r : RedisLock S) ctx (start n : Z) (ticks : list (tick S)) w,
      fst (runWatchDog_loop r ctx start n ticks w) = true →
      ctx_Done (snd (runWatchDog_loop r ctx start n ticks w)) ctx = true)
  ∧ (∀ (S : Type) (r : RedisLock S) ctx (start n : Z) (tk : tick S) rest w,
        ctx_Done (arrive start (WatchDogWorkStepSeconds * Second) n tk w) ctx = false →
        runWatchDog_loop r ctx start n (tk :: rest) w
        = runWatchDog_loop r ctx start (n + 1) rest
            (snd (DelayExpire r ctx (WatchDogWorkStepSeconds + 3)
                    (arrive start (WatchDogWorkStepSeconds * Second) n tk w))))
  ∧ (∀ (S : Type) (r : RedisLock S) ctx (ticks : list (tick S)) w,
        no_deadline ctx = true →
        (∀ id, id ∈ ctx_ids ctx →
               cancel_time (cancelled w) id = None
               ∧ ∀ tk, tk ∈ ticks → id ∉ tick_cancels tk) →
        fst (runWatchDog r ctx ticks w) = false).
Proof.
  split; [|split].
  - intros S r ctx start n ticks w. apply runWatchDog_loop_exit.
  - intros S r ctx start n tk rest w. apply runWatchDog_loop_continues.
  - intros S r ctx ticks w. apply runWatchDog_loop_unsignalled.
Qed.

(** Renewals that all fail (nobody holds the key), and a watchdog that
    is still running after three of them. *)
Lemma runWatchDog_survives_failed_renewals_witness :
  fst (DelayExpire watchdog_lock (WithCancel 8 Background) (WatchDogWorkStepSeconds + 3) world1)
  = Some (ErrorsNew "can not expire lock without ownership of lock")
  ∧ fst (runWatchDog watchdog_lock (WithCancel 8 Background)
           [quiet_tick; quiet_tick; quiet_tick] world1) = false.
Proof.
  split; [vm_compute; reflexivity|].
  apply (proj2 (proj2 runWatchDog_survives_failed_renewals)); [reflexivity|].
  intros id Hid. split; [reflexivity|].
  intros tk Htk Hin.
  repeat (apply elem_of_cons in Htk as [->|Htk]; [by apply elem_of_nil in Hin|]).
  by apply elem_of_nil in Htk.
Defined.

(** ** The context of the watchdog *)

Section WatchDogContext.
Context {S : Type}.
Implicit Types (r : RedisLock S) (w : World S) (ctx : context).

Lemma watchDog_started r ctx w r' w' :
  watchDog r ctx w = Some (r', w') →
  watchDogMode (lockOptions r) = true →
  stopDog r' = Some (next_id w)
  ∧ goroutines w' = mkGoroutine (key r) (token r) (WithCancel (next_id w) ctx) :: goroutines w
  ∧ runningDog r = 0 ∧ runningDog r' = 1.
Proof.
  unfold watchDog, CompareAndSwapInt32. intros H Hm. rewrite Hm in H. simpl in H.
  destruct (Z.eqb_spec (runningDog r) 0) as [Hz|Hz]; [|done].
  by inversion H; subst.
Qed.

Lemma Lock_deferred_started r ctx w r' w' :
  Lock_deferred r ctx None w = Some (None, r', w') →
  watchDogMode (lockOptions r) = true →
  ∃ id, stopDog r' = Some id
        ∧ head (goroutines w') = Some (mkGoroutine (key r) (token r) (WithCancel id ctx)).
Proof.
  unfold Lock_deferred. intros H Hm.
  destruct (watchDog r ctx w) as [[r1 w1]|] eqn:Hw; [|done].
  inversion H; subst.
  destruct (watchDog_started _ _ _ _ _ Hw Hm) as [Hs [Hg _]].
  exists (next_id w). split; [done|]. by rewrite Hg.
Qed.

Lemma Lock_started r ctx (ticks : list (tick S)) w r' w' :
  Lock r ctx ticks w = Some (None, r', w') →
  watchDogMode (lockOptions r) = true →
  ∃ id, stopDog r' = Some id
        ∧ head (goroutines w') = Some (mkGoroutine (key r) (token r) (WithCancel id ctx)).
Proof.
  unfold Lock. intros H Hm.
  destruct (tryLock r ctx w) as [[e|] w1].
  - destruct (negb (isBlock (lockOptions r))).
    { by pose proof (Lock_deferred_result _ _ _ _ _ _ _ H). }
    destruct (negb (IsRetryableErr e)).
    { by pose proof (Lock_deferred_result _ _ _ _ _ _ _ H). }
    destruct (blockingLock r ctx ticks w1) as [[err' w2]|]; [|done].
    pose proof (Lock_deferred_result _ _ _ _ _ _ _ H) as <-.
    by eapply Lock_deferred_started.
  - by eapply Lock_deferred_started.
Qed.

Lemma Unlock_calls_stopDog r ctx w (id : nat) :
  stopDog r = Some id →
  cancels_in_past w →
  cancel_called (snd (Unlock r ctx w)) id = true.
Proof.
  intros Hs Hp. unfold Unlock.
  pose proof (call_Eval_runtime r ctx LuaCheckAndDeleteDistributionLock 1
                [ArgString (getLockKey r); ArgString (token r)] w) as [Hc Hn].
  destruct (call_Eval r ctx LuaCheckAndDeleteDistributionLock 1 _ w) as [[rep err] w1].
  rewrite Hs. simpl in *. unfold cancel_called.
  rewrite cancel_time_cancel_same, now_cancel. rewrite Hc.
  destruct (cancel_time (cancelled w) id) as [t|] eqn:E; simpl.
  - apply Z.leb_le. specialize (Hp id t E). lia.
  - apply Z.leb_le. lia.
Qed.
End WatchDogContext.

(** C3 fails: the caller cancels the context it gave to [Lock], nobody
    calls [Unlock], and the watchdog returns at its next tick. *)
Lemma watchdog_stops_on_Lock_context : ¬ watchdog_stops_only_by_Unlock.
Proof.
  intros Hclaim.
  assert (Hrun :
    match Lock watchdog_lock caller_ctx [] world1 with
    | Some (err, r, w) =>
        let o := runWatchDog r (WithCancel 8 caller_ctx) [caller_cancels] w in
        Some (err, stopDog r, fst o, cancel_called (snd o) 8)
    | None => None
    end = Some (None, Some 8%nat, true, false)).
  { vm_compute. reflexivity. }
  destruct (Lock watchdog_lock caller_ctx [] world1) as [[[err r'] w']|] eqn:HL;
    [|discriminate Hrun].
  simpl in Hrun. inversion Hrun as [[He Hid H1 H2]]. subst err.
  specialize (Hclaim watchdog_lock caller_ctx [] [caller_cancels] world1 r' w' 8%nat HL Hid H1).
  rewrite H2 in Hclaim. discriminate Hclaim.
Qed.

(** C3, amended: the watchdog runs on a context derived with
    [WithCancel] from the context given to [Lock], and [stopDog] is its
    cancel function.  So the watchdog's context is done exactly when the
    context given to [Lock] is done or [stopDog] has been called, and
    [Unlock] calls [stopDog]. *)
Theorem watchdog_context_is_child_of_Lock_context {S : Type} (r : RedisLock S)
    (ctx : context) (ticks : list (tick S)) (w : World S) r' w' :
  Lock r ctx ticks w = Some (None, r', w') →
  watchDogMode (lockOptions r) = true →
  ∃ id, stopDog r' = Some id
        ∧ head (goroutines w') = Some (mkGoroutine (key r) (token r) (WithCancel id ctx))
        ∧ (∀ w2 : World S,
              ctx_Done w2 (WithCancel id ctx) = ctx_Done w2 ctx || cancel_called w2 id)
        ∧ (∀ ctx2 (w2 : World S),
              cancels_in_past w2 → cancel_called (snd (Unlock r' ctx2 w2)) id = true).
Proof.
  intros HL Hm. destruct (Lock_started _ _ _ _ _ _ HL Hm) as [id [Hs Hg]].
  exists id. split; [done|]. split; [done|]. split.
  - intros w2. apply ctx_Done_WithCancel.
  - intros ctx2 w2. by apply Unlock_calls_stopDog.
Qed.

Lemma watchdog_context_is_child_of_Lock_context_witness :
  reported (Lock watchdog_lock caller_ctx [] world1) = Some None
  ∧ match Lock watchdog_lock caller_ctx [] world1 with
    | Some (None, r', w') =>
        ∃ id, stopDog r' = Some id
              ∧ head (goroutines w')
                = Some (mkGoroutine (key watchdog_lock) (token watchdog_lock)
                          (WithCancel id caller_ctx))
              ∧ (∀ w2 : World Redis,
                    ctx_Done w2 (WithCancel id caller_ctx)
                    = ctx_Done w2 caller_ctx || cancel_called w2 id)
              ∧ (∀ ctx2 (w2 : World Redis),
                    cancels_in_past w2 → cancel_called (snd (Unlock r' ctx2 w2)) id = true)
    | _ => False
    end.
Proof.
  assert (E : reported (Lock watchdog_lock caller_ctx [] world1) = Some None)
    by (vm_compute; reflexivity).
  split; [exact E|].
  destruct (Lock watchdog_lock caller_ctx [] world1) as [[[err r'] w']|] eqn:HL;
    [|discriminate E].
  simpl in E. inversion E; subst err.
  apply (watchdog_context_is_child_of_Lock_context watchdog_lock caller_ctx [] world1 r' w' HL).
  reflexivity.
Defined.

(** ** Acquisition: the single attempt and the poll loop *)

Section Acquisition.
Context {S : Type}.
Implicit Types (r : RedisLock S) (w : World S) (ctx : context).

Lemma blockingLock_loop_cons r ctx (start timeout n : Z) (tk : tick S)
    (rest : list (tick S)) w :
  blockingLock_loop r ctx start timeout n (tk :: rest) w =
    match ctx_Err (arrive start (50 * Millisecond) n tk w) ctx,
          start + timeout <=? now (arrive start (50 * Millisecond) n tk w) with
    | Some e, true =>
        if tick_pick tk
        then Some (Some (Errorf "lock failed, ctx timeout, err: %w" e),
                   arrive start (50 * Millisecond) n tk w)
        else Some (Some (Errorf "block waiting time out, err: %w" ErrLockAcquiredByOthers),
                   arrive start (50 * Millisecond) n tk w)
    | Some e, false =>
        Some (Some (Errorf "lock failed, ctx timeout, err: %w" e),
              arrive start (50 * Millisecond) n tk w)
    | None, true =>
        Some (Some (Errorf "block waiting time out, err: %w" ErrLockAcquiredByOthers),
              arrive start (50 * Millisecond) n tk w)
    | None, false =>
        match tryLock r ctx (arrive start (50 * Millisecond) n tk w) with
        | (None, w2) => Some (None, w2)
        | (Some e, w2) =>
            if negb (IsRetryableErr e) then Some (Some e, w2)
            else blockingLock_loop r ctx start timeout (n + 1) rest w2
        end
    end.
Proof.
  cbn [blockingLock_loop].
  destruct (ctx_Err _ ctx), (_ <=? _); try reflexivity;
    by destruct (tryLock r ctx _) as [[e|] w2].
Qed.

Lemma blockingLock_loop_end r ctx (start timeout n : Z) (ticks : list (tick S)) w res w2 :
  blockingLock_loop r ctx start timeout n ticks w = Some (res, w2) →
  poll_end r ctx start timeout res w2 ∧ start + 50 * Millisecond * n ≤ now w2.
Proof.
  revert n w. induction ticks as [|tk rest IH]; intros n w H; [done|].
  rewrite blockingLock_loop_cons in H.
  pose proof (now_arrive start (50 * Millisecond) n tk w) as Hnow.
  set (w1 := arrive start (50 * Millisecond) n tk w) in *.
  assert (Hat : start + 50 * Millisecond * n ≤ now w1) by lia.
  clearbody w1. clear Hnow.
  destruct (ctx_Err w1 ctx) as [e|] eqn:He;
    destruct (Z.leb_spec (start + timeout) (now w1)) as [Ht|Ht].
  - destruct (tick_pick tk); inversion H; subst; split; auto.
    + by apply poll_cancelled.
    + by apply poll_timed_out.
  - inversion H; subst. split; [by apply poll_cancelled | done].
  - inversion H; subst. split; [by apply poll_timed_out | done].
  - pose proof (tryLock_runtime r ctx w1) as [_ Hmono].
    destruct (tryLock r ctx w1) as [[e|] w3] eqn:Htry; cbn [snd] in Hmono.
    + destruct (IsRetryableErr e) eqn:Hr; cbn [negb] in H.
      * destruct (IH _ _ H) as [Hend Hn]. split; [done|].
        unfold Millisecond in *. lia.
      * inversion H; subst. split; [by eapply poll_aborted | lia].
    + inversion H; subst. split; [by eapply poll_acquired | lia].
Qed.

Lemma blockingLock_loop_returns r ctx (start timeout n : Z) (ticks : list (tick S)) w :
  ticks ≠ [] →
  timeout ≤ 50 * Millisecond * (n - 1 + Z.of_nat (length ticks)) →
  ∃ res w2, blockingLock_loop r ctx start timeout n ticks w = Some (res, w2).
Proof.
  revert n w. induction ticks as [|tk rest IH]; intros n w Hne Hb; [done|].
  rewrite blockingLock_loop_cons.
  pose proof (now_arrive start (50 * Millisecond) n tk w) as Hnow.
  set (w1 := arrive start (50 * Millisecond) n tk w) in *.
  destruct (ctx_Err w1 ctx) as [e|] eqn:He;
    destruct (Z.leb_spec (start + timeout) (now w1)) as [Ht|Ht]; eauto.
  - destruct (tick_pick tk); eauto.
  - destruct (tryLock r ctx w1) as [[e|] w3]; eauto.
    destruct (IsRetryableErr e); simpl; eauto.
    destruct rest as [|tk' rest'].
    + simpl in Hb. unfold Millisecond in *. lia.
    + apply IH; [done|]. simpl length in *. unfold Millisecond in *. lia.
Qed.

(** [Lock_deferred] hands the error through; on success it returns once
    no earlier watchdog holds the flag. *)
Lemma Lock_deferred_error r ctx (e : error) w :
  Lock_deferred r ctx (Some e) w = Some (Some e, r, w).
Proof. reflexivity. Qed.

Lemma Lock_deferred_success r ctx w :
  watchDogMode (lockOptions r) = false ∨ runningDog r = 0 →
  ∃ r' w', Lock_deferred r ctx None w = Some (None, r', w').
Proof.
  unfold Lock_deferred, watchDog, CompareAndSwapInt32.
  destruct (watchDogMode (lockOptions r)); simpl; [|eauto].
  intros [?|Hz]; [done|]. rewrite Hz. simpl. eauto.
Qed.

Lemma Lock_deferred_returns r ctx err w :
  watchDogMode (lockOptions r) = false ∨ runningDog r = 0 →
  ∃ r' w', Lock_deferred r ctx err w = Some (err, r', w').
Proof.
  destruct err as [e|]; [intros _; rewrite Lock_deferred_error; eauto|].
  apply Lock_deferred_success.
Qed.
End Acquisition.

(** C7. With [err0] the result of the single attempt: when the attempt
    succeeded, or the lock is not in blocking mode, or the error is not
    retryable, [Lock] reports [err0] and nothing else happens but the
    start of the watchdog on success.  Otherwise [Lock] reports what the
    poll loop ends with, and the loop, whose n-th attempt comes no sooner
    than n x 50 ms after its start, ends in one of four ways: nil after an
    attempt that succeeded, the context's error wrapped when the context
    is done, the contention error wrapped when the budget has elapsed, a
    non-retryable error of an attempt as it is.  It ends within
    budget / 50 ms ticks.

    The loop is the one started at the end of the first attempt with the
    wait budget, and at every tick it does this: with the context done it
    returns the cancellation error, with the budget elapsed the timeout
    error (either of the two when both hold), and otherwise it makes the
    attempt at that moment: an attempt that succeeds ends the loop with
    nil in the world the attempt left, an error that is not retryable ends
    it with that error, and a retryable one takes the loop to the next
    tick.  Without a tick it does not return. *)
Theorem Lock_acquisition_modes {S : Type} (r : RedisLock S) (ctx : context)
    (ticks : list (tick S)) (w : World S) (err0 : option error) (w1 : World S) :
  tryLock r ctx w = (err0, w1) →
  ((err0 = None ∨ isBlock (lockOptions r) = false
    ∨ (∃ e, err0 = Some e ∧ IsRetryableErr e = false)) →
   Lock r ctx ticks w = Lock_deferred r ctx err0 w1
   ∧ (∀ e, err0 = Some e → Lock r ctx ticks w = Some (Some e, r, w1))
   ∧ (err0 = None →
      watchDogMode (lockOptions r) = false ∨ runningDog r = 0 →
      ∃ r' w', Lock r ctx ticks w = Some (None, r', w')))
  ∧ (∀ e, err0 = Some e → isBlock (lockOptions r) = true → IsRetryableErr e = true →
       (∀ res r' w', Lock r ctx ticks w = Some (res, r', w') →
          ∃ w2, blockingLock r ctx ticks w1 = Some (res, w2)
                ∧ poll_end r ctx (now w1) (waitBudget r) res w2
                ∧ now w1 + 50 * Millisecond ≤ now w2)
       ∧ (ticks ≠ [] →
          waitBudget r ≤ 50 * Millisecond * Z.of_nat (length ticks) →
          watchDogMode (lockOptions r) = false ∨ runningDog r = 0 →
          ∃ res r' w', Lock r ctx ticks w = Some (res, r', w')))
  ∧ blockingLock r ctx ticks w1
    = blockingLock_loop r ctx (now w1) (waitBudget r) 1 ticks w1
  ∧ (∀ (start timeout n : Z) (tk : tick S) (rest : list (tick S)) (wx : World S),
       let wt := arrive start (50 * Millisecond) n tk wx in
       (ctx_Err wt ctx = None → now wt < start + timeout →
        ∀ w2,
          (tryLock r ctx wt = (None, w2) →
           blockingLock_loop r ctx start timeout n (tk :: rest) wx = Some (None, w2))
          ∧ (∀ e', tryLock r ctx wt = (Some e', w2) →
               blockingLock_loop r ctx start timeout n (tk :: rest) wx
               = if IsRetryableErr e'
                 then blockingLock_loop r ctx start timeout (n + 1) rest w2
                 else Some (Some e', w2)))
       ∧ (∀ e', ctx_Err wt ctx = Some e' → now wt < start + timeout →
            blockingLock_loop r ctx start timeout n (tk :: rest) wx
            = Some (Some (Errorf "lock failed, ctx timeout, err: %w" e'), wt))
       ∧ (ctx_Err wt ctx = None → start + timeout ≤ now wt →
            blockingLock_loop r ctx start timeout n (tk :: rest) wx
            = Some (Some (Errorf "block waiting time out, err: %w" ErrLockAcquiredByOthers),
                    wt))
       ∧ (∀ e', ctx_Err wt ctx = Some e' → start + timeout ≤ now wt →
            blockingLock_loop r ctx start timeout n (tk :: rest) wx
            = Some (Some (if tick_pick tk
                          then Errorf "lock failed, ctx timeout, err: %w" e'
                          else Errorf "block waiting time out, err: %w"
                                      ErrLockAcquiredByOthers),
                    wt))
       ∧ blockingLock_loop r ctx start timeout n [] wx = None).
Proof.
  intros Htry. split; [|split; [|split; [reflexivity|]]].
  3:{ intros start timeout n tk rest wx wt.
      pose proof (blockingLock_loop_cons r ctx start timeout n tk rest wx) as Hstep.
      fold wt in Hstep. clearbody wt.
      split; [|split; [|split; [|split; [|reflexivity]]]].
      - intros Hctx Hb w2.
        rewrite Hctx in Hstep.
        replace (start + timeout <=? now wt) with false in Hstep
          by (symmetry; apply Z.leb_gt; lia).
        split.
        + intros Ht. by rewrite Ht in Hstep.
        + intros e' Ht. rewrite Ht in Hstep. rewrite Hstep.
          by destruct (IsRetryableErr e').
      - intros e' Hctx Hb. rewrite Hctx in Hstep.
        by replace (start + timeout <=? now wt) with false in Hstep
          by (symmetry; apply Z.leb_gt; lia).
      - intros Hctx Hb. rewrite Hctx in Hstep.
        by replace (start + timeout <=? now wt) with true in Hstep
          by (symmetry; apply Z.leb_le; lia).
      - intros e' Hctx Hb. rewrite Hctx in Hstep.
        replace (start + timeout <=? now wt) with true in Hstep
          by (symmetry; apply Z.leb_le; lia).
        rewrite Hstep. by destruct (tick_pick tk). }
  - intros Hc.
    assert (HL : Lock r ctx ticks w = Lock_deferred r ctx err0 w1).
    { unfold Lock. rewrite Htry. destruct err0 as [e|]; [|done].
      destruct Hc as [?|[Hb|[e' [He' Hr]]]]; [done| |].
      - by rewrite Hb.
      - inversion He'; subst e'. rewrite Hr. simpl.
        by destruct (negb (isBlock (lockOptions r))). }
    split; [done|]. split.
    + intros e ->. by rewrite HL.
    + intros -> Hd. rewrite HL. by apply Lock_deferred_success.
  - intros e -> Hb Hr.
    assert (HL : Lock r ctx ticks w =
                 match blockingLock r ctx ticks w1 with
                 | None => None
                 | Some (err', w2) => Lock_deferred r ctx err' w2
                 end).
    { unfold Lock. by rewrite Htry, Hb, Hr. }
    split.
    + intros res r' w' H. rewrite HL in H.
      destruct (blockingLock r ctx ticks w1) as [[err' w2]|] eqn:Hbl; [|done].
      pose proof (Lock_deferred_result _ _ _ _ _ _ _ H) as ->.
      exists w2. split; [done|].
      unfold blockingLock in Hbl. apply blockingLock_loop_end in Hbl as [Hend Hn].
      split; [done | lia].
    + intros Hne Hbudget Hd. rewrite HL.
      destruct (blockingLock_loop_returns r ctx (now w1) (waitBudget r) 1 ticks w1 Hne)
        as [res [w2 Hret]]; [lia|].
      unfold blockingLock. fold (waitBudget r). rewrite Hret.
      destruct (Lock_deferred_returns r ctx res w2 Hd) as [r' [w' Hdef]].
      eauto.
Qed.

(** The blocking lock of the README against a key held for one second:
    forty ticks are enough for [Lock] to return. *)
Lemma Lock_acquisition_modes_witness :
  ∃ res r' w',
    Lock blocking_lock Background (replicate 40 quiet_tick) world_held = Some (res, r', w').
Proof.
  pose proof (Lock_acquisition_modes blocking_lock Background (replicate 40 quiet_tick)
                world_held _ _ (surjective_pairing _)) as (_ & HB & _).
  assert (E : fst (tryLock blocking_lock Background world_held)
              = Some (Errorf "redis.ErrNil 代表执行 redis SETNX 失败，未获取到锁，可重试: reply: %d, err: %w"
                             ErrLockAcquiredByOthers))
    by (vm_compute; reflexivity).
  destruct (HB _ E eq_refl eq_refl) as [_ Hret].
  apply Hret.
  - discriminate.
  - vm_compute. discriminate.
  - right. reflexivity.
Defined.

(** The four endings of the poll loop, each on a run of the blocking
    lock of the README against a key another client holds. *)
Example poll_loop_acquires_after_release :
  reported (Lock blocking_lock Background [quiet_tick; holder_releases] world_contended)
  = Some None.
Proof. vm_compute. reflexivity. Qed.

Example poll_loop_reports_cancellation :
  reported (Lock blocking_lock caller_ctx [quiet_tick; caller_cancels] world_contended1)
  = Some (Some (Errorf "lock failed, ctx timeout, err: %w" (Sentinel Canceled))).
Proof. vm_compute. reflexivity. Qed.

Example poll_loop_times_out :
  reported (Lock blocking_lock Background (replicate 40 quiet_tick) world_contended)
  = Some (Some (Errorf "block waiting time out, err: %w" ErrLockAcquiredByOthers))
  ∧ reported (Lock blocking_lock Background (replicate 39 quiet_tick) world_contended)
    = None.
Proof. split; vm_compute; reflexivity. Qed.

Example poll_loop_aborts_on_store_error :
  reported (Lock blocking_lock Background [quiet_tick; quiet_tick] world_flaky)
  = Some (Some (External "dial tcp: connection refused")).
Proof. vm_compute. reflexivity. Qed.

(** Without blocking mode the contention error comes back at once. *)
Example Lock_nonblocking_contended :
  reported (Lock watchdog_lock Background [] world_contended)
  = Some (Some (Errorf "redis.ErrNil 代表执行 redis SETNX 失败，未获取到锁，可重试: reply: %d, err: %w"
                       ErrLockAcquiredByOthers)).
Proof. vm_compute. reflexivity. Qed.

(** ** Mutual exclusion on one node *)

Lemma append_inj_l (p a b : string) : p +:+ a = p +:+ b → a = b.
Proof. induction p as [|c p IH]; simpl; [done|]. intros H. injection H. auto. Qed.

Lemma node_db_set_node_db (addr : string) (db : gmap string entry) (st : Redis) :
  node_db (set_node_db addr db st) addr = db.
Proof. unfold node_db, set_node_db. simpl. by rewrite lookup_insert_eq. Qed.

Lemma node_db_next_event (st : Redis) (addr : string) :
  node_db (snd (next_event st)) addr = node_db st addr.
Proof. unfold next_event. by destruct (net st). Qed.

Section Scripts.
Implicit Types (db : gmap string entry) (t : Z) (k : string).

(** A command on key [kj] under token [tokj] leaves a live record at [ki]
    as it is, unless it is the record of that key and token. *)
Lemma redis_set_ex_nx_other t db kj (tokj : string) (secs : Z) ki (e : entry) :
  live t db ki = Some e →
  snd (redis_set_ex_nx t db kj tokj secs) !! ki = db !! ki.
Proof.
  intros Hl. unfold redis_set_ex_nx.
  destruct (secs <=? 0); [done|].
  destruct (live t db kj) as [e'|] eqn:Hj; [done|]. simpl.
  destruct (decide (kj = ki)) as [->|Hne]; [congruence|].
  by rewrite lookup_insert_ne.
Qed.

Lemma lua_check_and_delete_other t db kj (tokj : string) (rest : list arg) ki (e : entry) :
  live t db ki = Some e →
  (ki = kj → entry_value e ≠ tokj) →
  snd (lua_check_and_delete [kj] (ArgString tokj :: rest) t db) !! ki = db !! ki.
Proof.
  intros Hl Hown. unfold lua_check_and_delete, redis_get, redis_del. simpl.
  destruct (live t db kj) as [e'|] eqn:Hj; simpl; [|done].
  destruct (bool_decide_reflect (entry_value e' = tokj)) as [Heq|Hneq]; [|done].
  simpl. destruct (decide (kj = ki)) as [->|Hne].
  - exfalso. apply Hown; [done|]. congruence.
  - by rewrite lookup_delete_ne.
Qed.

Lemma lua_check_and_expire_other t db kj (tokj : string) (rest : list arg) ki (e : entry) :
  live t db ki = Some e →
  (ki = kj → entry_value e ≠ tokj) →
  snd (lua_check_and_expire [kj] (ArgString tokj :: rest) t db) !! ki = db !! ki.
Proof.
  intros Hl Hown. unfold lua_check_and_expire, redis_get, redis_expire. simpl.
  destruct (live t db kj) as [e'|] eqn:Hj; simpl; [|done].
  destruct (bool_decide_reflect (entry_value e' = tokj)) as [Heq|Hneq]; [|done].
  destruct (decide (kj = ki)) as [->|Hne].
  { exfalso. apply Hown; [done|]. congruence. }
  destruct (rest !! 0%nat) as [[s|secs]|]; simpl; [done| |done].
  destruct (secs <=? 0); simpl.
  - by rewrite lookup_delete_ne.
  - by rewrite lookup_insert_ne.
Qed.

Lemma run_script_other (src : script) t db kj (tokj : string) (rest : list arg)
    ki (e : entry) :
  live t db ki = Some e →
  (ki = kj → entry_value e ≠ tokj) →
  snd (run_script src 1 (ArgString kj :: ArgString tokj :: rest) t db) !! ki = db !! ki.
Proof.
  intros Hl Hown. unfold run_script.
  assert (Hs : split_keys 1 (ArgString kj :: ArgString tokj :: rest)
               = Some ([kj], ArgString tokj :: rest)).
  { unfold split_keys. simpl length.
    replace (1 <? 0) with false by reflexivity.
    replace (Z.of_nat (Datatypes.S (Datatypes.S (length rest))) <? 1) with false
      by (symmetry; apply Z.ltb_ge; lia).
    reflexivity. }
  rewrite Hs. destruct src.
  - by eapply lua_check_and_delete_other.
  - by eapply lua_check_and_expire_other.
Qed.
End Scripts.

Section ClientEffects.
Variable c : Client.
Implicit Types (st : Redis) (t : Z) (ctx : context).

Lemma Client_SetNX_other ctx k (v : string) (secs : Z) t st ki (e : entry) :
  live t (node_db st (address c)) ki = Some e →
  node_db (snd (Client_SetNX c ctx k v secs t st)) (address c) !! ki
  = node_db st (address c) !! ki.
Proof.
  intros Hl. unfold Client_SetNX.
  pose proof (node_db_next_event st (address c)) as Hn.
  destruct (next_event st) as [ev st1]. simpl in Hn. rewrite <- Hn in *.
  pose proof (redis_set_ex_nx_other t (node_db st1 (address c)) k v secs ki e Hl) as Hs.
  destruct (fault ev); simpl; try done;
    destruct (redis_set_ex_nx t (node_db st1 (address c)) k v secs) as [[| |msg] db'];
    simpl in *; by rewrite node_db_set_node_db.
Qed.

Lemma Client_Eval_other ctx (src : script) kj (tokj : string) (rest : list arg) t st
    ki (e : entry) :
  live t (node_db st (address c)) ki = Some e →
  (ki = kj → entry_value e ≠ tokj) →
  node_db (snd (Client_Eval c ctx src 1 (ArgString kj :: ArgString tokj :: rest) t st))
          (address c) !! ki
  = node_db st (address c) !! ki.
Proof.
  intros Hl Hown. unfold Client_Eval.
  pose proof (node_db_next_event st (address c)) as Hn.
  destruct (next_event st) as [ev st1]. simpl in Hn. rewrite <- Hn in *.
  pose proof (run_script_other src t (node_db st1 (address c)) kj tokj rest ki e Hl Hown) as Hs.
  destruct (fault ev); simpl; try done;
    destruct (run_script src 1 _ t (node_db st1 (address c))) as [[n|msg] db'];
    simpl in *; by rewrite node_db_set_node_db.
Qed.

(** A conditional set that came back without error found no live record
    and wrote its own. *)
Lemma Client_SetNX_success ctx k (v : string) (secs : Z) t st (n : Z) (lat : N) st' :
  Client_SetNX c ctx k v secs t st = ((n, None), lat, st') →
  live t (node_db st (address c)) k = None
  ∧ node_db st' (address c) !! k = Some (mkEntry v (t + secs * Second)).
Proof.
  unfold Client_SetNX.
  pose proof (node_db_next_event st (address c)) as Hn.
  destruct (next_event st) as [ev st1]. simpl in Hn. rewrite <- Hn.
  unfold redis_set_ex_nx.
  destruct (fault ev); try (intros H; by inversion H).
  - destruct (secs <=? 0); [intros H; by inversion H|].
    destruct (live t (node_db st1 (address c)) k); intros H; inversion H; subst.
    split; [done|]. rewrite node_db_set_node_db. by rewrite lookup_insert_eq.
  - destruct (secs <=? 0); [intros H; by inversion H|].
    destruct (live t (node_db st1 (address c)) k); intros H; by inversion H.
Qed.
End ClientEffects.

Section StoreAfterCall.
Context {S : Type}.
Implicit Types (r : RedisLock S) (w : World S) (ctx : context).

Lemma tryLock_client_state r ctx w :
  client_state (snd (tryLock r ctx w))
  = snd (SetNX (client r) ctx (getLockKey r) (token r) (expireSeconds (lockOptions r))
               (now w) (client_state w)).
Proof.
  unfold tryLock, call_SetNX.
  destruct (SetNX (client r) ctx _ _ _ (now w) (client_state w)) as [[[n err] lat] s'].
  destruct err as [e|]; [|done]. by destruct (errors_Is e RedisNil).
Qed.

Lemma DelayExpire_client_state r ctx (secs : Z) w :
  client_state (snd (DelayExpire r ctx secs w))
  = snd (Eval (client r) ctx LuaCheckAndExpireDistributionLock 1
              [ArgString (getLockKey r); ArgString (token r); ArgInt secs]
              (now w) (client_state w)).
Proof.
  unfold DelayExpire, call_Eval.
  destruct (Eval (client r) ctx _ 1 _ (now w) (client_state w)) as [[[rep err] lat] s'].
  destruct err as [e|]; [done|]. by destruct (negb (reply_int64 rep =? 1)).
Qed.

Lemma Unlock_client_state r ctx w :
  client_state (snd (Unlock r ctx w))
  = snd (Eval (client r) ctx LuaCheckAndDeleteDistributionLock 1
              [ArgString (getLockKey r); ArgString (token r)]
              (now w) (client_state w)).
Proof.
  unfold Unlock, call_Eval.
  destruct (Eval (client r) ctx _ 1 _ (now w) (client_state w)) as [[[rep err] lat] s'].
  destruct (stopDog r); simpl; [|done]. by rewrite client_state_cancel.
Qed.

Lemma tryLock_nil r ctx w :
  fst (tryLock r ctx w) = None →
  ∃ n lat s',
    SetNX (client r) ctx (getLockKey r) (token r) (expireSeconds (lockOptions r))
          (now w) (client_state w) = ((n, None), lat, s').
Proof.
  unfold tryLock, call_SetNX.
  destruct (SetNX (client r) ctx _ _ _ (now w) (client_state w)) as [[[n err] lat] s'].
  destruct err as [e|]; [|eauto].
  by destruct (errors_Is e RedisNil).
Qed.
End StoreAfterCall.

Section Exclusion.
Context {I : Type}.
Variables (net_name node pass : string).
Variables (lock_key lock_token : I → string).
Hypothesis own_token :
  ∀ i j, lock_key i = lock_key j → lock_token i = lock_token j → i = j.

Local Abbreviation contender' := (contender net_name node pass lock_key lock_token).
Local Abbreviation holds' := (holds node lock_key lock_token).
Local Abbreviation record_at' := (record_at node lock_key).
Local Abbreviation perform' := (perform net_name node pass lock_key lock_token).

Lemma holds_record (w : World Redis) (i : I) :
  holds' w i → ∃ e, record_at' w i = Some e ∧ entry_value e = lock_token i.
Proof.
  unfold holds. destruct (record_at' w i) as [e|]; simpl; [|done].
  intros H. exists e. split; [done | congruence].
Qed.

Lemma holds_unique (w : World Redis) (i j : I) :
  lock_key i = lock_key j → holds' w i → holds' w j → i = j.
Proof.
  intros Hk Hi Hj. apply own_token; [done|].
  unfold holds, record_at in *. rewrite Hk in Hi. congruence.
Qed.

Lemma tryLock_success_gate (w : World Redis) (i : I) (o : LockOptions) (rd : Z)
    (sd : option nat) (ctx : context) :
  fst (tryLock (contender' i o rd sd) ctx w) = None →
  record_at' w i = None
  ∧ (∀ j, lock_key j = lock_key i → ¬ holds' w j)
  ∧ node_db (client_state (snd (tryLock (contender' i o rd sd) ctx w))) node
      !! (RedisLockKeyPrefix +:+ lock_key i)
    = Some (mkEntry (lock_token i) (now w + expireSeconds o * Second)).
Proof.
  intros H. destruct (tryLock_nil _ _ _ H) as [n [lat [s' Hs]]].
  rewrite tryLock_client_state. simpl in *. rewrite Hs. simpl.
  apply Client_SetNX_success in Hs as [Hnone Hrec]. simpl in *.
  split; [done|]. split; [|done].
  intros j Hk Hj. destruct (holds_record w j Hj) as [e [He _]].
  unfold record_at in He. rewrite Hk in He.
  unfold getLockKey in Hnone. simpl in Hnone. congruence.
Qed.

Lemma perform_other (w : World Redis) (i : I) (a : store_op) (o : LockOptions)
    (rd : Z) (sd : option nat) (ctx : context) :
  actor a ≠ i →
  holds' w i →
  node_db (client_state (perform' a o rd sd ctx w)) node
    !! (RedisLockKeyPrefix +:+ lock_key i)
  = node_db (client_state w) node !! (RedisLockKeyPrefix +:+ lock_key i).
Proof.
  intros Hne Hi. destruct (holds_record w i Hi) as [e [He Hv]].
  unfold record_at in He.
  assert (Hown : ∀ j, j ≠ i →
            RedisLockKeyPrefix +:+ lock_key i = RedisLockKeyPrefix +:+ lock_key j →
            entry_value e ≠ lock_token j).
  { intros j Hj Hk Ht. apply Hj. apply own_token; [|congruence].
    symmetry. by apply append_inj_l in Hk. }
  destruct a as [j|j secs|j]; simpl in Hne; unfold perform.
  - rewrite tryLock_client_state. simpl.
    by apply (Client_SetNX_other (mkClient net_name node pass)) with (e := e).
  - rewrite DelayExpire_client_state. simpl.
    apply (Client_Eval_other (mkClient net_name node pass)) with (e := e); [done|].
    by apply Hown.
  - rewrite Unlock_client_state. simpl.
    apply (Client_Eval_other (mkClient net_name node pass)) with (e := e); [done|].
    by apply Hown.
Qed.
Local Abbreviation run' := (run net_name node pass lock_key lock_token).
Local Abbreviation step_world' := (step_world net_name node pass lock_key lock_token).

Lemma step_world_now (s : step) (w : World Redis) : now w ≤ now (step_world' s w).
Proof.
  destruct s as [[j|j secs|j] o rd sd ctx|d]; simpl.
  - apply tryLock_runtime.
  - apply DelayExpire_runtime.
  - apply Unlock_runtime.
  - lia.
Qed.

Lemma run_now (steps : list step) (w : World Redis) : now w ≤ now (run' steps w).
Proof.
  revert w. induction steps as [|s steps IH]; intros w; simpl; [done|].
  etrans; [apply (step_world_now s)|apply IH].
Qed.

(** The record of a holder stays as it is through any run of the other
    instances that ends before the record expires. *)
Lemma holder_stays_until_expiry (i : I) (e : entry) (steps : list step) (w : World Redis) :
  Forall (by_others i) steps →
  node_db (client_state w) node !! (RedisLockKeyPrefix +:+ lock_key i) = Some e →
  entry_value e = lock_token i →
  now (run' steps w) < entry_expire_at e →
  node_db (client_state (run' steps w)) node !! (RedisLockKeyPrefix +:+ lock_key i) = Some e
  ∧ holds' (run' steps w) i.
Proof.
  intros Hall Hrec Hv. revert w Hrec.
  induction Hall as [|s steps Hs Hall IH]; intros w Hrec Hexp; simpl in *.
  - split; [done|]. unfold holds, record_at, live. rewrite Hrec.
    apply Z.ltb_lt in Hexp. rewrite Hexp. simpl. by rewrite Hv.
  - apply IH; [|done].
    pose proof (run_now steps (step_world' s w)) as H1.
    pose proof (step_world_now s w) as H2.
    assert (Hh : holds' w i).
    { unfold holds, record_at, live. rewrite Hrec.
      replace (now w <? entry_expire_at e) with true by (symmetry; apply Z.ltb_lt; lia).
      simpl. by rewrite Hv. }
    destruct s as [a o rd sd ctx|d]; simpl in *.
    + rewrite <- Hrec. by apply perform_other.
    + done.
Qed.
End Exclusion.

(** C1. Instances contend on one node, each with its own token per key.
    Then at any instant at most one of the instances on a key holds it
    (has its token in the unexpired record there); a [tryLock] succeeds
    only when there is no unexpired record at the prefixed key, so none
    with another instance's token, and writes the record of the caller;
    no [tryLock], [DelayExpire] or [Unlock] of another instance changes
    the record of a holder; and so a holder remains the holder through
    any run of the others until its record expires. *)
Theorem at_most_one_holder {I : Type} (net_name node pass : string)
    (lock_key lock_token : I → string) :
  (∀ i j, lock_key i = lock_key j → lock_token i = lock_token j → i = j) →
  (∀ (w : World Redis) i j,
      lock_key i = lock_key j →
      holds node lock_key lock_token w i → holds node lock_key lock_token w j → i = j)
  ∧ (∀ (w : World Redis) i o rd sd ctx,
        fst (tryLock (contender net_name node pass lock_key lock_token i o rd sd) ctx w) = None →
        record_at node lock_key w i = None
        ∧ (∀ j, lock_key j = lock_key i → ¬ holds node lock_key lock_token w j)
        ∧ node_db (client_state
                     (snd (tryLock (contender net_name node pass lock_key lock_token i o rd sd)
                             ctx w))) node
            !! (RedisLockKeyPrefix +:+ lock_key i)
          = Some (mkEntry (lock_token i) (now w + expireSeconds o * Second)))
  ∧ (∀ (w : World Redis) i a o rd sd ctx,
        actor a ≠ i →
        holds node lock_key lock_token w i →
        node_db (client_state (perform net_name node pass lock_key lock_token a o rd sd ctx w))
                node !! (RedisLockKeyPrefix +:+ lock_key i)
        = node_db (client_state w) node !! (RedisLockKeyPrefix +:+ lock_key i))
  ∧ (∀ (w : World Redis) i e steps,
        Forall (by_others i) steps →
        node_db (client_state w) node !! (RedisLockKeyPrefix +:+ lock_key i) = Some e →
        entry_value e = lock_token i →
        now (run net_name node pass lock_key lock_token steps w) < entry_expire_at e →
        holds node lock_key lock_token
              (run net_name node pass lock_key lock_token steps w) i).
Proof.
  intros own. split; [|split; [|split]].
  - intros w i j. by apply holds_unique.
  - intros w i o rd sd ctx. apply tryLock_success_gate.
  - intros w i a o rd sd ctx. by apply perform_other.
  - intros w i e steps Hall Hrec Hv Hexp.
    by apply (holder_stays_until_expiry net_name node pass lock_key lock_token own i e).
Qed.

(** Two instances on "test_key" with the tokens "1_1" and "1_2", in
    the world where the first has taken the key: the first holds it, the
    second does not. *)
Lemma at_most_one_holder_witness :
  holds "10.0.0.1:6379" two_keys two_tokens world_held true
  ∧ ¬ holds "10.0.0.1:6379" two_keys two_tokens world_held false.
Proof.
  assert (H1 : holds "10.0.0.1:6379" two_keys two_tokens world_held true)
    by (vm_compute; reflexivity).
  split; [exact H1|]. intros H2.
  pose proof (proj1 (at_most_one_holder "tcp" "10.0.0.1:6379" "" two_keys two_tokens
                       ltac:(intros [] []; vm_compute; congruence))
                world_held true false eq_refl H1 H2) as Heq.
  discriminate Heq.
Defined.

(* ===================================================================== *)
(** * Further properties of the code *)
(* ===================================================================== *)

(** ** Options *)

(** X1. [repairLock] leaves options in normal form: the lifetime is
    positive, a blocking lock has a positive wait budget, the mode is
    kept, and repairing again changes nothing. *)
Theorem repairLock_normal_form (lo : LockOptions) :
  0 < expireSeconds (repairLock lo)
  ∧ (isBlock (repairLock lo) = true → 0 < blockWaitingSeconds (repairLock lo))
  ∧ isBlock (repairLock lo) = isBlock lo
  ∧ repairLock (repairLock lo) = repairLock lo.
Proof.
  unfold repairLock, DefaultLockExpireSeconds. destruct lo as [b w e d]. simpl.
  destruct b; simpl;
    destruct (Z.leb_spec w 0); simpl;
    destruct (Z.ltb_spec 0 e); simpl;
    repeat match goal with
           | |- context [?a <=? ?b] => destruct (Z.leb_spec a b); simpl
           | |- context [?a <? ?b] => destruct (Z.ltb_spec a b); simpl
           end;
    repeat split; try done; try lia.
Qed.

(** X2. A new lock keeps an explicit positive lifetime and runs no
    watchdog; with no positive lifetime given it gets the default of ten
    seconds and watchdog mode.  It starts with the flag at 0 and a nil
    [stopDog], under the key given and the caller's token. *)
Theorem NewRedisLock_mode {S : Type} (g : caller) (k : string) (cl : LockClient S)
    (opts : list LockOption) :
  let e := expireSeconds (foldl applyLockOption zeroLockOptions opts) in
  let r := NewRedisLock g k cl opts in
  (if 0 <? e
   then expireSeconds (lockOptions r) = e ∧ watchDogMode (lockOptions r) = false
   else expireSeconds (lockOptions r) = DefaultLockExpireSeconds
        ∧ watchDogMode (lockOptions r) = true)
  ∧ runningDog r = 0 ∧ stopDog r = None
  ∧ key r = k ∧ token r = GetProcessAndGoroutineIDStr g.
Proof.
  intros e r. split; [|done].
  pose proof (foldl_applyLockOption_watchDogMode opts zeroLockOptions) as Hm.
  subst r. unfold NewRedisLock. simpl. fold e. simpl in Hm.
  unfold repairLock.
  set (lo := foldl applyLockOption zeroLockOptions opts) in *.
  destruct (isBlock lo && (blockWaitingSeconds lo <=? 0)); simpl;
    fold e; destruct (0 <? e); simpl; auto.
Qed.

Lemma foldl_applyLockOption_expire_kept (post : list LockOption) (lo : LockOptions) :
  forallb (λ o, negb (sets_expire o)) post = true →
  expireSeconds (foldl applyLockOption lo post) = expireSeconds lo.
Proof.
  revert lo. induction post as [|o post IH]; intros lo H; simpl in *; [done|].
  apply andb_true_iff in H as [Ho Hp]. rewrite IH by done. by destruct o.
Qed.

Lemma foldl_applyLockOption_waiting_kept (post : list LockOption) (lo : LockOptions) :
  forallb (λ o, negb (sets_waiting o)) post = true →
  blockWaitingSeconds (foldl applyLockOption lo post) = blockWaitingSeconds lo.
Proof.
  revert lo. induction post as [|o post IH]; intros lo H; simpl in *; [done|].
  apply andb_true_iff in H as [Ho Hp]. rewrite IH by done. by destruct o.
Qed.

Lemma foldl_applyLockOption_isBlock (opts : list LockOption) (lo : LockOptions) :
  isBlock (foldl applyLockOption lo opts)
  = isBlock lo || existsb (λ o, match o with WithBlock => true | _ => false end) opts.
Proof.
  revert lo. induction opts as [|o opts IH]; intros lo; simpl; [by rewrite orb_false_r|].
  rewrite IH. destruct o; simpl; try done. by destruct (isBlock lo).
Qed.

(** X3. Options are applied in the order given: of several
    [WithExpireSeconds] or [WithBlockWaitingSeconds] the last one counts,
    and blocking mode, once asked for by a [WithBlock] anywhere in the
    list, stays on. *)
Theorem lock_options_last_wins (pre post : list LockOption) (s : Z) :
  (forallb (λ o, negb (sets_expire o)) post = true →
   expireSeconds (foldl applyLockOption zeroLockOptions (pre ++ WithExpireSeconds s :: post)) = s)
  ∧ (forallb (λ o, negb (sets_waiting o)) post = true →
     blockWaitingSeconds
       (foldl applyLockOption zeroLockOptions (pre ++ WithBlockWaitingSeconds s :: post)) = s)
  ∧ isBlock (foldl applyLockOption zeroLockOptions (pre ++ WithBlock :: post)) = true.
Proof.
  split; [|split].
  - intros H. rewrite foldl_app. simpl. by rewrite foldl_applyLockOption_expire_kept.
  - intros H. rewrite foldl_app. simpl. by rewrite foldl_applyLockOption_waiting_kept.
  - rewrite foldl_applyLockOption_isBlock, existsb_app. simpl.
    by rewrite orb_true_r.
Qed.

Lemma lock_options_last_wins_witness :
  expireSeconds
    (foldl applyLockOption zeroLockOptions
       ([WithExpireSeconds 30; WithBlock] ++ WithExpireSeconds 1 :: [WithBlockWaitingSeconds 10]))
  = 1.
Proof.
  apply (proj1 (lock_options_last_wins [WithExpireSeconds 30; WithBlock]
                  [WithBlockWaitingSeconds 10] 1)).
  reflexivity.
Defined.

Lemma repairClient_fields (c : ClientOptions) :
  maxIdle (repairClient c) = (if maxIdle c <? 0 then DefaultMaxIdle else maxIdle c)
  ∧ idleTimeoutSeconds (repairClient c)
    = (if idleTimeoutSeconds c <? 0 then DefaultIdleTimeoutSeconds else idleTimeoutSeconds c)
  ∧ maxActive (repairClient c)
    = (if maxActive c <? 0 then DefaultMaxActive else maxActive c)
  ∧ wait (repairClient c) = wait c.
Proof.
  unfold repairClient. destruct c as [mi it ma wt n a p].
  cbn [maxIdle idleTimeoutSeconds maxActive wait opt_network opt_address opt_password].
  destruct (mi <? 0);
    cbn [maxIdle idleTimeoutSeconds maxActive wait opt_network opt_address opt_password];
    destruct (it <? 0);
    cbn [maxIdle idleTimeoutSeconds maxActive wait opt_network opt_address opt_password];
    destruct (ma <? 0); done.
Qed.

Lemma repairClient_unchanged (c : ClientOptions) :
  0 ≤ maxIdle c → 0 ≤ idleTimeoutSeconds c → 0 ≤ maxActive c → repairClient c = c.
Proof.
  intros H1 H2 H3. unfold repairClient.
  replace (maxIdle c <? 0) with false by (symmetry; apply Z.ltb_ge; lia).
  replace (idleTimeoutSeconds c <? 0) with false by (symmetry; apply Z.ltb_ge; lia).
  replace (maxActive c <? 0) with false by (symmetry; apply Z.ltb_ge; lia).
  reflexivity.
Qed.

(** X4. [repairClient] replaces a negative pool size or idle timeout by
    its default (20 idle, 10 seconds, 100 active) and keeps every other
    value, zero included; the repaired values are never negative, and
    repairing again changes nothing.  So a client built without options
    has a pool of zero idle and zero active connections without idle
    timeout, not the defaults. *)
Theorem repairClient_normal_form (c : ClientOptions) :
  maxIdle (repairClient c) = (if maxIdle c <? 0 then DefaultMaxIdle else maxIdle c)
  ∧ idleTimeoutSeconds (repairClient c)
    = (if idleTimeoutSeconds c <? 0 then DefaultIdleTimeoutSeconds else idleTimeoutSeconds c)
  ∧ maxActive (repairClient c)
    = (if maxActive c <? 0 then DefaultMaxActive else maxActive c)
  ∧ wait (repairClient c) = wait c
  ∧ 0 ≤ maxIdle (repairClient c)
  ∧ 0 ≤ idleTimeoutSeconds (repairClient c)
  ∧ 0 ≤ maxActive (repairClient c)
  ∧ repairClient (repairClient c) = repairClient c
  ∧ (∀ n a p, NewClient_pool n a p [] = mkPool 0 0 0 false).
Proof.
  destruct (repairClient_fields c) as (H1 & H2 & H3 & H4).
  assert (G1 : 0 ≤ maxIdle (repairClient c)).
  { rewrite H1. unfold DefaultMaxIdle. destruct (Z.ltb_spec (maxIdle c) 0); lia. }
  assert (G2 : 0 ≤ idleTimeoutSeconds (repairClient c)).
  { rewrite H2. unfold DefaultIdleTimeoutSeconds.
    destruct (Z.ltb_spec (idleTimeoutSeconds c) 0); lia. }
  assert (G3 : 0 ≤ maxActive (repairClient c)).
  { rewrite H3. unfold DefaultMaxActive. destruct (Z.ltb_spec (maxActive c) 0); lia. }
  repeat (split; [done|]). split; [by apply repairClient_unchanged|].
  intros n a p. vm_compute. reflexivity.
Qed.

Lemma NewRedisLock_single_expire {S : Type} (g : caller) (k : string)
    (cl : LockClient S) (s : Z) :
  lockOptions (NewRedisLock g k cl [WithExpireSeconds s])
  = if 0 <? s then mkLockOptions false 0 s false
    else mkLockOptions false 0 DefaultLockExpireSeconds true.
Proof.
  unfold NewRedisLock, repairLock. simpl. by destruct (0 <? s).
Qed.

(** X5. Every member of a quorum lock is built for the key given, with
    the token of the constructing goroutine (one token for all members),
    never in blocking mode, and with the seconds of the lease as its
    lifetime, as [int64(d.Seconds())] has them: computed in float64 and
    then cut to an integer.  A lease of a second or more gives a positive
    lifetime and no watchdog; a lease under one second (or none) gives
    members with the default lifetime in watchdog mode. *)
Theorem NewRedLock_members (g : caller) (k : string) (confs : list SingleNodeConf)
    (opts : list RedLockOption) (rl : RedLock) :
  NewRedLock g k confs opts = inl rl →
  ∀ l, l ∈ locks rl →
    key l = k
    ∧ token l = GetProcessAndGoroutineIDStr g
    ∧ isBlock (lockOptions l) = false
    ∧ stopDog l = None ∧ runningDog l = 0
    ∧ (if Second <=? expireDuration (redLockOptionsOf opts)
       then expireSeconds (lockOptions l)
            = Duration_Seconds (expireDuration (redLockOptionsOf opts))
            ∧ watchDogMode (lockOptions l) = false
       else expireSeconds (lockOptions l) = DefaultLockExpireSeconds
            ∧ watchDogMode (lockOptions l) = true).
Proof.
  intros Hnew l Hl. unfold NewRedLock in Hnew. fold (redLockOptionsOf opts) in Hnew.
  destruct (Z.of_nat (length confs) <? 3); [done|].
  destruct (_ && _); [done|]. inversion Hnew; subst rl; clear Hnew. simpl in Hl.
  apply list_elem_of_In, in_map_iff in Hl as [conf [<- _]].
  set (d := expireDuration (redLockOptionsOf opts)).
  rewrite NewRedisLock_single_expire.
  split; [done|]. split; [done|].
  destruct (Z.leb_spec Second d) as [Hd|Hd].
  - pose proof (Duration_Seconds_pos d Hd) as Hp. apply Z.ltb_lt in Hp. by rewrite Hp.
  - pose proof (Duration_Seconds_nonpos d Hd) as Hq.
    replace (0 <? Duration_Seconds d) with false by (symmetry; apply Z.ltb_ge; lia).
    done.
Qed.

Lemma NewRedLock_members_witness :
  match NewRedLock (mkCaller 1 1) "test_key" three_nodes test_redLock_options with
  | inl rl =>
      match locks rl with
      | l :: _ =>
          key l = "test_key"
          ∧ token l = "1_1"
          ∧ isBlock (lockOptions l) = false
          ∧ expireSeconds (lockOptions l) = 10
          ∧ watchDogMode (lockOptions l) = false
      | [] => False
      end
  | inr _ => False
  end.
Proof.
  pose proof (NewRedLock_members (mkCaller 1 1) "test_key" three_nodes test_redLock_options)
    as H.
  rewrite NewRedLock_accepted in * by (vm_compute; reflexivity).
  specialize (H _ eq_refl). simpl locks in *.
  destruct (H _ ltac:(apply elem_of_cons; left; reflexivity)) as (Hk & Ht & Hb & _ & _ & He).
  replace (Second <=? expireDuration (redLockOptionsOf test_redLock_options)) with true in He
    by (vm_compute; reflexivity).
  destruct He as [He Hw].
  split; [exact Hk|]. split; [exact Ht|]. split; [exact Hb|]. split; [|exact Hw].
  rewrite He. vm_compute. reflexivity.
Defined.

(** ** The lock against the store *)

Section OnRedis.
Variables (n a p : string).
Implicit Types (r : RedisLock Redis) (w : World Redis) (ctx : context).

Lemma tryLock_on_redis r ctx w :
  client r = NewClient n a p →
  net_ok w →
  tryLock r ctx w =
    (match fst (redis_set_ex_nx (now w) (db_of w a) (getLockKey r) (token r)
                  (expireSeconds (lockOptions r))) with
     | SetOK => None
     | SetNilReply =>
         Some (Errorf "redis.ErrNil 代表执行 redis SETNX 失败，未获取到锁，可重试: reply: %d, err: %w"
                      ErrLockAcquiredByOthers)
     | SetError msg => Some (External msg)
     end,
     elapse (latency (fst (next_event (client_state w))))
       (set_client_state
          (set_node_db a
             (snd (redis_set_ex_nx (now w) (db_of w a) (getLockKey r) (token r)
                     (expireSeconds (lockOptions r))))
             (snd (next_event (client_state w)))) w)).
Proof.
  intros Hc Hok. unfold tryLock, call_SetNX, net_ok, db_of in *. rewrite Hc. simpl.
  unfold Client_SetNX. simpl.
  pose proof (node_db_next_event (client_state w) a) as Hn.
  destruct (next_event (client_state w)) as [ev st1]. simpl in *. rewrite Hok, Hn.
  by destruct (redis_set_ex_nx (now w) (node_db (client_state w) a) _ _ _) as [[| |msg] db'].
Qed.

Lemma call_Eval_on_redis r ctx (src : script) (kaa : list arg) w :
  client r = NewClient n a p →
  net_ok w →
  call_Eval r ctx src 1 kaa w =
    (match fst (run_script src 1 kaa (now w) (db_of w a)) with
     | ScriptInt k => (ReplyInt k, None)
     | ScriptError msg => (ReplyNil, Some (External msg))
     end,
     elapse (latency (fst (next_event (client_state w))))
       (set_client_state
          (set_node_db a (snd (run_script src 1 kaa (now w) (db_of w a)))
             (snd (next_event (client_state w)))) w)).
Proof.
  intros Hc Hok. unfold call_Eval, net_ok, db_of in *. rewrite Hc. simpl.
  unfold Client_Eval. simpl.
  pose proof (node_db_next_event (client_state w) a) as Hn.
  destruct (next_event (client_state w)) as [ev st1]. simpl in *. rewrite Hok, Hn.
  by destruct (run_script src 1 kaa (now w) (node_db (client_state w) a)) as [[k|msg] db'].
Qed.

Lemma db_of_after_call (lat : N) (db : gmap string entry) (st : Redis) w :
  db_of (elapse lat (set_client_state (set_node_db a db st) w)) a = db.
Proof. unfold db_of. simpl. apply node_db_set_node_db. Qed.

Lemma run_script_delete r (t : Z) (db : gmap string entry) :
  run_script LuaCheckAndDeleteDistributionLock 1
    [ArgString (getLockKey r); ArgString (token r)] t db
  = match live t db (getLockKey r) with
    | Some e =>
        if bool_decide (entry_value e = token r)
        then (ScriptInt 1, delete (getLockKey r) db)
        else (ScriptInt 0, db)
    | None => (ScriptInt 0, db)
    end.
Proof.
  unfold run_script, split_keys, lua_check_and_delete, redis_get, redis_del. simpl.
  destruct (live t db (getLockKey r)) as [e|]; simpl; [|done].
  by destruct (bool_decide (entry_value e = token r)).
Qed.

Lemma run_script_expire r (secs t : Z) (db : gmap string entry) :
  run_script LuaCheckAndExpireDistributionLock 1
    [ArgString (getLockKey r); ArgString (token r); ArgInt secs] t db
  = match live t db (getLockKey r) with
    | Some e =>
        if bool_decide (entry_value e = token r)
        then (ScriptInt 1,
              if secs <=? 0 then delete (getLockKey r) db
              else <[getLockKey r := mkEntry (entry_value e) (t + secs * Second)]> db)
        else (ScriptInt 0, db)
    | None => (ScriptInt 0, db)
    end.
Proof.
  unfold run_script, split_keys, lua_check_and_expire, redis_get, redis_expire. simpl.
  destruct (live t db (getLockKey r)) as [e|]; simpl; [|done].
  by destruct (bool_decide (entry_value e = token r)).
Qed.
End OnRedis.

(** X6. Against a node that answers, a lock with a positive lifetime
    acquires exactly when the key has no unexpired record: then [tryLock]
    returns nil and the node holds the caller's token until now plus the
    lifetime.  Otherwise it returns a retryable error and the node is
    unchanged, whoever's token the record carries (the caller's own
    included: the lock is not reentrant).  This is for a client with an
    address and a lock with a token: on an empty address the dial panics,
    on an empty token [Client.SetNX] does. *)
Theorem tryLock_free_or_contended (n a p : string) (r : RedisLock Redis)
    (ctx : context) (w : World Redis) :
  client r = NewClient n a p →
  getRedisConn_panics (mkClient n a p) = false →
  SetNX_panics (getLockKey r) (token r) = false →
  net_ok w →
  0 < expireSeconds (lockOptions r) →
  match live (now w) (db_of w a) (getLockKey r) with
  | None =>
      fst (tryLock r ctx w) = None
      ∧ db_of (snd (tryLock r ctx w)) a
        = <[getLockKey r := mkEntry (token r)
                              (now w + expireSeconds (lockOptions r) * Second)]> (db_of w a)
  | Some _ =>
      (∃ e, fst (tryLock r ctx w) = Some e ∧ IsRetryableErr e = true)
      ∧ db_of (snd (tryLock r ctx w)) a = db_of w a
  end.
Proof.
  intros Hc _ _ Hok Hpos. rewrite (tryLock_on_redis n a p) by done. simpl.
  rewrite db_of_after_call. unfold redis_set_ex_nx.
  replace (expireSeconds (lockOptions r) <=? 0) with false
    by (symmetry; apply Z.leb_gt; lia).
  destruct (live (now w) (db_of w a) (getLockKey r)); simpl; [|done].
  split; [|done]. eexists. split; reflexivity.
Qed.

Lemma tryLock_free_or_contended_witness :
  (∃ e, fst (tryLock watchdog_lock Background world_held) = Some e
        ∧ IsRetryableErr e = true)
  ∧ db_of (snd (tryLock watchdog_lock Background world_held)) "10.0.0.1:6379"
    = db_of world_held "10.0.0.1:6379".
Proof.
  pose proof (tryLock_free_or_contended "tcp" "10.0.0.1:6379" "" watchdog_lock Background
                world_held eq_refl eq_refl ltac:(vm_compute; reflexivity) eq_refl
                ltac:(vm_compute; reflexivity)) as H.
  destruct (live (now world_held) (db_of world_held "10.0.0.1:6379")
              (getLockKey watchdog_lock)) as [e|] eqn:E.
  - exact H.
  - vm_compute in E. discriminate E.
Defined.

(** X7. Against a node that answers, [DelayExpire] returns nil exactly
    when the unexpired record at the key carries the caller's token, and
    then the record expires at now plus the seconds asked for (for seconds
    that are not positive the record is removed).  In every other case it
    returns the ownership error and the node is unchanged.  This is for a
    client with an address: on an empty one the dial panics. *)
Theorem DelayExpire_on_store (n a p : string) (r : RedisLock Redis) (ctx : context)
    (secs : Z) (w : World Redis) :
  client r = NewClient n a p →
  getRedisConn_panics (mkClient n a p) = false →
  net_ok w →
  match live (now w) (db_of w a) (getLockKey r) with
  | Some e =>
      if bool_decide (entry_value e = token r)
      then fst (DelayExpire r ctx secs w) = None
           ∧ db_of (snd (DelayExpire r ctx secs w)) a
             = (if secs <=? 0 then delete (getLockKey r) (db_of w a)
                else <[getLockKey r := mkEntry (token r) (now w + secs * Second)]> (db_of w a))
      else fst (DelayExpire r ctx secs w) = Some ownership_error_expire
           ∧ db_of (snd (DelayExpire r ctx secs w)) a = db_of w a
  | None =>
      fst (DelayExpire r ctx secs w) = Some ownership_error_expire
      ∧ db_of (snd (DelayExpire r ctx secs w)) a = db_of w a
  end.
Proof.
  intros Hc _ Hok. unfold DelayExpire.
  rewrite (call_Eval_on_redis n a p) by done. rewrite run_script_expire.
  destruct (live (now w) (db_of w a) (getLockKey r)) as [e|]; simpl.
  - destruct (bool_decide_reflect (entry_value e = token r)) as [He|He]; simpl;
      rewrite db_of_after_call; [|done]. by rewrite He.
  - by rewrite db_of_after_call.
Qed.

Lemma DelayExpire_on_store_witness :
  fst (DelayExpire explicit_ttl_lock Background 6 world_held) = None
  ∧ db_of (snd (DelayExpire explicit_ttl_lock Background 6 world_held)) "10.0.0.1:6379"
    = <[getLockKey explicit_ttl_lock :=
          mkEntry (token explicit_ttl_lock) (now world_held + 6 * Second)]>
        (db_of world_held "10.0.0.1:6379").
Proof.
  pose proof (DelayExpire_on_store "tcp" "10.0.0.1:6379" "" explicit_ttl_lock Background 6
                world_held eq_refl eq_refl eq_refl) as H.
  destruct (live (now world_held) (db_of world_held "10.0.0.1:6379")
              (getLockKey explicit_ttl_lock)) as [e|] eqn:E;
    [|vm_compute in E; discriminate E].
  assert (He : entry_value e = token explicit_ttl_lock).
  { vm_compute in E. inversion E. reflexivity. }
  rewrite bool_decide_eq_true_2 in H by exact He. exact H.
Defined.

(** X8. Against a node that answers, [Unlock] on a lock whose [stopDog]
    is set returns nil exactly when the unexpired record at the key
    carries the caller's token, and then the record is removed.  In every
    other case (no record, an expired one, another token) it returns the
    ownership error and the node is unchanged.  In both cases [stopDog]
    has been called. *)
Theorem Unlock_on_store (n a p : string) (r : RedisLock Redis) (ctx : context)
    (w : World Redis) (id : nat) :
  client r = NewClient n a p →
  net_ok w →
  stopDog r = Some id →
  is_Some (cancel_time (cancelled (snd (Unlock r ctx w))) id)
  ∧ match live (now w) (db_of w a) (getLockKey r) with
    | Some e =>
        if bool_decide (entry_value e = token r)
        then fst (Unlock r ctx w) = Returned None
             ∧ db_of (snd (Unlock r ctx w)) a = delete (getLockKey r) (db_of w a)
        else fst (Unlock r ctx w) = Returned (Some ownership_error_unlock)
             ∧ db_of (snd (Unlock r ctx w)) a = db_of w a
    | None =>
        fst (Unlock r ctx w) = Returned (Some ownership_error_unlock)
        ∧ db_of (snd (Unlock r ctx w)) a = db_of w a
    end.
Proof.
  intros Hc Hok Hs. unfold Unlock.
  rewrite (call_Eval_on_redis n a p) by done. rewrite run_script_delete, Hs.
  destruct (live (now w) (db_of w a) (getLockKey r)) as [e|];
    [destruct (bool_decide (entry_value e = token r))|]; simpl;
    (split;
     [rewrite cancel_time_cancel_same; eauto
     |split; [done|];
      unfold db_of; rewrite client_state_cancel; simpl; apply node_db_set_node_db]).
Qed.

Lemma Unlock_on_store_witness :
  fst (Unlock started_lock Background world_watched) = Returned None
  ∧ db_of (snd (Unlock started_lock Background world_watched)) "10.0.0.1:6379"
    = delete (getLockKey started_lock) (db_of world_watched "10.0.0.1:6379").
Proof.
  pose proof (Unlock_on_store "tcp" "10.0.0.1:6379" "" started_lock Background
                world_watched 0%nat eq_refl eq_refl eq_refl) as [_ H].
  destruct (live (now world_watched) (db_of world_watched "10.0.0.1:6379")
              (getLockKey started_lock)) as [e|] eqn:E;
    [|vm_compute in E; discriminate E].
  assert (He : entry_value e = token started_lock).
  { vm_compute in E. inversion E. reflexivity. }
  rewrite bool_decide_eq_true_2 in H by exact He. exact H.
Defined.

Section RoundTrip.
Context {S : Type}.
Implicit Types (r : RedisLock S) (w : World S) (ctx : context).

(** A [Lock] whose single attempt succeeds on a lock in watchdog mode
    with a free flag: the struct and the world it leaves. *)
Lemma Lock_success_shape r ctx (ticks : list (tick S)) w w1 :
  tryLock r ctx w = (None, w1) →
  watchDogMode (lockOptions r) = true →
  runningDog r = 0 →
  Lock r ctx ticks w
  = Some (None,
          mkRedisLock (lockOptions r) (key r) (token r) (client r) 1 (Some (next_id w1)),
          spawn (mkGoroutine (key r) (token r) (WithCancel (next_id w1) ctx))
                (snd (fresh_id w1))).
Proof.
  intros Ht Hm Hz. unfold Lock, Lock_deferred, watchDog, CompareAndSwapInt32.
  rewrite Ht, Hm, Hz. reflexivity.
Qed.
End RoundTrip.

(** X9. Lock and Unlock compose to a round trip.  On a free key and a
    node that answers, [Lock] of a lock in watchdog mode succeeds and
    leaves the caller's record on the node; an [Unlock] before that record
    expires returns nil and removes it; and then [tryLock] of any other
    lock on the same key and node succeeds at once.  This is for a client
    with an address and locks with a token: on an empty address the dial
    panics, on an empty token [Client.SetNX] does. *)
Theorem Lock_Unlock_round_trip (n a p : string) (r : RedisLock Redis)
    (ctx ctx2 : context) (ticks : list (tick Redis)) (w : World Redis) :
  client r = NewClient n a p →
  getRedisConn_panics (mkClient n a p) = false →
  SetNX_panics (getLockKey r) (token r) = false →
  watchDogMode (lockOptions r) = true →
  runningDog r = 0 →
  0 < expireSeconds (lockOptions r) →
  net_ok w →
  live (now w) (db_of w a) (getLockKey r) = None →
  ∃ r' w1,
    Lock r ctx ticks w = Some (None, r', w1)
    ∧ db_of w1 a !! getLockKey r
      = Some (mkEntry (token r) (now w + expireSeconds (lockOptions r) * Second))
    ∧ (net_ok w1 →
       now w1 < now w + expireSeconds (lockOptions r) * Second →
       fst (Unlock r' ctx2 w1) = Returned None
       ∧ db_of (snd (Unlock r' ctx2 w1)) a = delete (getLockKey r) (db_of w a)
       ∧ ∀ r2 ctx3,
           client r2 = NewClient n a p →
           SetNX_panics (getLockKey r2) (token r2) = false →
           key r2 = key r →
           0 < expireSeconds (lockOptions r2) →
           net_ok (snd (Unlock r' ctx2 w1)) →
           fst (tryLock r2 ctx3 (snd (Unlock r' ctx2 w1))) = None).
Proof.
  intros Hc _ _ Hm Hz Hpos Hok Hfree.
  pose proof (tryLock_on_redis n a p r ctx w Hc Hok) as Ht.
  unfold redis_set_ex_nx in Ht.
  replace (expireSeconds (lockOptions r) <=? 0) with false in Ht
    by (symmetry; apply Z.leb_gt; lia).
  rewrite Hfree in Ht. simpl in Ht.
  set (e := mkEntry (token r) (now w + expireSeconds (lockOptions r) * Second)) in *.
  set (lat := latency (fst (next_event (client_state w)))) in *.
  set (wt := elapse lat _) in Ht.
  set (r' := mkRedisLock (lockOptions r) (key r) (token r) (client r) 1 (Some (next_id wt))).
  set (w1 := spawn (mkGoroutine (key r) (token r) (WithCancel (next_id wt) ctx))
                   (snd (fresh_id wt))).
  exists r', w1. split; [by apply Lock_success_shape|].
  assert (Hdb : db_of w1 a = <[getLockKey r := e]> (db_of w a)).
  { unfold w1, wt, db_of. simpl. apply node_db_set_node_db. }
  assert (Hnow : now w1 = now w + Z.of_N lat) by reflexivity.
  split; [by rewrite Hdb, lookup_insert_eq|].
  intros Hok1 Hexp.
  assert (Hlive : live (now w1) (db_of w1 a) (getLockKey r') = Some e).
  { unfold live. change (getLockKey r') with (getLockKey r).
    rewrite Hdb, lookup_insert_eq.
    assert (Hlt : (now w1 <? entry_expire_at e) = true)
      by (apply Z.ltb_lt; subst e; simpl; lia).
    by rewrite Hlt. }
  set (w2 := cancel (next_id wt)
               (elapse (latency (fst (next_event (client_state w1))))
                  (set_client_state
                     (set_node_db a (delete (getLockKey r) (db_of w1 a))
                        (snd (next_event (client_state w1)))) w1))).
  assert (HU : Unlock r' ctx2 w1 = (Returned None, w2)).
  { unfold Unlock. rewrite (call_Eval_on_redis n a p) by done.
    rewrite run_script_delete, Hlive.
    rewrite bool_decide_eq_true_2 by (by subst e). reflexivity. }
  rewrite HU. simpl. split; [done|].
  assert (Hdb2 : db_of w2 a = delete (getLockKey r) (db_of w a)).
  { unfold w2, db_of at 1. rewrite client_state_cancel. simpl.
    rewrite node_db_set_node_db, Hdb. apply delete_insert_eq. }
  split; [exact Hdb2|].
  intros r2 ctx3 Hc2 _ Hk Hpos2 Hok2.
  rewrite (tryLock_on_redis n a p) by done. simpl.
  unfold redis_set_ex_nx.
  replace (expireSeconds (lockOptions r2) <=? 0) with false
    by (symmetry; apply Z.leb_gt; lia).
  rewrite Hdb2. unfold live, getLockKey. rewrite Hk. fold (getLockKey r).
  by rewrite lookup_delete_eq.
Qed.

Lemma Lock_Unlock_round_trip_witness :
  ∃ r' w1, Lock watchdog_lock Background [] world0 = Some (None, r', w1)
           ∧ fst (Unlock r' Background w1) = Returned None.
Proof.
  destruct (Lock_Unlock_round_trip "tcp" "10.0.0.1:6379" "" watchdog_lock Background
              Background [] world0 eq_refl eq_refl ltac:(vm_compute; reflexivity)
              eq_refl eq_refl
              ltac:(vm_compute; reflexivity) eq_refl ltac:(vm_compute; reflexivity))
    as (r' & w1 & HL & _ & HU).
  exists r', w1. split; [exact HL|].
  assert (E : match Lock watchdog_lock Background [] world0 with
              | Some (_, _, w) =>
                  fault (fst (next_event (client_state w))) = NetOk
                  ∧ (now w <? now world0 + expireSeconds (lockOptions watchdog_lock) * Second)
                    = true
              | None => False
              end) by (vm_compute; split; reflexivity).
  rewrite HL in E. destruct E as [E1 E2].
  apply HU; [exact E1 | by apply Z.ltb_lt].
Defined.

(** ** How the process state moves on *)

Section Later.
Context {S : Type}.
Implicit Types (r : RedisLock S) (w : World S) (ctx : context).

Lemma later_refl w : later w w.
Proof. unfold later. split; [lia|]. split; auto. Qed.

Lemma later_trans w1 w2 w3 : later w1 w2 → later w2 w3 → later w1 w3.
Proof.
  intros (H1 & H2 & H3) (G1 & G2 & G3). split; [lia|]. split; auto.
Qed.

Lemma later_same_cancels w w' :
  now w ≤ now w' → cancelled w' = cancelled w → later w w'.
Proof.
  intros Hn Hc. split; [done|]. split; [by rewrite Hc|].
  intros Hp id t Ht. rewrite Hc in Ht. specialize (Hp id t Ht). lia.
Qed.

Lemma later_cancel w (id : nat) : later w (cancel id w).
Proof.
  split; [by rewrite now_cancel|]. split.
  - intros id' t Ht. destruct (decide (id' = id)) as [->|Hne].
    + rewrite cancel_time_cancel_same, Ht. done.
    + by rewrite cancel_time_cancel.
  - intros Hp id' t Ht. rewrite now_cancel.
    destruct (decide (id' = id)) as [->|Hne].
    + rewrite cancel_time_cancel_same in Ht. inversion Ht; subst.
      destruct (cancel_time (cancelled w) id) as [t0|] eqn:E; simpl; [by eapply Hp|lia].
    + rewrite cancel_time_cancel in Ht by done. by eapply Hp.
Qed.

Lemma later_foldr_cancel w (ids : list nat) : later w (foldr cancel w ids).
Proof.
  induction ids as [|i ids IH]; simpl; [apply later_refl|].
  eapply later_trans; [exact IH | apply later_cancel].
Qed.

Lemma later_foldl_cancel w (ids : list nat) :
  later w (foldl (λ w id, cancel id w) w ids).
Proof.
  revert w. induction ids as [|i ids IH]; intros w; simpl; [apply later_refl|].
  eapply later_trans; [apply later_cancel | apply IH].
Qed.

Lemma later_arrive (start period n : Z) (tk : tick S) w :
  later w (arrive start period n tk w).
Proof.
  unfold arrive.
  eapply later_trans; [|apply later_same_cancels; [|reflexivity]; simpl; lia].
  eapply later_trans; [|apply later_foldr_cancel].
  apply later_same_cancels; [simpl; lia | reflexivity].
Qed.

Lemma later_tryLock r ctx w : later w (snd (tryLock r ctx w)).
Proof.
  destruct (tryLock_runtime r ctx w) as [Hc Hn]. by apply later_same_cancels.
Qed.

Lemma later_DelayExpire r ctx (secs : Z) w : later w (snd (DelayExpire r ctx secs w)).
Proof.
  destruct (DelayExpire_runtime r ctx secs w) as [Hc Hn]. by apply later_same_cancels.
Qed.

Lemma later_Unlock r ctx w : later w (snd (Unlock r ctx w)).
Proof.
  unfold Unlock.
  pose proof (call_Eval_runtime r ctx LuaCheckAndDeleteDistributionLock 1
                [ArgString (getLockKey r); ArgString (token r)] w) as [Hc Hn].
  destruct (call_Eval r ctx LuaCheckAndDeleteDistributionLock 1 _ w) as [[rep err] w1].
  simpl in *. destruct (stopDog r) as [id|]; simpl.
  - eapply later_trans; [by apply later_same_cancels | apply later_cancel].
  - by apply later_same_cancels.
Qed.

Lemma later_blockingLock_loop r ctx (start timeout n : Z) (ticks : list (tick S)) w res w' :
  blockingLock_loop r ctx start timeout n ticks w = Some (res, w') → later w w'.
Proof.
  revert n w. induction ticks as [|tk rest IH]; intros n w H; [done|].
  rewrite blockingLock_loop_cons in H.
  pose proof (later_arrive start (50 * Millisecond) n tk w) as Ha.
  set (w1 := arrive start (50 * Millisecond) n tk w) in *. clearbody w1.
  destruct (ctx_Err w1 ctx), (_ <=? _);
    [destruct (tick_pick tk); inversion H; subst; exact Ha
    |inversion H; subst; exact Ha
    |inversion H; subst; exact Ha
    |].
  pose proof (later_tryLock r ctx w1) as Ht.
  destruct (tryLock r ctx w1) as [[e|] w2]; simpl in Ht.
  - destruct (negb (IsRetryableErr e)).
    + inversion H; subst. by eapply later_trans.
    + eapply later_trans; [exact Ha|]. eapply later_trans; [exact Ht|]. by eapply IH.
  - inversion H; subst. by eapply later_trans.
Qed.

Lemma later_Lock_deferred r ctx err w err' r' w' :
  Lock_deferred r ctx err w = Some (err', r', w') → later w w'.
Proof.
  unfold Lock_deferred, watchDog, CompareAndSwapInt32.
  destruct err; [intros H; inversion H; apply later_refl|].
  destruct (negb (watchDogMode (lockOptions r))); [intros H; inversion H; apply later_refl|].
  destruct (runningDog r =? 0); [|done].
  intros H. inversion H; subst. by apply later_same_cancels.
Qed.

Lemma later_Lock r ctx (ticks : list (tick S)) w err r' w' :
  Lock r ctx ticks w = Some (err, r', w') → later w w'.
Proof.
  unfold Lock. pose proof (later_tryLock r ctx w) as Ht.
  destruct (tryLock r ctx w) as [[e|] w1]; simpl in Ht; intros H.
  - destruct (negb (isBlock (lockOptions r)));
      [eapply later_trans; [exact Ht|by eapply later_Lock_deferred]|].
    destruct (negb (IsRetryableErr e));
      [eapply later_trans; [exact Ht|by eapply later_Lock_deferred]|].
    destruct (blockingLock r ctx ticks w1) as [[err' w2]|] eqn:Hb; [|done].
    eapply later_trans; [exact Ht|].
    eapply later_trans; [by eapply later_blockingLock_loop|by eapply later_Lock_deferred].
  - eapply later_trans; [exact Ht|by eapply later_Lock_deferred].
Qed.

(** Once called, a cancel function stays called; once done, a context
    stays done. *)
Lemma cancel_called_later w w' (id : nat) :
  later w w' → cancel_called w id = true → cancel_called w' id = true.
Proof.
  intros (Hn & Hc & _). unfold cancel_called.
  destruct (cancel_time (cancelled w) id) as [t|] eqn:E; [|done].
  rewrite (Hc id t E). intros Ht. apply Z.leb_le in Ht. apply Z.leb_le. lia.
Qed.

Lemma ctx_Done_WithTimeout w (id : nat) (deadline : Z) ctx :
  ctx_Done w (WithTimeout id deadline ctx)
  = ctx_Done w ctx || (cancel_called w id || (deadline <=? now w)).
Proof.
  rewrite !ctx_Done_fired. simpl.
  by rewrite !fired_at_earliest, fired_at_own_cancel.
Qed.

Lemma ctx_Done_later w w' ctx :
  later w w' → ctx_Done w ctx = true → ctx_Done w' ctx = true.
Proof.
  intros Hl. induction ctx as [|id p IH|id d p IH].
  - done.
  - rewrite !ctx_Done_WithCancel. intros H. apply orb_true_iff in H as [H|H].
    + by rewrite IH.
    + rewrite (cancel_called_later w w' id Hl H). apply orb_true_r.
  - rewrite !ctx_Done_WithTimeout. intros H.
    apply orb_true_iff in H as [H|H]; [by rewrite IH|].
    apply orb_true_iff in H as [H|H].
    + rewrite (cancel_called_later w w' id Hl H). by rewrite orb_true_r.
    + destruct Hl as [Hn _]. apply Z.leb_le in H.
      replace (d <=? now w') with true by (symmetry; apply Z.leb_le; lia).
      by rewrite !orb_true_r.
Qed.

Lemma ctx_Done_of_called_id w ctx (id : nat) :
  id ∈ ctx_ids ctx → cancel_called w id = true → ctx_Done w ctx = true.
Proof.
  intros Hin Hc. induction ctx as [|i p IH|i d p IH]; simpl in Hin.
  - by apply elem_of_nil in Hin.
  - rewrite ctx_Done_WithCancel. apply elem_of_cons in Hin as [->|Hin].
    + rewrite Hc. apply orb_true_r.
    + by rewrite IH.
  - rewrite ctx_Done_WithTimeout. apply elem_of_cons in Hin as [->|Hin].
    + rewrite Hc. by rewrite orb_true_r.
    + by rewrite IH.
Qed.

Lemma cancel_called_cancel w (id : nat) :
  cancels_in_past w → cancel_called (cancel id w) id = true.
Proof.
  intros Hp. unfold cancel_called. rewrite cancel_time_cancel_same, now_cancel.
  apply Z.leb_le.
  destruct (cancel_time (cancelled w) id) as [t|] eqn:E; simpl; [by eapply Hp|lia].
Qed.

Lemma cancel_called_foldl_cancel w (ids : list nat) (id : nat) :
  cancels_in_past w → id ∈ ids →
  cancel_called (foldl (λ w id, cancel id w) w ids) id = true.
Proof.
  revert w. induction ids as [|i ids IH]; intros w Hp Hin; simpl.
  - by apply elem_of_nil in Hin.
  - apply elem_of_cons in Hin as [->|Hin].
    + eapply cancel_called_later; [apply later_foldl_cancel|by apply cancel_called_cancel].
    + apply IH; [|done]. by apply (later_cancel w i).
Qed.

(** A watchdog whose context is done returns at its next tick, without
    another renewal. *)
Lemma runWatchDog_loop_done r ctx (start n : Z) (tk : tick S) (rest : list (tick S)) w :
  ctx_Done w ctx = true →
  runWatchDog_loop r ctx start n (tk :: rest) w
  = (true, arrive start (WatchDogWorkStepSeconds * Second) n tk w).
Proof.
  intros Hd. simpl.
  by rewrite (ctx_Done_later w _ ctx (later_arrive start _ n tk w) Hd).
Qed.
End Later.

(** ** The goroutines *)

Section Goroutines.
Context {S : Type}.
Implicit Types (r : RedisLock S) (w : World S) (ctx : context).

Lemma goroutines_cancel w (id : nat) : goroutines (cancel id w) = goroutines w.
Proof. unfold cancel. by destruct (cancel_time (cancelled w) id). Qed.

Lemma goroutines_foldr_cancel w (ids : list nat) :
  goroutines (foldr cancel w ids) = goroutines w.
Proof. induction ids as [|i ids IH]; simpl; [done|]. by rewrite goroutines_cancel. Qed.

Lemma goroutines_foldl_cancel w (ids : list nat) :
  goroutines (foldl (λ w id, cancel id w) w ids) = goroutines w.
Proof.
  revert w. induction ids as [|i ids IH]; intros w; simpl; [done|].
  by rewrite IH, goroutines_cancel.
Qed.

Lemma client_state_foldr_cancel w (ids : list nat) :
  client_state (foldr cancel w ids) = client_state w.
Proof. induction ids as [|i ids IH]; simpl; [done|]. by rewrite client_state_cancel. Qed.

Lemma goroutines_arrive (start period n : Z) (tk : tick S) w :
  goroutines (arrive start period n tk w) = goroutines w.
Proof. unfold arrive. simpl. by rewrite goroutines_foldr_cancel. Qed.

Lemma client_state_arrive (start period n : Z) (tk : tick S) w :
  client_state (arrive start period n tk w) = tick_env tk (client_state w).
Proof. unfold arrive. simpl. by rewrite client_state_foldr_cancel. Qed.

Lemma goroutines_tryLock r ctx w : goroutines (snd (tryLock r ctx w)) = goroutines w.
Proof.
  unfold tryLock, call_SetNX.
  destruct (SetNX (client r) ctx _ _ _ (now w) (client_state w)) as [[[k err] lat] s'].
  destruct err as [e|]; [|done]. by destruct (errors_Is e RedisNil).
Qed.

Lemma goroutines_Unlock r ctx w : goroutines (snd (Unlock r ctx w)) = goroutines w.
Proof.
  unfold Unlock, call_Eval.
  destruct (Eval (client r) ctx _ 1 _ (now w) (client_state w)) as [[[rep err] lat] s'].
  destruct (stopDog r); simpl; [|done]. by rewrite goroutines_cancel.
Qed.

Lemma goroutines_blockingLock_loop r ctx (start timeout n : Z) (ticks : list (tick S))
    w res w' :
  blockingLock_loop r ctx start timeout n ticks w = Some (res, w') →
  goroutines w' = goroutines w.
Proof.
  revert n w. induction ticks as [|tk rest IH]; intros n w H; [done|].
  rewrite blockingLock_loop_cons in H.
  pose proof (goroutines_arrive start (50 * Millisecond) n tk w) as Ha.
  set (w1 := arrive start (50 * Millisecond) n tk w) in *. clearbody w1.
  destruct (ctx_Err w1 ctx), (_ <=? _);
    [destruct (tick_pick tk); inversion H; subst; exact Ha
    |inversion H; subst; exact Ha
    |inversion H; subst; exact Ha
    |].
  pose proof (goroutines_tryLock r ctx w1) as Ht.
  destruct (tryLock r ctx w1) as [[e|] w2]; simpl in Ht.
  - destruct (negb (IsRetryableErr e)).
    + inversion H; subst. congruence.
    + rewrite (IH _ _ H). congruence.
  - inversion H; subst. congruence.
Qed.

Lemma Lock_deferred_outcome r ctx err w err' r' w' :
  Lock_deferred r ctx err w = Some (err', r', w') →
  err' = err
  ∧ if is_nil err && watchDogMode (lockOptions r)
    then runningDog r = 0
         ∧ r' = mkRedisLock (lockOptions r) (key r) (token r) (client r) 1 (Some (next_id w))
         ∧ goroutines w'
           = mkGoroutine (key r) (token r) (WithCancel (next_id w) ctx) :: goroutines w
    else r' = r ∧ w' = w.
Proof.
  unfold Lock_deferred, watchDog, CompareAndSwapInt32.
  destruct err as [e|]; simpl; [intros H; by inversion H|].
  destruct (watchDogMode (lockOptions r)); simpl; [|intros H; by inversion H].
  destruct (Z.eqb_spec (runningDog r) 0) as [Hz|Hz]; [|done].
  intros H. by inversion H.
Qed.
End Goroutines.

Lemma Lock_outcome {S : Type} (r : RedisLock S) (ctx : context)
    (ticks : list (tick S)) (w : World S) err r' w' :
  Lock r ctx ticks w = Some (err, r', w') →
  if is_nil err && watchDogMode (lockOptions r)
  then ∃ id, runningDog r = 0
             ∧ r' = mkRedisLock (lockOptions r) (key r) (token r) (client r) 1 (Some id)
             ∧ goroutines w'
               = mkGoroutine (key r) (token r) (WithCancel id ctx) :: goroutines w
  else r' = r ∧ goroutines w' = goroutines w.
Proof.
  unfold Lock. pose proof (goroutines_tryLock r ctx w) as Ht.
  destruct (tryLock r ctx w) as [[e|] w1]; simpl in Ht; intros H.
  - assert (Hd : ∀ wx, goroutines wx = goroutines w →
                 Lock_deferred r ctx (Some e) wx = Some (err, r', w') →
                 if is_nil err && watchDogMode (lockOptions r)
                 then ∃ id, runningDog r = 0
                       ∧ r' = mkRedisLock (lockOptions r) (key r) (token r) (client r) 1 (Some id)
                       ∧ goroutines w'
                         = mkGoroutine (key r) (token r) (WithCancel id ctx) :: goroutines w
                 else r' = r ∧ goroutines w' = goroutines w).
    { intros wx Hg Hx. apply Lock_deferred_outcome in Hx as [-> Hx]. simpl in *.
      destruct Hx as [-> ->]. done. }
    destruct (negb (isBlock (lockOptions r))); [by eapply Hd|].
    destruct (negb (IsRetryableErr e)); [by eapply Hd|].
    destruct (blockingLock r ctx ticks w1) as [[err' w2]|] eqn:Hb; [|done].
    apply goroutines_blockingLock_loop in Hb.
    apply Lock_deferred_outcome in H as [-> H].
    destruct (is_nil err' && watchDogMode (lockOptions r)).
    + destruct H as (Hz & -> & Hg). eexists. split; [done|]. split; [done|].
      rewrite Hg. congruence.
    + destruct H as [-> ->]. split; [done|congruence].
  - apply Lock_deferred_outcome in H as [-> H].
    destruct (is_nil None && watchDogMode (lockOptions r)).
    + destruct H as (Hz & -> & Hg). eexists. split; [done|]. split; [done|].
      rewrite Hg. congruence.
    + destruct H as [-> ->]. done.
Qed.

(** X10. A [Lock] that returns has started exactly one watchdog goroutine
    when it succeeded on a lock in watchdog mode (the flag was 0 and is
    now 1, [stopDog] is the cancel function of the goroutine's context),
    and otherwise none: then the lock struct and the goroutines are as
    before. *)
Theorem Lock_starts_one_watchdog {S : Type} (r : RedisLock S) (ctx : context)
    (ticks : list (tick S)) (w : World S) err r' w' :
  Lock r ctx ticks w = Some (err, r', w') →
  if is_nil err && watchDogMode (lockOptions r)
  then ∃ id, runningDog r = 0
             ∧ r' = mkRedisLock (lockOptions r) (key r) (token r) (client r) 1 (Some id)
             ∧ goroutines w'
               = mkGoroutine (key r) (token r) (WithCancel id ctx) :: goroutines w
  else r' = r ∧ goroutines w' = goroutines w.
Proof. apply Lock_outcome. Qed.

Lemma Lock_starts_one_watchdog_witness :
  match Lock watchdog_lock Background [] world0 with
  | Some (err, r', w') =>
      ∃ id, runningDog watchdog_lock = 0
            ∧ r' = mkRedisLock (lockOptions watchdog_lock) (key watchdog_lock)
                     (token watchdog_lock) (client watchdog_lock) 1 (Some id)
            ∧ goroutines w'
              = mkGoroutine (key watchdog_lock) (token watchdog_lock)
                  (WithCancel id Background) :: goroutines world0
  | None => False
  end.
Proof.
  assert (E : reported (Lock watchdog_lock Background [] world0) = Some None)
    by (vm_compute; reflexivity).
  destruct (Lock watchdog_lock Background [] world0) as [[[err r'] w']|] eqn:HL;
    [|discriminate E].
  simpl in E. inversion E; subst err.
  exact (Lock_starts_one_watchdog watchdog_lock Background [] world0 None r' w' HL).
Defined.

(** X11. [Unlock] stops the watchdog: after an [Unlock] on the lock, the
    watchdog goroutine of that lock returns at its next tick, without
    another call to the store, and its deferred function resets the flag
    to 0. *)
Theorem Unlock_stops_watchdog {S : Type} (r : RedisLock S) (ctx ctx2 : context)
    (w : World S) (id : nat) (start n : Z) (tk : tick S) (rest : list (tick S)) :
  stopDog r = Some id →
  cancels_in_past w →
  let w1 := snd (Unlock r ctx2 w) in
  runWatchDog_loop r (WithCancel id ctx) start n (tk :: rest) w1
  = (true, arrive start (WatchDogWorkStepSeconds * Second) n tk w1)
  ∧ client_state (arrive start (WatchDogWorkStepSeconds * Second) n tk w1)
    = tick_env tk (client_state w1)
  ∧ watchDog_goroutine r (WithCancel id ctx) (tk :: rest) w1
    = (flag_reset r, true, arrive (now w1) (WatchDogWorkStepSeconds * Second) 1 tk w1).
Proof.
  intros Hs Hp w1.
  assert (Hd : ctx_Done w1 (WithCancel id ctx) = true).
  { rewrite ctx_Done_WithCancel. unfold w1.
    rewrite (Unlock_calls_stopDog r ctx2 w id Hs Hp). apply orb_true_r. }
  split; [by apply runWatchDog_loop_done|]. split; [apply client_state_arrive|].
  unfold watchDog_goroutine, runWatchDog.
  by rewrite runWatchDog_loop_done.
Qed.

Lemma Unlock_stops_watchdog_witness :
  watchDog_goroutine started_lock (WithCancel 0 Background) [quiet_tick]
    (snd (Unlock started_lock Background world_watched))
  = (flag_reset started_lock, true,
     arrive (now (snd (Unlock started_lock Background world_watched)))
       (WatchDogWorkStepSeconds * Second) 1 quiet_tick
       (snd (Unlock started_lock Background world_watched))).
Proof.
  apply (Unlock_stops_watchdog started_lock Background Background world_watched 0%nat
           0 1 quiet_tick [] eq_refl).
  intros id t H. vm_compute in H. discriminate H.
Defined.

(** ** The contexts of the quorum lock *)

Lemma later_RedLock_Unlock_loop (ls : list (RedisLock Redis)) (ctx : context)
    (err : option error) (w : World Redis) :
  later w (snd (RedLock_Unlock_loop ls ctx err w))
  ∧ goroutines (snd (RedLock_Unlock_loop ls ctx err w)) = goroutines w.
Proof.
  revert err w. induction ls as [|l ls IH]; intros err w; simpl.
  - split; [apply later_refl | done].
  - pose proof (later_Unlock l ctx w) as Hl.
    pose proof (goroutines_Unlock l ctx w) as Hg.
    destruct (Unlock l ctx w) as [[res|] w1]; simpl in *; [|done].
    destruct (IH (if is_nil res then err else res) w1) as [Hl2 Hg2].
    split; [by eapply later_trans | congruence].
Qed.

Lemma RedLock_Lock_loop_goroutines (timeout : Z) (ctx : context)
    (ls : list (RedisLock Redis)) (obs : list (list (tick Redis))) (cnt0 : Z)
    (w : World Redis) cnt ls' ids w' :
  RedLock_Lock_loop timeout ctx ls obs cnt0 w = Some (cnt, ls', ids, w') →
  later w w'
  ∧ ∀ g, g ∈ goroutines w' →
         g ∈ goroutines w ∨ ∃ id, id ∈ ids ∧ id ∈ ctx_ids (dog_ctx g).
Proof.
  revert obs cnt0 w cnt ls' ids w'.
  induction ls as [|l ls IH]; intros obs cnt0 w cnt ls' ids w' H; simpl in H.
  - inversion H; subst. split; [apply later_refl | auto].
  - destruct (Lock l _ (hd [] obs) _) as [[[err l'] w2]|] eqn:HL; [|done].
    destruct (RedLock_Lock_loop timeout ctx ls (tl obs) _ w2)
      as [[[[c rest'] deferred] w3]|] eqn:Hloop; [|done].
    inversion H; subst; clear H.
    destruct (IH _ _ _ _ _ _ _ Hloop) as [Hl3 Hg3].
    pose proof (later_Lock _ _ _ _ _ _ _ HL) as Hl2.
    assert (Hl1 : later w (snd (fresh_id w))) by (by apply later_same_cancels).
    split; [exact (later_trans _ _ _ Hl1 (later_trans _ _ _ Hl2 Hl3))|].
    intros g Hg. destruct (Hg3 g Hg) as [Hin|[id [Hid Hc]]].
    + assert (Hcases : goroutines w2 = goroutines w
                       ∨ ∃ id', goroutines w2
                           = mkGoroutine (key l) (token l)
                               (WithCancel id' (WithTimeout (next_id w) (now w + timeout) ctx))
                             :: goroutines w).
      { apply Lock_outcome in HL.
        destruct (is_nil err && watchDogMode (lockOptions l)).
        - destruct HL as (id' & _ & _ & Hgo). right. by exists id'.
        - destruct HL as [_ Hgo]. by left. }
      destruct Hcases as [Heq|[id' Heq]]; rewrite Heq in Hin.
      * by left.
      * apply elem_of_cons in Hin as [->|Hin]; [|by left].
        right. exists (next_id w). split.
        -- apply elem_of_app. right. apply elem_of_cons; by left.
        -- simpl. apply elem_of_cons. right. apply elem_of_cons. by left.
    + right. exists id. split; [|done]. apply elem_of_app. by left.
Qed.

(** X13. When [RedLock.Lock] returns, the deferred cancel functions have
    cancelled the context of every member's [Lock].  A watchdog started
    during the call therefore runs on a context that is already done: it
    returns at its first tick and never renews its lease. *)
Theorem RedLock_Lock_cancels_member_contexts (rl : RedLock) (ctx : context)
    (obs : list (list (tick Redis))) (w : World Redis) out rl' w' :
  cancels_in_past w →
  RedLock_Lock rl ctx obs w = Some (out, rl', w') →
  ∀ g, g ∈ goroutines w' →
       g ∈ goroutines w
       ∨ (ctx_Done w' (dog_ctx g) = true
          ∧ ∀ (r0 : RedisLock Redis) (start n : Z) tk rest,
              runWatchDog_loop r0 (dog_ctx g) start n (tk :: rest) w'
              = (true, arrive start (WatchDogWorkStepSeconds * Second) n tk w')).
Proof.
  intros Hp H g Hg. unfold RedLock_Lock in H.
  destruct (RedLock_Lock_loop _ ctx (locks rl) obs 0 w)
    as [[[[cnt ls'] ids] w1]|] eqn:Hloop; [|done].
  destruct (RedLock_Lock_loop_goroutines _ _ _ _ _ _ _ _ _ _ Hloop) as [Hl1 Hg1].
  assert (Hfin : ∃ wx, later w1 wx ∧ goroutines wx = goroutines w1
                       ∧ w' = foldl (λ w id, cancel id w) wx ids).
  { destruct (cnt <? _).
    - unfold RedLock_Unlock in H. simpl in H.
      destruct (later_RedLock_Unlock_loop ls' ctx None w1) as [Hl2 Hg2].
      destruct (RedLock_Unlock_loop ls' ctx None w1) as [[res|] w2];
        inversion H; subst; by exists w2.
    - inversion H; subst. exists w1. split; [apply later_refl | done]. }
  destruct Hfin as (wx & Hlx & Hgx & ->).
  rewrite goroutines_foldl_cancel, Hgx in Hg.
  destruct (Hg1 g Hg) as [Hin|[id [Hid Hc]]]; [by left|]. right.
  assert (Hpx : cancels_in_past wx).
  { destruct (later_trans _ _ _ Hl1 Hlx) as (_ & _ & Hpp). by apply Hpp. }
  assert (Hd : ctx_Done (foldl (λ w id, cancel id w) wx ids) (dog_ctx g) = true).
  { eapply ctx_Done_of_called_id; [exact Hc|]. by apply cancel_called_foldl_cancel. }
  split; [exact Hd|]. intros r0 start n tk rest. by apply runWatchDog_loop_done.
Qed.

Lemma RedLock_Lock_cancels_member_contexts_witness :
  match RedLock_Lock
          (mkRedLock (redLockOptionsOf [])
             (map (λ conf, NewRedisLock (mkCaller 1 1) "test_key"
                             (NewClient (Network conf) (Address conf) (Password conf))
                             [WithExpireSeconds
                                (Duration_Seconds (expireDuration (redLockOptionsOf [])))])
                  three_nodes))
          Background [] world0 with
  | Some (_, _, w') =>
      match goroutines w' with
      | g :: _ => ctx_Done w' (dog_ctx g) = true
      | [] => False
      end
  | None => False
  end.
Proof.
  set (rl := mkRedLock _ _).
  assert (E : match RedLock_Lock rl Background [] world0 with
              | Some (_, _, w') => length (goroutines w')
              | None => 0%nat
              end = 3%nat) by (vm_compute; reflexivity).
  destruct (RedLock_Lock rl Background [] world0) as [[[out rl'] w']|] eqn:HL;
    [|discriminate E].
  destruct (goroutines w') as [|g gs] eqn:Hgs; [discriminate E|].
  assert (Hp : cancels_in_past world0).
  { intros id t H. vm_compute in H. discriminate H. }
  destruct (RedLock_Lock_cancels_member_contexts rl Background [] world0 out rl' w' Hp HL g)
    as [Hin|[Hd _]].
  - rewrite Hgs. apply elem_of_cons. by left.
  - exfalso. exact (proj1 (elem_of_nil g) Hin).
  - exact Hd.
Defined.

(** ** Which errors are retryable *)

Lemma ctx_cause_sentinel (cs : list (nat * Z)) (ctx : context) (t : Z) (s : sentinel) :
  ctx_cause cs ctx = Some (t, s) → s = Canceled ∨ s = DeadlineExceeded.
Proof.
  revert t s. induction ctx as [|id p IH|id d p IH]; intros t s; simpl; [done| |].
  - unfold own_cancel.
    destruct (ctx_cause cs p) as [[tp sp]|], (cancel_time cs id) as [tc|]; simpl;
      try destruct (tp <=? tc); intros H; inversion H; subst; eauto.
  - unfold own_cancel.
    destruct (ctx_cause cs p) as [[tp sp]|], (cancel_time cs id) as [tc|]; simpl;
      repeat match goal with |- context [?x <=? ?y] => destruct (x <=? y) end;
      intros H; inversion H; subst; eauto.
Qed.

Lemma ctx_Err_not_retryable {S : Type} (w : World S) (ctx : context) (e : error) :
  ctx_Err w ctx = Some e → e = Sentinel Canceled ∨ e = Sentinel DeadlineExceeded.
Proof.
  unfold ctx_Err. destruct (ctx_cause (cancelled w) ctx) as [[t s]|] eqn:E; [|done].
  destruct (t <=? now w); [|done]. intros H. inversion H; subst.
  destruct (ctx_cause_sentinel _ _ _ _ E) as [->| ->]; auto.
Qed.

(** X15. Of the errors the poll loop of [blockingLock] ends with, only
    the wait timeout passes [IsRetryableErr]: it wraps the contention
    sentinel.  The cancellation error wraps [context.Canceled] or
    [context.DeadlineExceeded] and is not retryable, and an error that
    aborts the loop is not retryable either.  So in blocking mode every
    retryable error [Lock] returns is the wait timeout. *)
Theorem blocking_retryable_is_wait_timeout {S : Type} (r : RedisLock S) (ctx : context)
    (ticks : list (tick S)) (w : World S) :
  (∀ e w', blockingLock r ctx ticks w = Some (Some e, w') →
           (IsRetryableErr e = true ↔ e = wait_timeout_error))
  ∧ (∀ e r' w', isBlock (lockOptions r) = true →
                Lock r ctx ticks w = Some (Some e, r', w') →
                IsRetryableErr e = true → e = wait_timeout_error).
Proof.
  assert (Hloop : ∀ wx e w', blockingLock r ctx ticks wx = Some (Some e, w') →
                             (IsRetryableErr e = true ↔ e = wait_timeout_error)).
  { intros wx e w' H. unfold blockingLock in H.
    apply blockingLock_loop_end in H as [Hend _].
    inversion Hend as [| e0 w1 Hctx | | e0 w1 w2 Htry Hnr]; subst.
    - destruct (ctx_Err_not_retryable _ _ _ Hctx) as [->| ->];
        split; intros Hx; discriminate Hx.
    - split; reflexivity.
    - split; [congruence|]. intros ->. discriminate Hnr. }
  split; [apply Hloop|].
  intros e r' w' Hb H Hr. unfold Lock in H. rewrite Hb in H. simpl in H.
  destruct (tryLock r ctx w) as [[e0|] w1].
  - destruct (IsRetryableErr e0) eqn:Hr0; simpl in H.
    + destruct (blockingLock r ctx ticks w1) as [[err' w2]|] eqn:Hbl; [|done].
      pose proof (Lock_deferred_result _ _ _ _ _ _ _ H) as He. subst err'.
      by apply (Hloop w1 e w2).
    + inversion H; subst. congruence.
  - unfold Lock_deferred in H. destruct (watchDog r ctx w1) as [[? ?]|]; inversion H.
Qed.

(** ** Tokens *)

Lemma no_underscore_pretty_N_go (x : N) (s : string) :
  no_underscore s = true → no_underscore (pretty_N_go x s) = true.
Proof.
  revert s. induction (N.lt_wf_0 x) as [x _ IH]; intros s Hs.
  assert (x = 0 ∨ 0 < x)%N as [->|Hx] by lia.
  - by rewrite pretty_N_go_0.
  - rewrite pretty_N_go_step by done. apply IH; [by apply N.div_lt|].
    simpl. rewrite Hs, andb_true_r.
    unfold pretty_N_char. by repeat case_match.
Qed.

Lemma no_underscore_pretty_nat (x : nat) : no_underscore (pretty x) = true.
Proof.
  unfold pretty, pretty_nat, pretty, pretty_N.
  case_decide; [reflexivity|]. by apply no_underscore_pretty_N_go.
Qed.

Lemma append_underscore_inj (s1 s2 t1 t2 : string) :
  no_underscore s1 = true → no_underscore s2 = true →
  s1 +:+ "_" +:+ t1 = s2 +:+ "_" +:+ t2 → s1 = s2 ∧ t1 = t2.
Proof.
  revert s2. induction s1 as [|c s1 IH]; intros [|c2 s2] H1 H2 H; simpl in *.
  - by inversion H.
  - inversion H; subst. by rewrite Ascii.eqb_refl in H2.
  - inversion H; subst. by rewrite Ascii.eqb_refl in H1.
  - inversion H; subst.
    apply andb_true_iff in H1 as [_ H1]. apply andb_true_iff in H2 as [_ H2].
    destruct (IH s2 H1 H2) as [-> ->]; done.
Qed.

(** X17. [tryLock] never trips the guard of [Client.SetNX]: the key it
    sends carries the prefix and the value is the token, which holds the
    underscore, so neither is empty, whatever key the caller chose. *)
Theorem tryLock_passes_SetNX_guard {S : Type} (g : caller) (k : string)
    (cl : LockClient S) (opts : list LockOption) :
  SetNX_panics (getLockKey (NewRedisLock g k cl opts))
               (token (NewRedisLock g k cl opts)) = false.
Proof.
  unfold SetNX_panics, getLockKey, NewRedisLock, GetProcessAndGoroutineIDStr. cbn [key token].
  apply orb_false_iff. split; [reflexivity|].
  by destruct (pretty (pid g)).
Qed.

(** ** The watchdog and the lease *)

Lemma net_within_next_event (d : Z) (st : Redis) :
  0 < d →
  net_within d st →
  net_within d (snd (next_event st))
  ∧ fault (fst (next_event st)) = NetOk
  ∧ Z.of_N (latency (fst (next_event st))) < d.
Proof.
  intros Hd. unfold net_within, next_event. destruct st as [nodes0 [|ev evs]]; simpl.
  - intros _. split; [constructor|]. split; [done|lia].
  - intros H. inversion H as [|? ? [Hf Hl] Hrest]; subst. done.
Qed.

Section Renewal.
Variables (n a p : string).
Implicit Types (r : RedisLock Redis) (w : World Redis) (ctx : context).

(** A renewal by the owner of an unexpired record, on a good network. *)
Lemma DelayExpire_renews r ctx (secs : Z) w (E d : Z) :
  client r = NewClient n a p →
  0 < d →
  net_within d (client_state w) →
  0 < secs →
  db_of w a !! getLockKey r = Some (mkEntry (token r) E) →
  now w < E →
  let w' := snd (DelayExpire r ctx secs w) in
  fst (DelayExpire r ctx secs w) = None
  ∧ db_of w' a !! getLockKey r = Some (mkEntry (token r) (now w + secs * Second))
  ∧ net_within d (client_state w')
  ∧ now w ≤ now w' < now w + d.
Proof.
  intros Hc Hd Hg Hs Hrec Hlt.
  destruct (net_within_next_event d _ Hd Hg) as (Hg' & Hok & Hlat).
  unfold DelayExpire.
  rewrite (call_Eval_on_redis n a p) by done. rewrite run_script_expire.
  unfold live. rewrite Hrec. simpl.
  replace (now w <? E) with true by (symmetry; apply Z.ltb_lt; lia).
  rewrite bool_decide_eq_true_2 by done. simpl.
  replace (secs <=? 0) with false by (symmetry; apply Z.leb_gt; lia).
  split; [done|]. split; [|split].
  - unfold db_of. simpl. by rewrite node_db_set_node_db, lookup_insert_eq.
  - unfold net_within, set_node_db in *. simpl. exact Hg'.
  - simpl. lia.
Qed.

Lemma watchdog_renews_run r ctx (start k : Z) (ticks : list (tick Redis)) w (E : Z) :
  client r = NewClient n a p →
  no_deadline ctx = true →
  (∀ id, id ∈ ctx_ids ctx →
         cancel_time (cancelled w) id = None
         ∧ ∀ tk, tk ∈ ticks → id ∉ tick_cancels tk) →
  Forall (calm_tick (3 * Second) a (getLockKey r)) ticks →
  net_within (3 * Second) (client_state w) →
  db_of w a !! getLockKey r = Some (mkEntry (token r) E) →
  now w + WatchDogWorkStepSeconds * Second ≤ E →
  start + WatchDogWorkStepSeconds * Second * k + WatchDogWorkStepSeconds * Second ≤ E →
  let w' := snd (runWatchDog_loop r ctx start k ticks w) in
  fst (runWatchDog_loop r ctx start k ticks w) = false
  ∧ ∃ E', db_of w' a !! getLockKey r = Some (mkEntry (token r) E')
          ∧ now w' + WatchDogWorkStepSeconds * Second ≤ E'.
Proof.
  intros Hc Hnd. revert k w E.
  induction ticks as [|tk rest IH]; intros k w E Hids Hcalm Hg Hrec H1 H2.
  - simpl. split; [done|]. by exists E.
  - inversion Hcalm as [|? ? [Hdelay Henv] Hcalm']; subst.
    set (w1 := arrive start (WatchDogWorkStepSeconds * Second) k tk w).
    assert (Hq : ctx_Done w1 ctx = false).
    { rewrite ctx_Done_fired, ctx_cause_unsignalled; [done..|].
      intros id Hid. destruct (Hids id Hid) as [Hcn Ht]. unfold w1.
      rewrite cancelled_arrive; [done|]. apply Ht. by apply elem_of_cons; left. }
    rewrite runWatchDog_loop_continues by exact Hq. fold w1.
    destruct (Henv _ Hg) as [Hg1 Hdb1].
    assert (Hs1 : client_state w1 = tick_env tk (client_state w))
      by apply client_state_arrive.
    assert (Hn1 : now w1 = Z.max (now w) (start + WatchDogWorkStepSeconds * Second * k)
                           + Z.of_N (tick_delay tk)) by apply now_arrive.
    assert (Hrec1 : db_of w1 a !! getLockKey r = Some (mkEntry (token r) E)).
    { unfold db_of. rewrite Hs1, Hdb1. exact Hrec. }
    assert (Hg1' : net_within (3 * Second) (client_state w1)) by (by rewrite Hs1).
    assert (Hlt : now w1 < E) by (unfold WatchDogWorkStepSeconds in *; lia).
    destruct (DelayExpire_renews r ctx (WatchDogWorkStepSeconds + 3) w1 E (3 * Second) Hc
                ltac:(unfold Second; lia) Hg1'
                ltac:(unfold WatchDogWorkStepSeconds; lia) Hrec1 Hlt)
      as (_ & Hrec2 & Hg2 & Hn2).
    apply (IH (k + 1) _ (now w1 + (WatchDogWorkStepSeconds + 3) * Second)); try done.
    + intros id Hid. destruct (Hids id Hid) as [Hcn Ht]. split.
      * destruct (DelayExpire_runtime r ctx (WatchDogWorkStepSeconds + 3) w1) as [-> _].
        unfold w1. rewrite cancelled_arrive; [done|]. apply Ht. by apply elem_of_cons; left.
      * intros tk' Htk'. apply Ht. by apply elem_of_cons; right.
    + unfold WatchDogWorkStepSeconds, Second in *. lia.
    + unfold WatchDogWorkStepSeconds, Second in *. lia.
Qed.
End Renewal.

(** X12. The watchdog keeps the lease alive.  Take a lock that owns the
    record at its key with at least six seconds to go, a watchdog context
    that is not signalled, a network whose round trips go well within
    three seconds, and ticks less than three seconds late.  Then after any
    number of ticks the watchdog is still running, every renewal went
    through, and the record still carries the lock's token with at least
    three seconds to go. *)
Theorem watchdog_keeps_lease_alive (n a p : string) (r : RedisLock Redis) (ctx : context)
    (ticks : list (tick Redis)) (w : World Redis) (E : Z) :
  client r = NewClient n a p →
  no_deadline ctx = true →
  (∀ id, id ∈ ctx_ids ctx →
         cancel_time (cancelled w) id = None
         ∧ ∀ tk, tk ∈ ticks → id ∉ tick_cancels tk) →
  Forall (calm_tick (3 * Second) a (getLockKey r)) ticks →
  net_within (3 * Second) (client_state w) →
  db_of w a !! getLockKey r = Some (mkEntry (token r) E) →
  now w + 6 * Second ≤ E →
  let w' := snd (runWatchDog r ctx ticks w) in
  fst (runWatchDog r ctx ticks w) = false
  ∧ ∃ E', db_of w' a !! getLockKey r = Some (mkEntry (token r) E')
          ∧ now w' + 3 * Second ≤ E'.
Proof.
  intros Hc Hnd Hids Hcalm Hg Hrec HE. unfold runWatchDog.
  apply (watchdog_renews_run n a p r ctx (now w) 1 ticks w E); try done;
    unfold WatchDogWorkStepSeconds, Second in *; lia.
Qed.

Lemma watchdog_keeps_lease_alive_witness :
  fst (runWatchDog started_lock (WithCancel 0 Background)
         [quiet_tick; quiet_tick; quiet_tick] world_watched) = false
  ∧ ∃ E', db_of (snd (runWatchDog started_lock (WithCancel 0 Background)
                        [quiet_tick; quiet_tick; quiet_tick] world_watched))
                "10.0.0.1:6379" !! getLockKey started_lock
          = Some (mkEntry (token started_lock) E')
          ∧ now (snd (runWatchDog started_lock (WithCancel 0 Background)
                        [quiet_tick; quiet_tick; quiet_tick] world_watched))
            + 3 * Second ≤ E'.
Proof.
  assert (Hcalm : calm_tick (3 * Second) "10.0.0.1:6379" (getLockKey started_lock)
                            quiet_tick).
  { split; [vm_compute; reflexivity|]. intros st Hst. split; [exact Hst|reflexivity]. }
  apply (watchdog_keeps_lease_alive "tcp" "10.0.0.1:6379" "" started_lock
           (WithCancel 0 Background) [quiet_tick; quiet_tick; quiet_tick] world_watched
           (10 * Second) eq_refl eq_refl).
  - intros id Hid. split; [reflexivity|]. intros tk Htk Hin.
    repeat (apply elem_of_cons in Htk as [->|Htk];
            [exact (proj1 (elem_of_nil id) Hin)|]).
    exact (proj1 (elem_of_nil tk) Htk).
  - repeat (constructor; [exact Hcalm|]). constructor.
  - unfold net_within. replace (net (client_state world_watched)) with (@nil net_event)
      by (vm_compute; reflexivity). constructor.
  - vm_compute. reflexivity.
  - vm_compute. discriminate.
Defined.

(** ** The quorum lock and records that are held *)

Lemma node_db_set_node_db_ne (addr addr' : string) (db : gmap string entry) (st : Redis) :
  addr ≠ addr' → node_db (set_node_db addr db st) addr' = node_db st addr'.
Proof. intros Hne. unfold node_db, set_node_db. simpl. by rewrite lookup_insert_ne. Qed.

Lemma filter_length_mono {A : Type} (f h : A → bool) (l : list A) :
  (∀ x, f x = true → h x = true) →
  (length (List.filter f l) ≤ length (List.filter h l))%nat.
Proof.
  intros Hfh. induction l as [|x l IH]; simpl; [done|].
  destruct (f x) eqn:Hf.
  - rewrite (Hfh x Hf). simpl. lia.
  - destruct (h x); simpl; lia.
Qed.

Section Taken.
Variable c : Client.
Implicit Types (st : Redis) (t : Z) (ctx : context).

(** A set-if-absent call leaves a live record where it is, whatever node
    it goes to and however the round trip goes. *)
Lemma Client_SetNX_keeps_live ctx k (v : string) (secs : Z) t st (addr : string) ki
    (e : entry) :
  node_db st addr !! ki = Some e →
  t < entry_expire_at e →
  node_db (snd (Client_SetNX c ctx k v secs t st)) addr !! ki = Some e.
Proof.
  intros Hrec Ht.
  destruct (decide (address c = addr)) as [<-|Hne].
  - rewrite Client_SetNX_other with (e := e); [done|].
    unfold live. rewrite Hrec. by replace (t <? entry_expire_at e) with true
      by (symmetry; apply Z.ltb_lt; lia).
  - unfold Client_SetNX.
    pose proof (node_db_next_event st addr) as Hn.
    destruct (next_event st) as [ev st1]. simpl in Hn.
    destruct (fault ev); simpl; try (by rewrite Hn);
      destruct (redis_set_ex_nx t (node_db st1 (address c)) k v secs) as [[| |msg] db'];
      simpl; by rewrite node_db_set_node_db_ne, Hn.
Qed.

(** A set-if-absent call for a key with a live record reports an error. *)
Lemma Client_SetNX_live_fails ctx k (v : string) (secs : Z) t st (e : entry) :
  node_db st (address c) !! k = Some e →
  t < entry_expire_at e →
  snd (fst (fst (Client_SetNX c ctx k v secs t st))) ≠ None.
Proof.
  intros Hrec Ht. unfold Client_SetNX.
  pose proof (node_db_next_event st (address c)) as Hn.
  destruct (next_event st) as [ev st1]. simpl in Hn.
  destruct (fault ev); simpl; try done.
  - unfold redis_set_ex_nx. destruct (secs <=? 0); [done|].
    unfold live. rewrite Hn, Hrec.
    by replace (t <? entry_expire_at e) with true by (symmetry; apply Z.ltb_lt; lia).
  - by destruct (redis_set_ex_nx t (node_db st1 (address c)) k v secs) as [[| |msg] db'].
Qed.
End Taken.

Section TakenLock.
Variables (n a p : string).
Implicit Types (r : RedisLock Redis) (w : World Redis) (ctx : context).

Lemma tryLock_keeps_live r ctx w (addr : string) ki (e : entry) :
  client r = NewClient n a p →
  db_of w addr !! ki = Some e →
  now w < entry_expire_at e →
  db_of (snd (tryLock r ctx w)) addr !! ki = Some e.
Proof.
  intros Hc Hrec Ht. unfold tryLock, call_SetNX, db_of in *. rewrite Hc. simpl.
  pose proof (Client_SetNX_keeps_live (mkClient n a p) ctx (getLockKey r) (token r)
                (expireSeconds (lockOptions r)) (now w) (client_state w) addr ki e Hrec Ht)
    as Hk.
  destruct (Client_SetNX _ ctx _ _ _ _ _) as [[[x [err|]] lat] st']; simpl in *;
    [destruct (errors_Is err RedisNil)|]; exact Hk.
Qed.

Lemma tryLock_live_fails r ctx w (e : entry) :
  client r = NewClient n a p →
  db_of w a !! getLockKey r = Some e →
  now w < entry_expire_at e →
  fst (tryLock r ctx w) ≠ None.
Proof.
  intros Hc Hrec Ht. unfold tryLock, call_SetNX, db_of in *. rewrite Hc. simpl.
  pose proof (Client_SetNX_live_fails (mkClient n a p) ctx (getLockKey r) (token r)
                (expireSeconds (lockOptions r)) (now w) (client_state w) e Hrec Ht)
    as Hk.
  destruct (Client_SetNX _ ctx _ _ _ _ _) as [[[x [err|]] lat] st']; simpl in *;
    [by destruct (errors_Is err RedisNil)|done].
Qed.
End TakenLock.

(** A lock that does not block is one [tryLock] and the deferred
    function. *)
Lemma Lock_once {S : Type} (r : RedisLock S) (ctx : context) (ticks : list (tick S))
    (w : World S) err r' w' :
  isBlock (lockOptions r) = false →
  Lock r ctx ticks w = Some (err, r', w') →
  client_state w' = client_state (snd (tryLock r ctx w))
  ∧ (fst (tryLock r ctx w) ≠ None → err ≠ None).
Proof.
  intros Hb. unfold Lock. rewrite Hb.
  destruct (tryLock r ctx w) as [[e|] w1]; simpl.
  - intros H. inversion H; subst. done.
  - unfold Lock_deferred, watchDog.
    destruct (negb (watchDogMode (lockOptions r))); [intros H; by inversion H|].
    destruct (CompareAndSwapInt32 (runningDog r) 0 1) as [v [|]]; [|done].
    intros H. inversion H; subst. done.
Qed.

Lemma member_of_shape (g : caller) (k : string) (s : Z) (conf : SingleNodeConf) :
  client (member_of g k s conf) = NewClient (Network conf) (Address conf) (Password conf)
  ∧ getLockKey (member_of g k s conf) = RedisLockKeyPrefix +:+ k
  ∧ isBlock (lockOptions (member_of g k s conf)) = false.
Proof.
  unfold member_of. split; [done|]. split; [done|].
  rewrite NewRedisLock_single_expire. by destruct (0 <? s).
Qed.

(** One member's [Lock]: records that live through [E] stay, and the
    member of a node with such a record reports an error. *)
Lemma member_Lock_taken (g : caller) (k : string) (s : Z) (conf : SingleNodeConf)
    (ctx : context) (ticks : list (tick Redis)) (w : World Redis) err r' w' (E : Z) :
  Lock (member_of g k s conf) ctx ticks w = Some (err, r', w') →
  now w < E →
  (∀ c, taken_through w E k c = true → taken_through w' E k c = true)
  ∧ (taken_through w E k conf = true → err ≠ None).
Proof.
  intros HL Ht.
  destruct (member_of_shape g k s conf) as (Hc & Hk & Hb).
  destruct (Lock_once _ _ _ _ _ _ _ Hb HL) as [Hst Herr].
  split.
  - intros c. unfold taken_through, db_of. rewrite Hst.
    destruct (node_db (client_state w) (Address c) !! (RedisLockKeyPrefix +:+ k))
      as [e|] eqn:Hrec; [|done].
    intros HE. apply Z.leb_le in HE.
    pose proof (tryLock_keeps_live _ _ _ (member_of g k s conf) ctx w (Address c)
                  (RedisLockKeyPrefix +:+ k) e Hc Hrec ltac:(lia)) as Hkeep.
    unfold db_of in Hkeep. rewrite Hkeep. by apply Z.leb_le.
  - unfold taken_through. intros Htk. apply Herr.
    destruct (db_of w (Address conf) !! (RedisLockKeyPrefix +:+ k)) as [e|] eqn:Hrec;
      [|done].
    apply Z.leb_le in Htk.
    apply (tryLock_live_fails _ _ _ (member_of g k s conf) ctx w e Hc);
      [by rewrite Hk | lia].
Qed.

Lemma RedLock_Lock_loop_taken (timeout : Z) (ctx : context) (g : caller) (k : string)
    (s : Z) (confs : list SingleNodeConf) (obs : list (list (tick Redis))) (cnt0 : Z)
    (w : World Redis) cnt ls' ids w' (E : Z) :
  RedLock_Lock_loop timeout ctx (map (member_of g k s) confs) obs cnt0 w
  = Some (cnt, ls', ids, w') →
  now w' < E →
  cnt ≤ cnt0 + Z.of_nat (length (List.filter (λ c, negb (taken_through w E k c)) confs)).
Proof.
  revert obs cnt0 w cnt ls' ids w'.
  induction confs as [|conf confs IH]; intros obs cnt0 w cnt ls' ids w' H HE; simpl in H.
  - inversion H; subst. simpl. lia.
  - set (w1 := mkWorld (now w) (cancelled w) (Datatypes.S (next_id w)) (goroutines w)
                       (client_state w)) in *.
    destruct (Lock (member_of g k s conf) _ (hd [] obs) w1) as [[[err l'] w2]|] eqn:HL;
      [|done].
    destruct (RedLock_Lock_loop timeout ctx _ (tl obs) _ w2)
      as [[[[c rest'] deferred] w3]|] eqn:Hloop; [|done].
    inversion H; subst; clear H.
    destruct (RedLock_Lock_loop_goroutines _ _ _ _ _ _ _ _ _ _ Hloop) as [[Hn23 _] _].
    destruct (later_Lock _ _ _ _ _ _ _ HL) as [Hn12 _].
    assert (Ht1 : now w1 < E) by lia.
    destruct (member_Lock_taken _ _ _ _ _ _ _ _ _ _ E HL Ht1) as [Hkeep Hfail].
    specialize (IH _ _ _ _ _ _ _ Hloop HE).
    pose proof (filter_length_mono
                  (λ c, negb (taken_through w2 E k c))
                  (λ c, negb (taken_through w1 E k c)) confs) as Hmono.
    assert (Hle : (length (List.filter (λ c, negb (taken_through w2 E k c)) confs)
                   ≤ length (List.filter (λ c, negb (taken_through w1 E k c)) confs))%nat).
    { apply Hmono. intros x Hx. destruct (taken_through w1 E k x) eqn:H1; [|done].
      by rewrite (Hkeep x H1) in Hx. }
    change (taken_through w E k) with (taken_through w1 E k).
    simpl List.filter.
    destruct (taken_through w1 E k conf) eqn:Hconf; simpl.
    + destruct err as [e|]; [|by destruct (Hfail eq_refl)]. simpl in IH. lia.
    + destruct (is_nil err && (now w2 - now w <=? timeout)); lia.
Qed.

(** X14. [RedLock.Lock] returns nil only if a quorum of the configured
    nodes was free: with a record for the lock key that lives beyond the
    end of the call on more than the others, no majority is counted and
    the call does not return nil. *)
Theorem RedLock_Lock_needs_free_quorum (g : caller) (k : string)
    (confs : list SingleNodeConf) (opts : list RedLockOption) (rl : RedLock)
    (ctx : context) (obs : list (list (tick Redis))) (w : World Redis) rl' w' (E : Z) :
  NewRedLock g k confs opts = inl rl →
  RedLock_Lock rl ctx obs w = Some (Returned None, rl', w') →
  now w' < E →
  quorum (length confs)
  ≤ Z.of_nat (length (List.filter (λ c, negb (taken_through w E k c)) confs)).
Proof.
  intros HN HL HE.
  assert (Hlocks : ∃ s, locks rl = map (member_of g k s) confs).
  { unfold NewRedLock in HN.
    destruct (Z.of_nat (length confs) <? 3); [done|].
    destruct (_ && _); [done|]. inversion HN; subst. simpl. by eexists. }
  destruct Hlocks as [s Hlocks].
  unfold RedLock_Lock in HL. rewrite Hlocks in HL.
  destruct (RedLock_Lock_loop _ ctx _ obs 0 w) as [[[[cnt ls'] ids] w1]|] eqn:Hloop;
    [|done].
  destruct (RedLock_Lock_loop_counts _ _ _ _ _ _ _ _ _ _ Hloop) as (l & _ & _ & Hlen & _).
  rewrite length_map in Hlen. simpl in HL. rewrite Hlen in HL.
  destruct (cnt <? Z.of_nat (length confs) / 2 + 1) eqn:Hq.
  - by destruct (RedLock_Unlock _ ctx w1) as [[res|] w2].
  - inversion HL; subst. apply Z.ltb_ge in Hq.
    destruct (later_foldl_cancel w1 ids) as [Hnow _].
    pose proof (RedLock_Lock_loop_taken _ _ _ _ _ _ _ _ _ _ _ _ _ E Hloop ltac:(lia)).
    unfold quorum. lia.
Qed.

Lemma RedLock_Lock_needs_free_quorum_witness :
  quorum (length three_nodes)
  ≤ Z.of_nat (length (List.filter
                        (λ c, negb (taken_through world0 (60 * Second) "test_key" c))
                        three_nodes)).
Proof.
  pose proof (NewRedLock_accepted (mkCaller 1 1) "test_key" three_nodes []
                ltac:(vm_compute; reflexivity) ltac:(vm_compute; reflexivity)) as HN.
  set (rl := mkRedLock _ _) in HN.
  assert (Hrun : match RedLock_Lock rl Background [] world0 with
                 | Some (Returned None, _, w') => now w' <? 60 * Second
                 | _ => false
                 end = true) by (vm_compute; reflexivity).
  destruct (RedLock_Lock rl Background [] world0) as [[[[[e|]|] rl'] w']|] eqn:HL;
    try discriminate Hrun.
  apply Z.ltb_lt in Hrun.
  exact (RedLock_Lock_needs_free_quorum (mkCaller 1 1) "test_key" three_nodes [] rl
           Background [] world0 rl' w' (60 * Second) HN HL Hrun).
Defined.

(** ** Waiting for a lease to run out *)

Lemma Lock_deferred_world {S : Type} (r : RedisLock S) (ctx : context) err (w : World S)
    err' r' w' :
  Lock_deferred r ctx err w = Some (err', r', w') →
  client_state w' = client_state w ∧ now w' = now w.
Proof.
  unfold Lock_deferred, watchDog, CompareAndSwapInt32.
  destruct err; [intros H; by inversion H|].
  destruct (negb (watchDogMode (lockOptions r))); [intros H; by inversion H|].
  destruct (runningDog r =? 0); [|done].
  intros H. by inversion H.
Qed.

Section Waiting.
Variables (n a p : string) (d : Z).
Hypothesis d_pos : 0 < d.
Implicit Types (r : RedisLock Redis) (w : World Redis) (ctx : context).

(** One attempt on a node that answers within [d], at a key with a
    record: contention while the record lives, the caller's record in its
    place once it has expired. *)
Lemma tryLock_step r ctx w (e : entry) :
  client r = NewClient n a p →
  0 < expireSeconds (lockOptions r) →
  net_within d (client_state w) →
  db_of w a !! getLockKey r = Some e →
  let res := tryLock r ctx w in
  net_within d (client_state (snd res))
  ∧ now w ≤ now (snd res) < now w + d
  ∧ if now w <? entry_expire_at e
    then (∃ e', fst res = Some e' ∧ IsRetryableErr e' = true)
         ∧ db_of (snd res) a !! getLockKey r = Some e
    else fst res = None
         ∧ db_of (snd res) a !! getLockKey r
           = Some (mkEntry (token r) (now w + expireSeconds (lockOptions r) * Second)).
Proof.
  intros Hc Hpos Hg Hrec.
  destruct (net_within_next_event d _ d_pos Hg) as (Hg' & Hok & Hlat).
  cbv zeta. rewrite (tryLock_on_redis n a p) by done.
  unfold redis_set_ex_nx, live. rewrite Hrec.
  replace (expireSeconds (lockOptions r) <=? 0) with false by (symmetry; apply Z.leb_gt; lia).
  split; [|split].
  - unfold net_within, set_node_db in *. simpl. exact Hg'.
  - simpl. lia.
  - destruct (now w <? entry_expire_at e); simpl.
    + split; [eexists; split; [reflexivity|by vm_compute]|].
      unfold db_of. simpl. by rewrite node_db_set_node_db.
    + split; [done|]. unfold db_of. simpl.
      by rewrite node_db_set_node_db, lookup_insert_eq.
Qed.

Lemma blockingLock_loop_acquires r ctx (start timeout k : Z) (ticks : list (tick Redis))
    w (e : entry) :
  client r = NewClient n a p →
  0 < expireSeconds (lockOptions r) →
  d ≤ 25 * Millisecond →
  no_deadline ctx = true →
  (∀ id, id ∈ ctx_ids ctx →
         cancel_time (cancelled w) id = None
         ∧ ∀ tk, tk ∈ ticks → id ∉ tick_cancels tk) →
  Forall (calm_tick d a (getLockKey r)) ticks →
  net_within d (client_state w) →
  db_of w a !! getLockKey r = Some e →
  now w ≤ start + 50 * Millisecond * k →
  start + 50 * Millisecond * k < entry_expire_at e + 50 * Millisecond →
  entry_expire_at e + 75 * Millisecond ≤ start + timeout →
  entry_expire_at e ≤ start + 50 * Millisecond * (k + Z.of_nat (length ticks) - 1) →
  ∃ w' t,
    blockingLock_loop r ctx start timeout k ticks w = Some (None, w')
    ∧ db_of w' a !! getLockKey r
      = Some (mkEntry (token r) (t + expireSeconds (lockOptions r) * Second))
    ∧ entry_expire_at e ≤ t ≤ now w'
    ∧ now w' < t + 25 * Millisecond
    ∧ t < entry_expire_at e + 75 * Millisecond.
Proof.
  intros Hc Hpos Hd Hnd. revert k w.
  induction ticks as [|tk rest IH]; intros k w Hids Hcalm Hg Hrec Hnow Hk HT Hlen.
  - simpl in Hlen. unfold Millisecond in *. lia.
  - inversion Hcalm as [|? ? [Hdelay Henv] Hcalm']; subst.
    rewrite blockingLock_loop_cons.
    set (w1 := arrive start (50 * Millisecond) k tk w).
    assert (Hcs : ∀ id, id ∈ ctx_ids ctx → cancel_time (cancelled w1) id = None).
    { intros id Hid. destruct (Hids id Hid) as [Hcn Ht]. unfold w1.
      rewrite cancelled_arrive; [done|]. apply Ht. by apply elem_of_cons; left. }
    assert (Herr : ctx_Err w1 ctx = None).
    { unfold ctx_Err. by rewrite ctx_cause_unsignalled. }
    assert (Hn1 : now w1 = start + 50 * Millisecond * k + Z.of_N (tick_delay tk)).
    { unfold w1. rewrite now_arrive. lia. }
    destruct (Henv _ Hg) as [Hg1 Hdb1].
    assert (Hs1 : client_state w1 = tick_env tk (client_state w))
      by apply client_state_arrive.
    assert (Hrec1 : db_of w1 a !! getLockKey r = Some e).
    { unfold db_of. rewrite Hs1, Hdb1. exact Hrec. }
    assert (Hg1' : net_within d (client_state w1)) by (by rewrite Hs1).
    rewrite Herr.
    replace (start + timeout <=? now w1) with false
      by (symmetry; apply Z.leb_gt; unfold Millisecond in *; lia).
    destruct (tryLock_step r ctx w1 e Hc Hpos Hg1' Hrec1) as (Hg2 & Hn2 & Hres).
    destruct (tryLock_runtime r ctx w1) as [Hc2 _].
    destruct (tryLock r ctx w1) as [err w2]. cbn [fst snd] in *.
    destruct (Z.ltb_spec (now w1) (entry_expire_at e)) as [Hlt|Hge].
    + destruct Hres as [(e' & -> & Hretry) Hrec2]. rewrite Hretry. simpl.
      apply IH; try done.
      * intros id Hid. destruct (Hids id Hid) as [_ Ht]. split.
        -- rewrite Hc2. by apply Hcs.
        -- intros tk' Htk'. apply Ht. by apply elem_of_cons; right.
      * unfold Millisecond in *. lia.
      * unfold Millisecond in *. lia.
      * rewrite length_cons in Hlen. unfold Millisecond in *. lia.
    + destruct Hres as [-> Hrec2]. exists w2, (now w1).
      split; [done|]. split; [exact Hrec2|].
      unfold Millisecond in *. lia.
Qed.
End Waiting.

(** X18. A blocking [Lock] gets the lock when the holder's lease runs
    out.  Take a key held by a record that outlives the first attempt and
    expires at least 75 ms before the waiting budget ends, a context that
    is never signalled, a node that answers within 25 ms, ticks less than
    25 ms late, and enough ticks to reach the expiry.  Then [Lock] returns
    nil, the attempt that succeeded was made after the expiry and within
    100 ms of it, and the record at the key is the caller's, with a
    lease that has not run out. *)
Theorem blocking_Lock_acquires_after_expiry (n a p : string) (r : RedisLock Redis)
    (ctx : context) (ticks : list (tick Redis)) (w : World Redis) (e : entry) :
  client r = NewClient n a p →
  isBlock (lockOptions r) = true →
  0 < expireSeconds (lockOptions r) →
  watchDogMode (lockOptions r) = false ∨ runningDog r = 0 →
  no_deadline ctx = true →
  (∀ id, id ∈ ctx_ids ctx →
         cancel_time (cancelled w) id = None
         ∧ ∀ tk, tk ∈ ticks → id ∉ tick_cancels tk) →
  Forall (calm_tick (25 * Millisecond) a (getLockKey r)) ticks →
  net_within (25 * Millisecond) (client_state w) →
  db_of w a !! getLockKey r = Some e →
  now w + 25 * Millisecond ≤ entry_expire_at e →
  entry_expire_at e + 75 * Millisecond ≤ now w + waitBudget r →
  entry_expire_at e ≤ now w + 50 * Millisecond * Z.of_nat (length ticks) →
  ∃ r' w' E',
    Lock r ctx ticks w = Some (None, r', w')
    ∧ db_of w' a !! getLockKey r = Some (mkEntry (token r) E')
    ∧ entry_expire_at e ≤ now w' < entry_expire_at e + 100 * Millisecond
    ∧ now w' < E'.
Proof.
  intros Hc Hb Hpos Hdog Hnd Hids Hcalm Hg Hrec Hlive HT Hlen.
  assert (Hd : 0 < 25 * Millisecond) by (unfold Millisecond; lia).
  destruct (tryLock_step n a p _ Hd r ctx w e Hc Hpos Hg Hrec) as (Hg1 & Hn1 & Hres).
  destruct (tryLock_runtime r ctx w) as [Hc1 _].
  unfold Lock. destruct (tryLock r ctx w) as [err w1]. cbn [fst snd] in *.
  replace (now w <? entry_expire_at e) with true in Hres
    by (symmetry; apply Z.ltb_lt; unfold Millisecond in *; lia).
  destruct Hres as [(e' & -> & Hretry) Hrec1].
  rewrite Hb, Hretry. simpl. unfold blockingLock. fold (waitBudget r).
  destruct (blockingLock_loop_acquires n a p _ Hd r ctx (now w1) (waitBudget r) 1 ticks
              w1 e Hc Hpos ltac:(lia) Hnd) as (w2 & t & Hloop & Hrec2 & Ht & Hn2 & Ht2);
    try done; try (unfold Millisecond in *; lia).
  { intros id Hid. destruct (Hids id Hid) as [Hcn Htk]. split; [by rewrite Hc1|done]. }
  rewrite Hloop.
  destruct (Lock_deferred_success r ctx w2 Hdog) as (r' & w' & HD).
  rewrite HD. destruct (Lock_deferred_world _ _ _ _ _ _ _ HD) as [Hs' Hn'].
  exists r', w', (t + expireSeconds (lockOptions r) * Second).
  split; [done|]. split; [unfold db_of in *; by rewrite Hs'|].
  rewrite Hn'. unfold Millisecond, Second in *. nia.
Qed.

Lemma blocking_Lock_acquires_after_expiry_witness :
  ∃ r' w' E',
    Lock blocking_lock Background [quiet_tick; quiet_tick; quiet_tick] world_short_lease
    = Some (None, r', w')
    ∧ db_of w' "10.0.0.1:6379" !! getLockKey blocking_lock
      = Some (mkEntry (token blocking_lock) E')
    ∧ entry_expire_at (mkEntry "7_7" (100 * Millisecond)) ≤ now w'
      < entry_expire_at (mkEntry "7_7" (100 * Millisecond)) + 100 * Millisecond
    ∧ now w' < E'.
Proof.
  assert (Hcalm : calm_tick (25 * Millisecond) "10.0.0.1:6379" (getLockKey blocking_lock)
                            quiet_tick).
  { split; [vm_compute; reflexivity|]. intros st Hst. split; [exact Hst|reflexivity]. }
  apply (blocking_Lock_acquires_after_expiry "tcp" "10.0.0.1:6379" "" blocking_lock
           Background [quiet_tick; quiet_tick; quiet_tick] world_short_lease
           (mkEntry "7_7" (100 * Millisecond)) eq_refl).
  - vm_compute. reflexivity.
  - vm_compute. reflexivity.
  - right. reflexivity.
  - reflexivity.
  - intros id Hid. exfalso. exact (proj1 (elem_of_nil id) Hid).
  - repeat (constructor; [exact Hcalm|]). constructor.
  - constructor.
  - vm_compute. reflexivity.
  - vm_compute. discriminate.
  - vm_compute. discriminate.
  - vm_compute. discriminate.
Defined.

(** ** The quorum lock on free nodes *)

Lemma live_expired_later (t t' : Z) (db : gmap string entry) (k : string) :
  t ≤ t' → live t db k = None → live t' db k = None.
Proof.
  unfold live. intros Ht. destruct (db !! k) as [e|]; [|done].
  destruct (Z.ltb_spec t (entry_expire_at e)); [done|]. intros _.
  by replace (t' <? entry_expire_at e) with false by (symmetry; apply Z.ltb_ge; lia).
Qed.

Lemma client_state_foldl_cancel {S : Type} (w : World S) (ids : list nat) :
  client_state (foldl (λ w id, cancel id w) w ids) = client_state w.
Proof.
  revert w. induction ids as [|i ids IH]; intros w; simpl; [done|].
  by rewrite IH, client_state_cancel.
Qed.

Section FreeNode.
Variables (n a p : string) (d : Z).
Hypothesis d_pos : 0 < d.
Implicit Types (r : RedisLock Redis) (w : World Redis) (ctx : context).

(** One attempt on a node that answers within [d]. *)
Lemma tryLock_within r ctx w :
  client r = NewClient n a p →
  0 < expireSeconds (lockOptions r) →
  net_within d (client_state w) →
  let res := tryLock r ctx w in
  net_within d (client_state (snd res))
  ∧ now w ≤ now (snd res) < now w + d
  ∧ (∀ a', a ≠ a' → db_of (snd res) a' = db_of w a')
  ∧ match live (now w) (db_of w a) (getLockKey r) with
    | Some _ => fst res ≠ None ∧ db_of (snd res) a = db_of w a
    | None =>
        fst res = None
        ∧ db_of (snd res) a
          = <[getLockKey r := mkEntry (token r)
                                (now w + expireSeconds (lockOptions r) * Second)]>
              (db_of w a)
    end.
Proof.
  intros Hc Hpos Hg.
  destruct (net_within_next_event d _ d_pos Hg) as (Hg' & Hok & Hlat).
  cbv zeta. rewrite (tryLock_on_redis n a p) by done.
  unfold redis_set_ex_nx.
  replace (expireSeconds (lockOptions r) <=? 0) with false by (symmetry; apply Z.leb_gt; lia).
  split; [|split; [|split]].
  - unfold net_within, set_node_db in *. simpl. exact Hg'.
  - simpl. lia.
  - intros a' Hne. unfold db_of. simpl.
    by rewrite node_db_set_node_db_ne, node_db_next_event.
  - unfold db_of. simpl. rewrite node_db_set_node_db.
    by destruct (live (now w) (node_db (client_state w) a) (getLockKey r)).
Qed.
End FreeNode.

Lemma member_of_ready (g : caller) (k : string) (s : Z) (conf : SingleNodeConf) :
  0 < expireSeconds (lockOptions (member_of g k s conf))
  ∧ runningDog (member_of g k s conf) = 0
  ∧ token (member_of g k s conf) = GetProcessAndGoroutineIDStr g.
Proof.
  split; [|done]. unfold member_of. rewrite NewRedisLock_single_expire.
  destruct (Z.ltb_spec 0 s); simpl; [lia|]. unfold DefaultLockExpireSeconds. lia.
Qed.

(** One member's [Lock] on a node that answers within [d]. *)
Lemma member_Lock_within (g : caller) (k : string) (s : Z) (conf : SingleNodeConf)
    (ctx : context) (ticks : list (tick Redis)) (w : World Redis) (d : Z) :
  0 < d →
  net_within d (client_state w) →
  ∃ err r' w',
    Lock (member_of g k s conf) ctx ticks w = Some (err, r', w')
    ∧ net_within d (client_state w')
    ∧ now w ≤ now w' < now w + d
    ∧ (∀ a', Address conf ≠ a' → db_of w' a' = db_of w a')
    ∧ (free_at w k conf = true →
       err = None
       ∧ db_of w' (Address conf) !! (RedisLockKeyPrefix +:+ k)
         = Some (mkEntry (GetProcessAndGoroutineIDStr g)
                         (now w + expireSeconds (lockOptions (member_of g k s conf)) * Second))
       ∧ (s ≤ 0 → member_started g k conf r')).
Proof.
  intros Hd Hg.
  destruct (member_of_shape g k s conf) as (Hc & Hk & Hb).
  destruct (member_of_ready g k s conf) as (Hpos & Hz & Htok).
  destruct (tryLock_within _ _ _ d Hd (member_of g k s conf) ctx w Hc Hpos Hg)
    as (Hg1 & Hn1 & Hoth & Hres).
  unfold Lock. rewrite Hb.
  destruct (tryLock (member_of g k s conf) ctx w) as [err w1]. cbn [fst snd negb] in *.
  destruct (Lock_deferred_returns (member_of g k s conf) ctx err w1 (or_intror Hz))
    as (r' & w' & HD).
  destruct (Lock_deferred_world _ _ _ _ _ _ _ HD) as [Hs' Hn'].
  destruct (Lock_deferred_outcome _ _ _ _ _ _ _ HD) as [_ Hout].
  exists err, r', w'. split; [by destruct err|].
  unfold db_of in *. rewrite Hs', Hn'.
  split; [done|]. split; [done|]. split; [done|].
  unfold free_at, db_of. rewrite Hk in Hres.
  destruct (live (now w) (node_db (client_state w) (Address conf)) (RedisLockKeyPrefix +:+ k));
    [done|].
  intros _. destruct Hres as [-> Hdb]. split; [done|].
  split; [by rewrite Hdb, lookup_insert_eq, Htok|].
  intros Hs. unfold member_of in Hout. rewrite NewRedisLock_single_expire in Hout.
  replace (0 <? s) with false in Hout by (symmetry; apply Z.ltb_ge; lia).
  simpl in Hout. destruct Hout as (_ & -> & _). by split.
Qed.

Lemma RedLock_Lock_loop_free (timeout : Z) (ctx : context) (g : caller) (k : string)
    (s : Z) (confs : list SingleNodeConf) (obs : list (list (tick Redis))) (cnt0 : Z)
    (w : World Redis) :
  0 < timeout →
  NoDup (map Address confs) →
  net_within timeout (client_state w) →
  ∃ cnt ls' ids w',
    RedLock_Lock_loop timeout ctx (map (member_of g k s) confs) obs cnt0 w
    = Some (cnt, ls', ids, w')
    ∧ cnt0 + Z.of_nat (length (List.filter (free_at w k) confs)) ≤ cnt
    ∧ now w ≤ now w'
    ∧ (∀ a', a' ∉ map Address confs → db_of w' a' = db_of w a')
    ∧ (∀ c, c ∈ confs → free_at w k c = true →
            ∃ E', db_of w' (Address c) !! (RedisLockKeyPrefix +:+ k)
                  = Some (mkEntry (GetProcessAndGoroutineIDStr g) E')).
Proof.
  intros Ht. revert obs cnt0 w.
  induction confs as [|conf confs IH]; intros obs cnt0 w Hnd Hg.
  - simpl. exists cnt0, [], [], w. split; [done|]. split; [lia|]. split; [lia|].
    split; [done|]. intros c Hc. by apply elem_of_nil in Hc.
  - simpl in Hnd. apply NoDup_cons in Hnd as [Hnin Hnd].
    cbn [map RedLock_Lock_loop fresh_id].
    set (w1 := mkWorld (now w) (cancelled w) (Datatypes.S (next_id w)) (goroutines w)
                       (client_state w)).
    destruct (member_Lock_within g k s conf
                (WithTimeout (next_id w) (now w1 + timeout) ctx) (hd [] obs) w1 timeout Ht Hg)
      as (err & l' & w2 & HL & Hg2 & Hn2 & Hoth & Hfree).
    rewrite HL.
    destruct (IH (tl obs)
                (if is_nil err && (now w2 - now w <=? timeout) then cnt0 + 1 else cnt0)
                w2 Hnd Hg2) as (cnt & ls' & ids & w3 & Hloop & Hcnt & Hn3 & Hoth3 & Hrec3).
    rewrite Hloop. exists cnt, (l' :: ls'), (ids ++ [next_id w]), w3.
    split; [done|].
    assert (Hmono : (length (List.filter (free_at w k) confs)
                     ≤ length (List.filter (free_at w2 k) confs))%nat).
    { clear -Hnin Hoth Hn2. induction confs as [|c cs IHc]; simpl; [done|].
      apply not_elem_of_cons in Hnin as [Hne Hnin]. specialize (IHc Hnin).
      assert (Hc : free_at w k c = true → free_at w2 k c = true).
      { unfold free_at. rewrite (Hoth (Address c) Hne).
        change (db_of w1 (Address c)) with (db_of w (Address c)).
        destruct (live (now w) (db_of w (Address c)) _) eqn:Hl; [done|]. intros _.
        rewrite (live_expired_later (now w) (now w2)); [done|simpl in Hn2; lia|done]. }
      destruct (free_at w k c); [rewrite Hc by done|destruct (free_at w2 k c)]; simpl; lia. }
    split; [|split; [|split]].
    + cbn [List.filter].
      destruct (free_at w k conf) eqn:Hf; cbn [length].
      * destruct (Hfree Hf) as [-> _]. simpl in Hn2.
        replace (now w2 - now w <=? timeout) with true in Hcnt
          by (symmetry; apply Z.leb_le; lia).
        simpl in Hcnt. lia.
      * destruct (is_nil err && (now w2 - now w <=? timeout)); lia.
    + simpl in Hn2. lia.
    + intros a' Hn'. apply not_elem_of_cons in Hn' as [Hne Hn'].
      rewrite (Hoth3 a' Hn'). by rewrite (Hoth a').
    + intros c Hc Hfc. apply elem_of_cons in Hc as [->|Hc].
      * destruct (Hfree Hfc) as (_ & Hrec & _). eexists.
        rewrite (Hoth3 (Address conf) Hnin). exact Hrec.
      * apply Hrec3; [done|].
        assert (Hne : Address conf ≠ Address c).
        { intros Heq. apply Hnin. rewrite Heq.
          exact (list_elem_of_fmap_2 Address confs c Hc). }
        unfold free_at in *. rewrite (Hoth (Address c) Hne).
        change (db_of w1 (Address c)) with (db_of w (Address c)).
        destruct (live (now w) (db_of w (Address c)) _) eqn:Hl; [done|].
        rewrite (live_expired_later (now w) (now w2)); [done|simpl in Hn2; lia|done].
Qed.

(** X19. [RedLock.Lock] succeeds on a free quorum.  With node addresses
    that are distinct and not empty (on an empty one the dial panics),
    nodes that answer within the single-node timeout, and no live record
    for the key on at least a quorum of them, [RedLock.Lock] returns nil,
    and every node that was free then carries a record with the caller's
    token. *)
Theorem RedLock_Lock_succeeds_on_free_quorum (g : caller) (k : string)
    (confs : list SingleNodeConf) (opts : list RedLockOption) (rl : RedLock)
    (ctx : context) (obs : list (list (tick Redis))) (w : World Redis) :
  NewRedLock g k confs opts = inl rl →
  NoDup (map Address confs) →
  (∀ c, c ∈ confs →
        getRedisConn_panics (mkClient (Network c) (Address c) (Password c)) = false) →
  net_within (singleNodesTimeout (redLockOptions rl)) (client_state w) →
  quorum (length confs) ≤ Z.of_nat (length (List.filter (free_at w k) confs)) →
  ∃ rl' w',
    RedLock_Lock rl ctx obs w = Some (Returned None, rl', w')
    ∧ ∀ c, c ∈ confs → free_at w k c = true →
           ∃ E', db_of w' (Address c) !! (RedisLockKeyPrefix +:+ k)
                 = Some (mkEntry (GetProcessAndGoroutineIDStr g) E').
Proof.
  intros HN Hnd _ Hg Hq.
  assert (Hrl : ∃ s, locks rl = map (member_of g k s) confs
                     ∧ 0 < singleNodesTimeout (redLockOptions rl)).
  { unfold NewRedLock in HN.
    destruct (Z.of_nat (length confs) <? 3); [done|].
    destruct (_ && _); [done|]. inversion HN; subst. simpl.
    eexists. split; [reflexivity|]. apply repairRedLock_timeout_pos. }
  destruct Hrl as (s & Hlocks & Hpos).
  destruct (RedLock_Lock_loop_free (singleNodesTimeout (redLockOptions rl)) ctx g k s confs
              obs 0 w Hpos Hnd Hg) as (cnt & ls' & ids & w1 & Hloop & Hcnt & _ & _ & Hrec).
  unfold RedLock_Lock. rewrite Hlocks, Hloop.
  destruct (RedLock_Lock_loop_counts _ _ _ _ _ _ _ _ _ _ Hloop) as (l & _ & _ & Hlen & _).
  rewrite length_map in Hlen. simpl. rewrite Hlen.
  replace (cnt <? Z.of_nat (length confs) / 2 + 1) with false
    by (symmetry; apply Z.ltb_ge; unfold quorum in Hq; lia).
  eexists _, _. split; [reflexivity|].
  intros c Hc Hf. unfold db_of. rewrite client_state_foldl_cancel. by apply Hrec.
Qed.

Lemma RedLock_Lock_succeeds_on_free_quorum_witness :
  ∃ rl' w',
    RedLock_Lock test_redLock Background [] world_one_contended
    = Some (Returned None, rl', w')
    ∧ ∀ c, c ∈ three_nodes → free_at world_one_contended "test_key" c = true →
           ∃ E', db_of w' (Address c) !! (RedisLockKeyPrefix +:+ "test_key")
                 = Some (mkEntry (GetProcessAndGoroutineIDStr (mkCaller 1 1)) E').
Proof.
  apply (RedLock_Lock_succeeds_on_free_quorum (mkCaller 1 1) "test_key" three_nodes
           test_redLock_options test_redLock Background [] world_one_contended).
  - apply NewRedLock_accepted; vm_compute; reflexivity.
  - apply (bool_decide_unpack (NoDup (map Address three_nodes))). vm_compute. exact I.
  - intros c Hc.
    repeat (apply elem_of_cons in Hc as [->|Hc]; [reflexivity|]).
    exfalso. exact (proj1 (elem_of_nil c) Hc).
  - constructor.
  - vm_compute. discriminate.
Defined.

(** ** The pool options *)

Lemma foldl_applyClientOption_kept (post : list ClientOption) (c : ClientOptions) (k : Z) :
  (forallb (λ o, negb (same_field (WithMaxIdle k) o)) post = true →
   maxIdle (foldl applyClientOption c post) = maxIdle c)
  ∧ (forallb (λ o, negb (same_field (WithIdleTimeoutSeconds k) o)) post = true →
     idleTimeoutSeconds (foldl applyClientOption c post) = idleTimeoutSeconds c)
  ∧ (forallb (λ o, negb (same_field (WithMaxActive k) o)) post = true →
     maxActive (foldl applyClientOption c post) = maxActive c)
  ∧ (forallb (λ o, negb (same_field WithWaitMode o)) post = true →
     wait (foldl applyClientOption c post) = wait c)
  ∧ (wait c = true → wait (foldl applyClientOption c post) = true).
Proof.
  revert c. induction post as [|o post IH]; intros c; [done|].
  cbn [foldl forallb].
  destruct (IH (applyClientOption c o)) as (H1 & H2 & H3 & H4 & H5).
  split; [|split; [|split; [|split]]]; intros H.
  - apply andb_true_iff in H as [Ho Hp]. rewrite H1 by done. by destruct o.
  - apply andb_true_iff in H as [Ho Hp]. rewrite H2 by done. by destruct o.
  - apply andb_true_iff in H as [Ho Hp]. rewrite H3 by done. by destruct o.
  - apply andb_true_iff in H as [Ho Hp]. rewrite H4 by done. by destruct o.
  - apply H5. by destruct o.
Qed.

(** X20. The pool options reach the pool in the order given: the last
    [WithMaxIdle], [WithIdleTimeoutSeconds] or [WithMaxActive] sets the
    pool's number, a negative one giving the default, the idle timeout in
    seconds becomes a duration, one [WithWaitMode] anywhere turns waiting
    on, and without it waiting is off. *)
Theorem client_options_reach_pool (n a p : string) (pre post : list ClientOption) (k : Z) :
  (forallb (λ o, negb (same_field (WithMaxIdle k) o)) post = true →
   MaxIdle (NewClient_pool n a p (pre ++ WithMaxIdle k :: post))
   = if k <? 0 then DefaultMaxIdle else k)
  ∧ (forallb (λ o, negb (same_field (WithIdleTimeoutSeconds k) o)) post = true →
     IdleTimeout (NewClient_pool n a p (pre ++ WithIdleTimeoutSeconds k :: post))
     = wrap64 ((if k <? 0 then DefaultIdleTimeoutSeconds else k) * Second))
  ∧ (forallb (λ o, negb (same_field (WithMaxActive k) o)) post = true →
     MaxActive (NewClient_pool n a p (pre ++ WithMaxActive k :: post))
     = if k <? 0 then DefaultMaxActive else k)
  ∧ Wait (NewClient_pool n a p (pre ++ WithWaitMode :: post)) = true
  ∧ (forallb (λ o, negb (same_field WithWaitMode o)) (pre ++ post) = true →
     Wait (NewClient_pool n a p (pre ++ post)) = false).
Proof.
  unfold NewClient_pool, getRedisPool. cbn [MaxIdle IdleTimeout MaxActive Wait].
  set (c0 := mkClientOptions 0 0 0 false n a p).
  split; [|split; [|split; [|split]]].
  - intros H. destruct (repairClient_fields (foldl applyClientOption c0
                                               (pre ++ WithMaxIdle k :: post)))
      as (-> & _). rewrite foldl_app. cbn [foldl].
    by rewrite (proj1 (foldl_applyClientOption_kept post _ k) H).
  - intros H. destruct (repairClient_fields (foldl applyClientOption c0
                                               (pre ++ WithIdleTimeoutSeconds k :: post)))
      as (_ & -> & _). rewrite foldl_app. cbn [foldl].
    by rewrite (proj1 (proj2 (foldl_applyClientOption_kept post _ k)) H).
  - intros H. destruct (repairClient_fields (foldl applyClientOption c0
                                               (pre ++ WithMaxActive k :: post)))
      as (_ & _ & -> & _). rewrite foldl_app. cbn [foldl].
    by rewrite (proj1 (proj2 (proj2 (foldl_applyClientOption_kept post _ k))) H).
  - destruct (repairClient_fields (foldl applyClientOption c0 (pre ++ WithWaitMode :: post)))
      as (_ & _ & _ & ->). rewrite foldl_app. cbn [foldl].
    by apply (foldl_applyClientOption_kept post _ 0).
  - intros H. destruct (repairClient_fields (foldl applyClientOption c0 (pre ++ post)))
      as (_ & _ & _ & ->).
    by rewrite (proj1 (proj2 (proj2 (proj2 (foldl_applyClientOption_kept (pre ++ post) c0 0))))
                  H).
Qed.

Lemma client_options_reach_pool_witness :
  MaxIdle (NewClient_pool "tcp" "10.0.0.1:6379" EmptyString
             ([WithMaxIdle 5; WithWaitMode] ++ WithMaxIdle (-1) :: [WithMaxActive 7]))
  = DefaultMaxIdle.
Proof.
  apply (proj1 (client_options_reach_pool "tcp" "10.0.0.1:6379" EmptyString
                  [WithMaxIdle 5; WithWaitMode] [WithMaxActive 7] (-1))).
  reflexivity.
Defined.

(** ** The goroutine id *)

Lemma all_chars_impl (P Q : ascii → bool) (s : string) :
  (∀ c, P c = true → Q c = true) → all_chars P s = true → all_chars Q s = true.
Proof.
  intros HPQ. induction s as [|c s IH]; simpl; [done|].
  intros H. apply andb_true_iff in H as [Hc Hs]. by rewrite (HPQ c Hc), IH.
Qed.

Lemma all_chars_app (P : ascii → bool) (s t : string) :
  all_chars P (s +:+ t) = all_chars P s && all_chars P t.
Proof. induction s as [|c s IH]; simpl; [done|]. by rewrite IH, andb_assoc. Qed.

Lemma is_digit_pretty_N_char (x : N) : is_digit (pretty_N_char x) = true.
Proof. unfold pretty_N_char. by repeat case_match. Qed.

Lemma digits_pretty_N_go (x : N) (s : string) :
  all_chars is_digit s = true → all_chars is_digit (pretty_N_go x s) = true.
Proof.
  revert s. induction (N.lt_wf_0 x) as [x _ IH]; intros s Hs.
  destruct (decide (x = 0%N)) as [->|Hx]; [by rewrite pretty_N_go_0|].
  rewrite pretty_N_go_step by lia. apply IH; [apply N.div_lt; lia|].
  simpl. by rewrite is_digit_pretty_N_char, Hs.
Qed.

Lemma digits_pretty_nat (x : nat) : all_chars is_digit (pretty x) = true.
Proof.
  unfold pretty, pretty_nat, pretty, pretty_N.
  case_decide; [reflexivity|]. by apply digits_pretty_N_go.
Qed.

Lemma string_app_cons (c : ascii) (s t : string) : String c s +:+ t = String c (s +:+ t).
Proof. reflexivity. Qed.

Lemma string_app_nil (t : string) : EmptyString +:+ t = t.
Proof. reflexivity. Qed.

Lemma string_app_assoc (s t u : string) : (s +:+ t) +:+ u = s +:+ t +:+ u.
Proof.
  induction s as [|c s IH]; [done|]. by rewrite !string_app_cons, IH.
Qed.

Lemma string_length_app (s t : string) :
  String.length (s +:+ t) = (String.length s + String.length t)%nat.
Proof.
  induction s as [|c s IH]; [done|]. rewrite string_app_cons. simpl. by rewrite IH.
Qed.

Lemma first_bytes_app (k : nat) (s t : string) :
  (String.length s ≤ k)%nat →
  first_bytes k (s +:+ t) = s +:+ first_bytes (k - String.length s) t.
Proof.
  revert k. induction s as [|c s IH]; intros k Hk.
  - rewrite !string_app_nil. f_equal. simpl. lia.
  - simpl in Hk. destruct k as [|k]; [lia|].
    rewrite !string_app_cons. simpl. rewrite IH by lia. done.
Qed.

Section Split.
Variables (c0 : ascii) (sep' : string).
Local Abbreviation sep := (String c0 sep').
Local Abbreviation lacks := (all_chars (λ x, negb (Ascii.eqb x c0))).

Lemma Split_go_cons (sp : string) (c : ascii) (s : string) :
  Split_go sp 0 (String c s)
  = if String.prefix sp (String c s)
    then (EmptyString,
          let '(h, t) := Split_go sp (String.length sp - 1) s in h :: t)
    else let '(h, t) := Split_go sp 0 s in (String c h, t).
Proof. reflexivity. Qed.

Lemma prefix_lacks (c : ascii) (s : string) :
  negb (Ascii.eqb c c0) = true → String.prefix sep (String c s) = false.
Proof.
  intros Hc. cbn [String.prefix]. destruct (ascii_dec c0 c) as [->|]; [|done].
  by rewrite Ascii.eqb_refl in Hc.
Qed.

(** A text without the first character of the separator is one piece. *)
Lemma Split_go_lacks (A : string) :
  lacks A = true → Split_go sep 0 A = (A, []).
Proof.
  induction A as [|c A IH]; [done|]. intros H.
  apply andb_true_iff in H as [Hc HA].
  by rewrite Split_go_cons, prefix_lacks, IH.
Qed.

(** The first piece ends where the separator is first found. *)
Lemma Split_go_first (A s : string) :
  lacks A = true → String.prefix sep s = true →
  fst (Split_go sep 0 (A +:+ s)) = A.
Proof.
  intros HA Hs. induction A as [|c A IH].
  - rewrite string_app_nil. destruct s as [|c s]; [done|].
    by rewrite Split_go_cons, Hs.
  - apply andb_true_iff in HA as [Hc HA]. rewrite string_app_cons, Split_go_cons.
    rewrite prefix_lacks by done. specialize (IH HA).
    destruct (Split_go sep 0 (A +:+ s)) as [h t]. simpl in *. by rewrite IH.
Qed.
End Split.

Lemma TrimLeft_no_space (s : string) :
  all_chars (λ c, negb (is_space c)) s = true → TrimLeft (s +:+ " ") = if s is EmptyString then EmptyString else s +:+ " ".
Proof.
  destruct s as [|c s]; [done|]. simpl. intros H.
  apply andb_true_iff in H as [Hc _]. by destruct (is_space c).
Qed.

Lemma TrimRight_no_space (s : string) :
  all_chars (λ c, negb (is_space c)) s = true → TrimRight (s +:+ " ") = s.
Proof.
  induction s as [|c s IH]; [done|]. simpl. intros H.
  apply andb_true_iff in H as [Hc Hs]. rewrite IH by done.
  destruct s; [by destruct (is_space c)|done].
Qed.

Lemma is_digit_not (c : ascii) (x : ascii) :
  is_digit x = false → is_digit c = true → negb (Ascii.eqb c x) = true.
Proof.
  intros Hx Hc. destruct (Ascii.eqb_spec c x) as [->|]; [congruence|done].
Qed.

(** X21. [GetCurrentGoroutineID] reads the goroutine id off the header of
    the stack text: for the text the runtime writes for goroutine [goid],
    whatever frames follow, it returns the id in decimal, as long as the
    header fits into the buffer of 128 bytes. *)
Theorem GetCurrentGoroutineID_reads_header (goid : nat) (frames : string) :
  (String.length (pretty goid) ≤ 107)%nat →
  GetCurrentGoroutineID (stack_text goid frames) = Returned (pretty goid).
Proof.
  intros Hlen. unfold GetCurrentGoroutineID, stack_text. cbv zeta.
  rewrite first_bytes_app
    by (rewrite !string_length_app; simpl; lia).
  set (rest := first_bytes _ frames). clearbody rest.
  pose proof (digits_pretty_nat goid) as HD.
  set (D := pretty goid) in *. clearbody D.
  assert (Hbr : all_chars (λ x, negb (Ascii.eqb x "["%char)) D = true)
    by (eapply all_chars_impl; [|exact HD]; intros c; by apply is_digit_not).
  assert (Hg : all_chars (λ x, negb (Ascii.eqb x "g"%char)) D = true)
    by (eapply all_chars_impl; [|exact HD]; intros c; by apply is_digit_not).
  assert (Hsp : all_chars (λ c, negb (is_space c)) D = true).
  { eapply all_chars_impl; [|exact HD]. intros c Hc. unfold is_digit, is_space in *.
    apply andb_true_iff in Hc as [H1 H2]. apply N.leb_le in H1. apply N.leb_le in H2.
    apply negb_true_iff, orb_false_iff. split.
    - apply andb_false_iff. right. apply N.leb_gt. lia.
    - apply N.eqb_neq. lia. }
  assert (Hfirst : hd EmptyString
                     (strings_Split (("goroutine " +:+ D +:+ " [running]:") +:+ rest)
                                    "[running]")
                   = "goroutine " +:+ D +:+ " ").
  { unfold strings_Split.
    replace (("goroutine " +:+ D +:+ " [running]:") +:+ rest)
      with (("goroutine " +:+ D +:+ " ") +:+ "[running]:" +:+ rest).
    2:{ cbn [String.append]. rewrite !string_app_assoc. reflexivity. }
    pose proof (Split_go_first "["%char "running]" ("goroutine " +:+ D +:+ " ")
                  ("[running]:" +:+ rest)) as H.
    destruct (Split_go _ 0 _) as [h t]. simpl in H. simpl. apply H; [|reflexivity].
    rewrite !all_chars_app, Hbr. reflexivity. }
  rewrite Hfirst. unfold strings_Split.
  assert (Hsecond : Split_go "goroutine" 0 ("goroutine " +:+ D +:+ " ")
                    = (EmptyString,
                       let '(h, t) := Split_go "goroutine" 0 (" " +:+ D +:+ " ") in h :: t))
    by reflexivity.
  rewrite Hsecond, (Split_go_lacks "g"%char "oroutine" (" " +:+ D +:+ " ")).
  2:{ rewrite !all_chars_app, Hg. reflexivity. }
  unfold strings_TrimSpace.
  assert (Hleft : TrimLeft (" " +:+ D +:+ " ") = TrimLeft (D +:+ " ")) by reflexivity.
  rewrite Hleft, TrimLeft_no_space by done.
  destruct D as [|c D]; [reflexivity|]. by rewrite TrimRight_no_space.
Qed.

Lemma GetCurrentGoroutineID_reads_header_witness :
  GetCurrentGoroutineID (stack_text 42 "main.main()") = Returned "42".
Proof.
  apply (GetCurrentGoroutineID_reads_header 42 "main.main()").
  vm_compute. lia.
Defined.

(** ** The token and the goroutine *)

Lemma pretty_N_go_nonempty (x : N) (s : string) :
  s ≠ EmptyString → pretty_N_go x s ≠ EmptyString.
Proof.
  revert s. induction (N.lt_wf_0 x) as [x _ IH]; intros s Hs.
  destruct (decide (x = 0%N)) as [->|Hx]; [by rewrite pretty_N_go_0|].
  rewrite pretty_N_go_step by lia. apply IH; [apply N.div_lt; lia|done].
Qed.

Lemma pretty_nat_nonempty (x : nat) : pretty x ≠ EmptyString.
Proof.
  unfold pretty, pretty_nat, pretty, pretty_N.
  case_decide; [done|]. rewrite pretty_N_go_step by lia.
  by apply pretty_N_go_nonempty.
Qed.

Section SplitApp.
Variables (c0 : ascii) (sep' : string).

(** Text without the first character of the separator stays in the
    first piece. *)
Lemma Split_go_lacks_app (A s : string) :
  all_chars (λ x, negb (Ascii.eqb x c0)) A = true →
  Split_go (String c0 sep') 0 (A +:+ s)
  = (A +:+ fst (Split_go (String c0 sep') 0 s), snd (Split_go (String c0 sep') 0 s)).
Proof.
  intros HA. induction A as [|c A IH].
  - rewrite !string_app_nil. by destruct (Split_go _ 0 s).
  - apply andb_true_iff in HA as [Hc HA]. rewrite !string_app_cons, Split_go_cons.
    rewrite prefix_lacks by done. rewrite (IH HA). reflexivity.
Qed.
End SplitApp.

Lemma TrimRight_no_space_app (D X : string) :
  all_chars (λ c, negb (is_space c)) D = true →
  TrimRight (D +:+ X) = D +:+ TrimRight X.
Proof.
  induction D as [|c D IH]; [done|]. intros H.
  apply andb_true_iff in H as [Hc HD]. rewrite !string_app_cons.
  cbn [TrimRight]. rewrite (IH HD).
  destruct (D +:+ TrimRight X); [|done]. by destruct (is_space c).
Qed.

Lemma is_digit_no_space (c : ascii) : is_digit c = true → is_space c = false.
Proof.
  unfold is_digit, is_space. intros Hc.
  apply andb_true_iff in Hc as [H1 H2]. apply N.leb_le in H1. apply N.leb_le in H2.
  apply orb_false_iff. split.
  - apply andb_false_iff. right. apply N.leb_gt. lia.
  - apply N.eqb_neq. lia.
Qed.

Lemma digits_no_space (D : string) :
  all_chars is_digit D = true → all_chars (λ c, negb (is_space c)) D = true.
Proof.
  apply all_chars_impl. intros c Hc. by rewrite is_digit_no_space.
Qed.

(** What [GetCurrentGoroutineID] reads off the stack text of a caller:
    the id, and after it nothing or a space and more, as the status and
    the frames have it. *)
Lemma GetCurrentGoroutineID_shape (g : caller) :
  (String.length (pretty (goid g)) ≤ 117)%nat →
  ∃ tail, GetCurrentGoroutineID (caller_stack g) = Returned (pretty (goid g) +:+ tail)
          ∧ (tail = EmptyString ∨ ∃ t, tail = String " " t).
Proof.
  intros Hlen. unfold GetCurrentGoroutineID, caller_stack. cbv zeta.
  pose proof (digits_pretty_nat (goid g)) as HD.
  pose proof (pretty_nat_nonempty (goid g)) as Hne.
  set (D := pretty (goid g)) in *. clearbody D.
  set (X := status g +:+ "]:" +:+ frames g).
  assert (Htext : ("goroutine " +:+ D +:+ " [" +:+ status g +:+ "]:") +:+ frames g
                  = ("goroutine " +:+ D +:+ " ") +:+ String "[" X).
  { unfold X. rewrite !string_app_assoc. reflexivity. }
  rewrite Htext. clearbody X.
  rewrite first_bytes_app by (rewrite !string_app_cons, string_app_nil;
                              cbn [String.length]; rewrite string_length_app; simpl; lia).
  set (Y := first_bytes _ (String "[" X)). clearbody Y.
  assert (Hbr : all_chars (λ x, negb (Ascii.eqb x "["%char)) ("goroutine " +:+ D +:+ " ")
                = true).
  { rewrite !all_chars_app.
    rewrite (all_chars_impl is_digit _ D); [reflexivity| |exact HD].
    intros c. by apply is_digit_not. }
  unfold strings_Split at 2.
  rewrite (Split_go_lacks_app "["%char "running]" _ Y Hbr).
  set (P := fst (Split_go "[running]" 0 Y)). clearbody P. cbn [hd].
  assert (Hsecond : strings_Split (("goroutine " +:+ D +:+ " ") +:+ P) "goroutine"
                    = EmptyString
                      :: (let '(h, t) := Split_go "goroutine" 0 ((" " +:+ D +:+ " ") +:+ P)
                          in h :: t)).
  { rewrite !string_app_assoc. reflexivity. }
  rewrite Hsecond.
  rewrite (Split_go_lacks_app "g"%char "oroutine" (" " +:+ D +:+ " ") P).
  2:{ rewrite !all_chars_app.
      rewrite (all_chars_impl is_digit _ D); [reflexivity| |exact HD].
      intros c. by apply is_digit_not. }
  set (Q := fst (Split_go "goroutine" 0 P)). clearbody Q.
  unfold strings_TrimSpace.
  assert (Hleft : TrimLeft ((" " +:+ D +:+ " ") +:+ Q) = D +:+ " " +:+ Q).
  { rewrite !string_app_assoc.
    change (TrimLeft (" " +:+ D +:+ " " +:+ Q)) with (TrimLeft (D +:+ " " +:+ Q)).
    destruct D as [|c D]; [done|]. rewrite string_app_cons. cbn [TrimLeft].
    simpl in HD. apply andb_true_iff in HD as [Hc _].
    by rewrite (is_digit_no_space c Hc). }
  rewrite Hleft, TrimRight_no_space_app by (by apply digits_no_space).
  eexists. split; [reflexivity|].
  change (TrimRight (" " +:+ Q))
    with (match TrimRight Q with
          | EmptyString => EmptyString
          | r => String " " r
          end).
  destruct (TrimRight Q); [by left|right; by eexists].
Qed.

(** On the stack text of a caller [GetCurrentGoroutineID] returns: the
    text starts with "goroutine", which no cut at "[running]" and no
    cut to 128 bytes takes away. *)
Lemma GetCurrentGoroutineID_returns (g : caller) :
  ∃ id, GetCurrentGoroutineID (caller_stack g) = Returned id.
Proof.
  unfold GetCurrentGoroutineID, caller_stack. cbv zeta.
  rewrite string_app_assoc.
  set (R := (pretty (goid g) +:+ " [" +:+ status g +:+ "]:") +:+ frames g). clearbody R.
  assert (Hcut : first_bytes 128 ("goroutine " +:+ R) = "goroutine " +:+ first_bytes 118 R)
    by reflexivity.
  rewrite Hcut. set (Y := first_bytes 118 R). clearbody Y.
  unfold strings_Split at 2.
  rewrite (Split_go_lacks_app "["%char "running]" "goroutine " Y eq_refl).
  set (P := fst (Split_go "[running]" 0 Y)). clearbody P. cbn [hd].
  assert (Hsecond : strings_Split ("goroutine " +:+ P) "goroutine"
                    = EmptyString
                      :: (let '(h, t) := Split_go "goroutine" 0 (" " +:+ P) in h :: t))
    by reflexivity.
  rewrite Hsecond. destruct (Split_go "goroutine" 0 (" " +:+ P)) as [h t].
  by eexists.
Qed.

Lemma digits_prefix_unique (D1 D2 t1 t2 : string) :
  all_chars is_digit D1 = true → all_chars is_digit D2 = true →
  (t1 = EmptyString ∨ ∃ t, t1 = String " " t) →
  (t2 = EmptyString ∨ ∃ t, t2 = String " " t) →
  D1 +:+ t1 = D2 +:+ t2 → D1 = D2.
Proof.
  revert D2. induction D1 as [|c1 D1 IH]; intros [|c2 D2] H1 H2 Ht1 Ht2 H.
  - done.
  - rewrite string_app_nil, string_app_cons in H. simpl in H2.
    apply andb_true_iff in H2 as [Hc _].
    destruct Ht1 as [->|[t ->]]; [done|]. inversion H; subst. done.
  - rewrite string_app_nil, string_app_cons in H. simpl in H1.
    apply andb_true_iff in H1 as [Hc _].
    destruct Ht2 as [->|[t ->]]; [done|]. inversion H; subst. done.
  - rewrite !string_app_cons in H. inversion H; subst.
    simpl in H1, H2. apply andb_true_iff in H1 as [_ H1]. apply andb_true_iff in H2 as [_ H2].
    f_equal. by apply (IH D2).
Qed.

(** X16. The token names the process and the goroutine: two callers get
    the same token only if they are the same goroutine of the same
    process, whatever status and frames their stack texts have.  (The
    token is more than the two ids where the header is not the plain
    "[running]": what follows the id in the first 128 bytes of the text
    goes into it.) *)
Theorem token_identifies_goroutine (g1 g2 : caller) :
  (String.length (pretty (goid g1)) ≤ 117)%nat →
  (String.length (pretty (goid g2)) ≤ 117)%nat →
  GetProcessAndGoroutineIDStr g1 = GetProcessAndGoroutineIDStr g2 →
  pid g1 = pid g2 ∧ goid g1 = goid g2.
Proof.
  intros H1 H2 H. unfold GetProcessAndGoroutineIDStr in H.
  destruct (GetCurrentGoroutineID_shape g1 H1) as (t1 & E1 & Ht1).
  destruct (GetCurrentGoroutineID_shape g2 H2) as (t2 & E2 & Ht2).
  rewrite E1, E2 in H.
  apply append_underscore_inj in H as [Hp Hg]; try apply no_underscore_pretty_nat.
  apply (inj pretty) in Hp. split; [exact Hp|].
  apply digits_prefix_unique in Hg; try apply digits_pretty_nat; try done.
  by apply (inj pretty) in Hg.
Qed.

Lemma token_identifies_goroutine_witness :
  pid (mkCaller 1 1) = pid (mkCallerAt 1 1 "running" "main.main()")
  ∧ goid (mkCaller 1 1) = goid (mkCallerAt 1 1 "running" "main.main()").
Proof.
  apply (token_identifies_goroutine (mkCaller 1 1) (mkCallerAt 1 1 "running" "main.main()")).
  - vm_compute. lia.
  - vm_compute. lia.
  - vm_compute. reflexivity.
Defined.

(** ** The quorum lock without lease: a round trip *)

Lemma free_at_later (w w2 : World Redis) (k : string) (c : SingleNodeConf) :
  now w ≤ now w2 →
  db_of w2 (Address c) = db_of w (Address c) →
  free_at w k c = true → free_at w2 k c = true.
Proof.
  intros Hn Hdb. unfold free_at. rewrite Hdb.
  destruct (live (now w) (db_of w (Address c)) _) eqn:Hl; [done|]. intros _.
  by rewrite (live_expired_later (now w) (now w2)).
Qed.

Lemma RedLock_Lock_loop_all_free (timeout : Z) (ctx : context) (g : caller) (k : string)
    (s : Z) (confs : list SingleNodeConf) (obs : list (list (tick Redis))) (cnt0 : Z)
    (w : World Redis) :
  0 < timeout →
  s ≤ 0 →
  NoDup (map Address confs) →
  net_within timeout (client_state w) →
  (∀ c, c ∈ confs → free_at w k c = true) →
  ∃ ls' ids w',
    RedLock_Lock_loop timeout ctx (map (member_of g k s) confs) obs cnt0 w
    = Some (cnt0 + Z.of_nat (length confs), ls', ids, w')
    ∧ Forall2 (member_started g k) confs ls'
    ∧ now w ≤ now w'
    ∧ (∀ a', a' ∉ map Address confs → db_of w' a' = db_of w a')
    ∧ (∀ c, c ∈ confs →
            ∃ E', db_of w' (Address c) !! (RedisLockKeyPrefix +:+ k)
                  = Some (mkEntry (GetProcessAndGoroutineIDStr g) E')
                  ∧ now w + DefaultLockExpireSeconds * Second ≤ E').
Proof.
  intros Ht Hs. revert obs cnt0 w.
  induction confs as [|conf confs IH]; intros obs cnt0 w Hnd Hg Hfree.
  - simpl. exists [], [], w. split; [do 4 f_equal; lia|]. split; [constructor|].
    split; [lia|]. split; [done|]. intros c Hc. by apply elem_of_nil in Hc.
  - simpl in Hnd. apply NoDup_cons in Hnd as [Hnin Hnd].
    cbn [map RedLock_Lock_loop fresh_id].
    set (w1 := mkWorld (now w) (cancelled w) (Datatypes.S (next_id w)) (goroutines w)
                       (client_state w)).
    destruct (member_Lock_within g k s conf
                (WithTimeout (next_id w) (now w1 + timeout) ctx) (hd [] obs) w1 timeout Ht Hg)
      as (err & l' & w2 & HL & Hg2 & Hn2 & Hoth & Hhead).
    rewrite HL.
    assert (Hf1 : free_at w1 k conf = true)
      by (apply (Hfree conf); apply elem_of_cons; by left).
    destruct (Hhead Hf1) as (-> & Hrec & Hst). simpl in Hn2.
    replace (is_nil None && (now w2 - now w <=? timeout)) with true
      by (symmetry; apply Z.leb_le; lia).
    assert (Hne : ∀ c, c ∈ confs → Address conf ≠ Address c).
    { intros c Hc Heq. apply Hnin. rewrite Heq.
      exact (list_elem_of_fmap_2 Address confs c Hc). }
    destruct (IH (tl obs) (cnt0 + 1) w2 Hnd Hg2) as (ls' & ids & w3 & Hloop & Hall & Hn3 & Hoth3 & Hrec3).
    { intros c Hc. apply (free_at_later w); [lia| |apply Hfree; apply elem_of_cons; by right].
      by rewrite (Hoth (Address c) (Hne c Hc)). }
    rewrite Hloop. exists (l' :: ls'), (ids ++ [next_id w]), w3.
    split; [do 4 f_equal; rewrite length_cons; lia|].
    split; [constructor; [by apply Hst|done]|].
    split; [lia|]. split.
    + intros a' Hn'. apply not_elem_of_cons in Hn' as [Hna Hn'].
      rewrite (Hoth3 a' Hn'). by rewrite (Hoth a').
    + intros c Hc. apply elem_of_cons in Hc as [->|Hc].
      * eexists. rewrite (Hoth3 (Address conf) Hnin). split; [exact Hrec|].
        unfold member_of. rewrite NewRedisLock_single_expire.
        replace (0 <? s) with false by (symmetry; apply Z.ltb_ge; lia).
        simpl. lia.
      * destruct (Hrec3 c Hc) as (E' & HE & Hb). exists E'. split; [done|]. lia.
Qed.

Section Release.
Variables (n a p : string) (d : Z).
Hypothesis d_pos : 0 < d.
Implicit Types (r : RedisLock Redis) (w : World Redis) (ctx : context).

(** One [Unlock] by the owner of an unexpired record, on a node that
    answers within [d]. *)
Lemma Unlock_within r ctx w (id : nat) (E : Z) :
  client r = NewClient n a p →
  stopDog r = Some id →
  net_within d (client_state w) →
  db_of w a !! getLockKey r = Some (mkEntry (token r) E) →
  now w < E →
  let res := Unlock r ctx w in
  fst res = Returned None
  ∧ net_within d (client_state (snd res))
  ∧ now w ≤ now (snd res) < now w + d
  ∧ (∀ a', a ≠ a' → db_of (snd res) a' = db_of w a')
  ∧ db_of (snd res) a = delete (getLockKey r) (db_of w a).
Proof.
  intros Hc Hstop Hg Hrec Hlt.
  destruct (net_within_next_event d _ d_pos Hg) as (Hg' & Hok & Hlat).
  cbv zeta. unfold Unlock.
  rewrite (call_Eval_on_redis n a p) by done. rewrite run_script_delete.
  unfold live. rewrite Hrec. cbn [entry_expire_at entry_value].
  replace (now w <? E) with true by (symmetry; apply Z.ltb_lt; lia).
  rewrite bool_decide_eq_true_2 by done. cbn [fst snd]. rewrite Hstop.
  cbn [fst snd reply_int64]. split; [done|].
  unfold db_of. rewrite client_state_cancel, now_cancel. simpl.
  split; [exact Hg'|]. split; [lia|]. split.
  - intros a' Hne. by rewrite node_db_set_node_db_ne, node_db_next_event.
  - by rewrite node_db_set_node_db.
Qed.
End Release.

Lemma RedLock_Unlock_loop_all_held (d : Z) (ctx : context) (g : caller) (k : string)
    (confs : list SingleNodeConf) (ls : list (RedisLock Redis)) (err0 : option error)
    (w : World Redis) (T : Z) :
  0 < d →
  NoDup (map Address confs) →
  Forall2 (member_started g k) confs ls →
  net_within d (client_state w) →
  (∀ c, c ∈ confs →
        ∃ E', db_of w (Address c) !! (RedisLockKeyPrefix +:+ k)
              = Some (mkEntry (GetProcessAndGoroutineIDStr g) E')
              ∧ T ≤ E') →
  now w + d * Z.of_nat (length confs) ≤ T →
  fst (RedLock_Unlock_loop ls ctx err0 w) = Returned err0
  ∧ (∀ c, c ∈ confs →
          db_of (snd (RedLock_Unlock_loop ls ctx err0 w)) (Address c)
            !! (RedisLockKeyPrefix +:+ k) = None)
  ∧ (∀ a', a' ∉ map Address confs →
           db_of (snd (RedLock_Unlock_loop ls ctx err0 w)) a' = db_of w a').
Proof.
  intros Hd Hnd Hall. revert w.
  induction Hall as [|conf l confs ls Hl Hall IH]; intros w Hg Hrec HT.
  - simpl. split; [done|]. split; [|done]. intros c Hc. by apply elem_of_nil in Hc.
  - simpl in Hnd. apply NoDup_cons in Hnd as [Hnin Hnd].
    destruct Hl as (Hc & Hk & Htok & [id Hid]).
    destruct (Hrec conf ltac:(apply elem_of_cons; by left)) as (E' & HE & HTE).
    rewrite length_cons in HT.
    assert (Hkey : getLockKey l = RedisLockKeyPrefix +:+ k) by (unfold getLockKey; by rewrite Hk).
    destruct (Unlock_within _ _ _ d Hd l ctx w id E' Hc Hid Hg
                ltac:(by rewrite Hkey, Htok) ltac:(nia))
      as (Hres & Hg1 & Hn1 & Hoth & Hdel).
    cbn [RedLock_Unlock_loop].
    destruct (Unlock l ctx w) as [out w1]. cbn [fst snd] in *. subst out. cbn [is_nil].
    assert (Hne : ∀ c, c ∈ confs → Address conf ≠ Address c).
    { intros c Hin Heq. apply Hnin. rewrite Heq.
      exact (list_elem_of_fmap_2 Address confs c Hin). }
    destruct (IH Hnd w1 Hg1) as (Hout & Hnone & Hoth2).
    { intros c Hin. destruct (Hrec c ltac:(apply elem_of_cons; by right)) as (E2 & HE2 & HT2).
      exists E2. split; [|done]. by rewrite (Hoth (Address c) (Hne c Hin)). }
    { nia. }
    split; [done|]. split.
    + intros c Hin. apply elem_of_cons in Hin as [->|Hin]; [|by apply Hnone].
      rewrite (Hoth2 (Address conf) Hnin), Hdel, Hkey. apply lookup_delete_eq.
    + intros a' Hn'. apply not_elem_of_cons in Hn' as [Hna Hn'].
      rewrite (Hoth2 a' Hn'). by rewrite (Hoth a').
Qed.

(** X22. The quorum lock makes a round trip when it is built without a
    lease of a second or more, so that its members run in watchdog mode.
    With node addresses that are distinct and not empty (on an empty one
    the dial panics), all nodes free and answering within the
    single-node timeout, [RedLock.Lock] returns nil; and a
    [RedLock.Unlock] that reaches every node before the ten seconds of the
    members' default lifetime are over returns nil and leaves no record
    for the key on any of the nodes. *)
Theorem RedLock_round_trip_without_lease (g : caller) (k : string)
    (confs : list SingleNodeConf) (opts : list RedLockOption) (rl : RedLock)
    (ctx ctx2 : context) (obs : list (list (tick Redis))) (w : World Redis) (d : Z) :
  NewRedLock g k confs opts = inl rl →
  expireDuration (redLockOptionsOf opts) < Second →
  NoDup (map Address confs) →
  (∀ c, c ∈ confs →
        getRedisConn_panics (mkClient (Network c) (Address c) (Password c)) = false) →
  net_within (singleNodesTimeout (redLockOptions rl)) (client_state w) →
  (∀ c, c ∈ confs → free_at w k c = true) →
  ∃ rl' w1,
    RedLock_Lock rl ctx obs w = Some (Returned None, rl', w1)
    ∧ (0 < d →
       net_within d (client_state w1) →
       now w1 + d * Z.of_nat (length confs) ≤ now w + DefaultLockExpireSeconds * Second →
       fst (RedLock_Unlock rl' ctx2 w1) = Returned None
       ∧ ∀ c, c ∈ confs →
              db_of (snd (RedLock_Unlock rl' ctx2 w1)) (Address c)
                !! (RedisLockKeyPrefix +:+ k) = None).
Proof.
  intros HN Hlease Hnd _ Hg Hfree.
  assert (Hrl : locks rl = map (member_of g k (Duration_Seconds
                                                 (expireDuration (redLockOptionsOf opts))))
                               confs
                ∧ 0 < singleNodesTimeout (redLockOptions rl)
                ∧ (0 < length confs)%nat).
  { unfold NewRedLock in HN. fold (redLockOptionsOf opts) in HN.
    destruct (Z.ltb_spec (Z.of_nat (length confs)) 3) as [|Hlen]; [done|].
    destruct (_ && _); [done|]. inversion HN; subst. simpl.
    split; [reflexivity|]. split; [apply repairRedLock_timeout_pos|lia]. }
  destruct Hrl as (Hlocks & Hpos & Hlen).
  pose proof (Duration_Seconds_nonpos _ Hlease) as Hs.
  destruct (RedLock_Lock_loop_all_free (singleNodesTimeout (redLockOptions rl)) ctx g k _
              confs obs 0 w Hpos Hs Hnd Hg Hfree)
    as (ls' & ids & w1 & Hloop & Hall & Hn1 & _ & Hrec).
  unfold RedLock_Lock. rewrite Hlocks, Hloop. cbn [locks].
  rewrite <- (Forall2_length _ _ _ Hall).
  replace (0 + Z.of_nat (length confs) <? Z.of_nat (length confs) / 2 + 1) with false
    by (symmetry; apply Z.ltb_ge; pose proof (Z.div_lt_upper_bound (Z.of_nat (length confs)) 2
                                                (Z.of_nat (length confs))); lia).
  eexists _, _. split; [reflexivity|].
  intros Hd Hgd HT. unfold RedLock_Unlock. cbn [locks].
  set (wx := foldl (λ w id, cancel id w) w1 ids) in *.
  assert (Hsx : client_state wx = client_state w1) by apply client_state_foldl_cancel.
  destruct (RedLock_Unlock_loop_all_held d ctx2 g k confs ls' None wx
              (now w + DefaultLockExpireSeconds * Second) Hd Hnd Hall Hgd)
    as (Hout & Hnone & _); [|exact HT|by split].
  intros c Hc. destruct (Hrec c Hc) as (E' & HE & Hb). exists E'.
  unfold db_of in *. by rewrite Hsx.
Qed.

Lemma RedLock_round_trip_without_lease_witness :
  ∃ rl' w1,
    RedLock_Lock plain_redLock Background [] world0 = Some (Returned None, rl', w1)
    ∧ fst (RedLock_Unlock rl' Background w1) = Returned None
    ∧ ∀ c, c ∈ three_nodes →
           db_of (snd (RedLock_Unlock rl' Background w1)) (Address c)
             !! (RedisLockKeyPrefix +:+ "test_key") = None.
Proof.
  destruct (RedLock_round_trip_without_lease (mkCaller 1 1) "test_key" three_nodes []
              plain_redLock Background Background [] world0 Millisecond)
    as (rl' & w1 & HL & Hrest).
  - apply NewRedLock_accepted; vm_compute; reflexivity.
  - vm_compute. reflexivity.
  - apply (bool_decide_unpack (NoDup (map Address three_nodes))). vm_compute. exact I.
  - intros c Hc.
    repeat (apply elem_of_cons in Hc as [->|Hc]; [reflexivity|]).
    exfalso. exact (proj1 (elem_of_nil c) Hc).
  - constructor.
  - intros c Hc.
    repeat (apply elem_of_cons in Hc as [->|Hc]; [vm_compute; reflexivity|]).
    exfalso. exact (proj1 (elem_of_nil c) Hc).
  - assert (Hw : match RedLock_Lock plain_redLock Background [] world0 with
                 | Some (_, _, w') => (net (client_state w'), now w')
                 | None => ([], 1)
                 end = ([], 0)) by (vm_compute; reflexivity).
    rewrite HL in Hw. inversion Hw as [[Hnet Hnow]].
    exists rl', w1. split; [exact HL|]. apply Hrest.
    + vm_compute. reflexivity.
    + unfold net_within. rewrite Hnet. constructor.
    + rewrite Hnow. vm_compute. discriminate.
Defined.

(** ** The flag of the watchdog *)

(** X23. A [Lock] that has taken the key on a lock in watchdog mode waits
    for the flag: while [runningDog] is not 0, that is until the goroutine
    of the earlier acquisition has returned and its deferred function has
    reset the flag, the compare-and-swap loop of [watchDog] spins and
    [Lock] does not return.  Once the flag is reset the same call returns
    nil, with the flag at 1 again and a new [stopDog]. *)
Theorem Lock_spins_until_watchdog_exits {S : Type} (r : RedisLock S) (ctx : context)
    (ticks : list (tick S)) (w w1 : World S) :
  tryLock r ctx w = (None, w1) →
  watchDogMode (lockOptions r) = true →
  (runningDog r ≠ 0 → Lock r ctx ticks w = None)
  ∧ (∃ r' w', Lock (flag_reset r) ctx ticks w = Some (None, r', w')
              ∧ runningDog r' = 1 ∧ stopDog r' = Some (next_id w1)).
Proof.
  intros Ht Hm. split.
  - intros Hz. unfold Lock. rewrite Ht. unfold Lock_deferred, watchDog, CompareAndSwapInt32.
    rewrite Hm. simpl. by destruct (Z.eqb_spec (runningDog r) 0).
  - assert (Ht' : tryLock (flag_reset r) ctx w = (None, w1)) by exact Ht.
    unfold Lock. rewrite Ht'. unfold Lock_deferred, watchDog, CompareAndSwapInt32.
    cbn [flag_reset lockOptions runningDog]. rewrite Hm. simpl.
    eexists _, _. split; [reflexivity|]. by split.
Qed.

Lemma Lock_spins_until_watchdog_exits_witness :
  Lock started_lock Background [] world0 = None
  ∧ ∃ r' w', Lock (flag_reset started_lock) Background [] world0 = Some (None, r', w')
             ∧ runningDog r' = 1
             ∧ stopDog r' = Some (next_id (snd (tryLock started_lock Background world0))).
Proof.
  assert (Ht : fst (tryLock started_lock Background world0) = None)
    by (vm_compute; reflexivity).
  destruct (tryLock started_lock Background world0) as [err w1] eqn:Htry.
  simpl in Ht. subst err.
  destruct (Lock_spins_until_watchdog_exits started_lock Background [] world0 w1 Htry
              eq_refl) as [Hspin Hback].
  split; [apply Hspin; discriminate|exact Hback].
Defined.
